(** * Corpus builder ([rag-ml/kb/build-docs.py]): model and verification

    The script normalises raw documentation downloads for four languages
    into per-language [docs/] directories.  This development embeds the
    script over a finite-map model of the file system and proves the
    properties its specification states about it.

    Layout:
    - [Text]: Python string formatting used by the script ([str(int)],
      the [:04d] format, [str.lower], [Path.suffix]);
    - [Fs]: paths, file-system states, the outcome monad and the
      [pathlib]/[shutil]/[os] primitives the script calls;
    - [Build]: the script's functions, one definition per [def];
    - the theorems. *)

From Stdlib Require Import ZArith Lia Ascii DecimalString DecimalN.
From stdpp Require Import base gmap list strings sets.

Local Open Scope Z_scope.

(* ===================================================================== *)
(** * Text: Python string formatting *)
(* ===================================================================== *)

Module Text.

(** [str(n)] for [n >= 0]: the decimal digits, most significant first. *)
Definition str_of_N (n : N) : string :=
  NilEmpty.string_of_uint (N.to_uint n).

(** [str(z)], the [{z}] of an f-string. *)
Definition str_of_int (z : Z) : string :=
  if z <? 0 then "-" +:+ str_of_N (Z.to_N (- z)) else str_of_N (Z.to_N z).

Fixpoint zeros (n : nat) : string :=
  match n with
  | O => ""
  | S n' => String "0" (zeros n')
  end.

(** Left zero padding up to [width] characters. *)
Definition zfill (width : nat) (s : string) : string :=
  zeros (width - String.length s) +:+ s.

(** [f"{z:04d}"]: sign-aware zero padding to a minimum width of 4; the
    sign, when there is one, counts towards the width. *)
Definition format_04d (z : Z) : string :=
  if z <? 0 then "-" +:+ zfill 3 (str_of_N (Z.to_N (- z)))
  else zfill 4 (str_of_N (Z.to_N z)).

Definition is_digit (c : ascii) : bool :=
  match Ascii.is_nat c with Some _ => true | None => false end.

Fixpoint all_digits (s : string) : bool :=
  match s with
  | "" => true
  | String c s' => is_digit c && all_digits s'
  end.

(** [str.lower] on ASCII text: file names are taken to be ASCII, on which
    Python's Unicode lower-casing is this map. *)
Definition lower_ascii (c : ascii) : ascii :=
  let n := N_of_ascii c in
  if ((65 <=? n) && (n <=? 90))%N then ascii_of_N (n + 32) else c.

Fixpoint lower (s : string) : string :=
  match s with
  | "" => ""
  | String c s' => String (lower_ascii c) (lower s')
  end.



(** [name.rfind('.')]: position of the last dot, if any. *)
Fixpoint rfind_dot (s : string) : option nat :=
  match s with
  | "" => None
  | String c s' =>
      match rfind_dot s' with
      | Some i => Some (S i)
      | None => if decide (c = "."%char) then Some O else None
      end
  end.

Fixpoint drop_str (n : nat) (s : string) : string :=
  match n, s with
  | O, _ => s
  | S n', String _ s' => drop_str n' s'
  | S _, "" => ""
  end.

(** [PurePath.suffix] of a final path component, as [pathlib] computes
    it: [i = name.rfind('.')]; [name[i:]] when [0 < i < len(name) - 1],
    else the empty string (so [.gitignore] and [notes.] have none). *)
Definition suffix_of (name : string) : string :=
  match rfind_dot name with
  | Some i =>
      if decide (0 < i ∧ S i < String.length name)%nat
      then drop_str i name else ""
  | None => ""
  end.

(** [fnmatch(name, "*.txt")]: the name ends with [.txt]. *)
Definition ends_with (suf s : string) : bool :=
  let n := String.length s in
  let k := String.length suf in
  bool_decide (k ≤ n)%nat && bool_decide (drop_str (n - k) s = suf).

End Text.

(* ===================================================================== *)
(** * Fs: file-system states and the primitives the script calls *)
(* ===================================================================== *)

Module Fs.

(** An absolute, resolved path is the list of its components; the root
    directory is the empty list. *)
Abbreviation path := (list string).

(** What [shutil.copystat] transfers. *)
Record meta := Meta { st_mtime : Z; st_mode : Z }.

Inductive node :=
| Dir
| File (data : string) (st : meta).

Global Instance meta_eq_dec : EqDecision meta.
Proof. solve_decision. Defined.

Global Instance node_eq_dec : EqDecision node.
Proof. solve_decision. Defined.

(** A file-system state maps every existing path to its node.  Symbolic
    links and special files are not modelled, and the file system never
    runs out of space. *)
Abbreviation fs :=
  (@gmap (list string) (@list_eq_dec string String.eq_dec)
     (@list_countable string String.eq_dec String.countable) node).

(** Every entry lives in a directory. *)
Definition wf (s : fs) : Prop :=
  ∀ p n x, s !! (p ++ [n]) = Some x → s !! p = Some Dir.

Inductive exn :=
| SystemExit (msg : string)
| FileNotFoundError (p : path)
| NotADirectoryError (p : path)
| IsADirectoryError (p : path)
| FileExistsError (p : path)
| SameFileError (p : path)
| ValueError
| IndexError
| PdfReadError.

(** Result of running a piece of the script from a state: normal
    completion, an uncaught exception, or fuel exhaustion of a [while]
    loop.  The first two carry the state reached and the lines printed. *)
Inductive outcome (A : Type) :=
| Done (a : A) (s : fs) (out : list string)
| Raised (e : exn) (s : fs) (out : list string)
| OutOfFuel.
Global Arguments Done {A} a s out.
Global Arguments Raised {A} e s out.
Global Arguments OutOfFuel {A}.

Definition M (A : Type) : Type := fs → outcome A.

Definition ret {A} (a : A) : M A := λ s, Done a s [].

Definition bind {A B} (m : M A) (k : A → M B) : M B := λ s,
  match m s with
  | Done a s1 o1 =>
      match k a s1 with
      | Done b s2 o2 => Done b s2 (o1 ++ o2)
      | Raised e s2 o2 => Raised e s2 (o1 ++ o2)
      | OutOfFuel => OutOfFuel
      end
  | Raised e s1 o1 => Raised e s1 o1
  | OutOfFuel => OutOfFuel
  end.

Definition raise {A} (e : exn) : M A := λ s, Raised e s [].

Definition gets {A} (f : fs → A) : M A := λ s, Done (f s) s [].

Definition modify (f : fs → fs) : M unit := λ s, Done tt (f s) [].

Definition print (line : string) : M unit := λ s, Done tt s [line].

Declare Scope fs_scope.
Delimit Scope fs_scope with fs.
Notation "x <- m ;; k" := (bind m (λ x, k))
  (at level 100, m at next level, right associativity) : fs_scope.
Notation "m ;; k" := (bind m (λ _, k))
  (at level 100, right associativity) : fs_scope.
Local Open Scope fs_scope.

(** A [for] loop over an already materialised sequence, threading the
    local variables [acc] the body updates. *)
Fixpoint fold_each {A B} (l : list A) (acc : B) (body : A → B → M B) : M B :=
  match l with
  | [] => ret acc
  | x :: l' => acc' <- body x acc ;; fold_each l' acc' body
  end.

Definition for_each {A} (l : list A) (body : A → M unit) : M unit :=
  fold_each l tt (λ x _, body x).

(** ** Paths *)

Definition under (base q : path) : Prop := base `prefix_of` q.

Definition strictly_under (base q : path) : Prop :=
  base `prefix_of` q ∧ q ≠ base.

Global Instance under_dec base q : Decision (under base q).
Proof. unfold under. apply _. Defined.

Global Instance strictly_under_dec base q : Decision (strictly_under base q).
Proof. unfold strictly_under. apply _. Defined.

(** [q.relative_to(base)]; [None] stands for the [ValueError]. *)
Fixpoint relative_to (q base : path) {struct base} : option path :=
  match base, q with
  | [], _ => Some q
  | b :: base', x :: q' => if decide (b = x) then relative_to q' base' else None
  | _ :: _, [] => None
  end.

(** [p.parent] and [p.name]. *)
Definition parent (p : path) : path := removelast p.
Definition name (p : path) : string := List.last p "".

(** All prefixes of [p], shortest first: the directories that
    [mkdir(parents=True)] may have to create. *)
Fixpoint prefixes (p : path) : list path :=
  [] :: match p with
        | [] => []
        | x :: p' => (x ::.) <$> prefixes p'
        end.

Fixpoint path_str_go (p : path) : string :=
  match p with
  | [] => ""
  | n :: p' => "/" +:+ n +:+ path_str_go p'
  end.

(** [str(p)] of an absolute POSIX path. *)
Definition path_str (p : path) : string :=
  match p with
  | [] => "/"
  | _ => path_str_go p
  end.

(** ** [pathlib] queries *)

Definition is_dir (s : fs) (p : path) : bool :=
  match s !! p with Some Dir => true | _ => false end.

Definition is_file (s : fs) (p : path) : bool :=
  match s !! p with Some (File _ _) => true | _ => false end.

Definition exists_ (s : fs) (p : path) : bool :=
  match s !! p with Some _ => true | None => false end.

(** The existing paths, in the order the directory scans of this model
    report them.  Nothing proved below depends on that order: the loops
    are analysed through the membership of their items only. *)
Definition keys (s : fs) : list path := (map_to_list s).*1.

(** [p.rglob("*")]: every entry, file or directory, strictly below the
    directory [p]; nothing when [p] is missing or not a directory. *)
Definition rglob_all (s : fs) (p : path) : list path :=
  if is_dir s p then filter (strictly_under p) (keys s) else [].

(** [p.rglob(pattern)] for a pattern [*suf]: the entries, of any kind,
    whose name ends with [suf]. *)
Definition rglob_ending (s : fs) (p : path) (suf : string) : list path :=
  filter (λ q, Text.ends_with suf (name q) = true) (rglob_all s p).

(** Names of the non-directory entries directly inside [d]. *)
Definition file_names (s : fs) (d : path) : list string :=
  omap (λ q, match relative_to q d with
             | Some [n] => if is_file s q then Some n else None
             | _ => None
             end) (keys s).

(** [os.walk(src)], keeping [(root, files)] of each triple: one entry per
    directory at or below [src]; nothing when [src] is not a directory
    (the scan error is swallowed). *)
Definition walk (s : fs) (src : path) : list (path * list string) :=
  if is_dir s src
  then (λ d, (d, file_names s d))
         <$> filter (λ q, under src q ∧ is_dir s q = true) (keys s)
  else [].

(** ** Mutating primitives *)

Definition first_file_prefix (s : fs) (p : path) : option path :=
  list_find (λ q, is_file s q = true) (prefixes p) ≫= λ r, Some r.2.

Definition dir_chain (p : path) : fs :=
  gset_to_gmap Dir (list_to_set (C := gset path) (prefixes p)).

(** [p.mkdir(parents=True, exist_ok=True)]: creates [p] and every missing
    ancestor; fails, changing nothing, when [p] or an ancestor is a
    regular file. *)
Definition ensure_dir (p : path) : M unit := λ s,
  match first_file_prefix s p with
  | Some q =>
      if decide (q = p) then Raised (FileExistsError p) s []
      else Raised (NotADirectoryError p) s []
  | None => Done tt (s ∪ dir_chain p) []
  end.

(** [shutil.rmtree(p)]. *)
Definition rmtree (p : path) : M unit := λ s,
  match s !! p with
  | Some Dir => Done tt (filter (λ kv, ¬ under p kv.1) s) []
  | Some (File _ _) => Raised (NotADirectoryError p) s []
  | None => Raised (FileNotFoundError p) s []
  end.

Definition reset_dir (p : path) : M unit :=
  ex <- gets (λ s, exists_ s p) ;;
  (if ex : bool then rmtree p else ret tt) ;;
  ensure_dir p.

(** [shutil.copy2(src, dst)]: content and metadata of the regular file
    [src] are written to [dst], or to [dst/src.name] when [dst] is a
    directory. *)
Definition copy2 (src dst : path) : M unit := λ s,
  match s !! src with
  | None => Raised (FileNotFoundError src) s []
  | Some Dir => Raised (IsADirectoryError src) s []
  | Some (File c m) =>
      let target := if is_dir s dst then dst ++ [name src] else dst in
      if decide (target = src) then Raised (SameFileError src) s []
      else match s !! target with
           | Some Dir => Raised (IsADirectoryError target) s []
           | _ =>
               match s !! parent target with
               | Some Dir => Done tt (<[target := File c m]> s) []
               | Some (File _ _) => Raised (NotADirectoryError target) s []
               | None => Raised (FileNotFoundError target) s []
               end
           end
  end.

(** [p.stat().st_size]: the length of a regular file.  The size of a
    directory is file-system specific and given as 0; the script only
    asks for the size of the regular file it has just written. *)
Definition stat_size (p : path) : M Z := λ s,
  match s !! p with
  | Some (File c _) => Done (Z.of_nat (String.length c)) s []
  | Some Dir => Done 0 s []
  | None => Raised (FileNotFoundError p) s []
  end.

(** [p.open("w")]: creates or truncates the regular file [p]; a new file
    gets the creation mode, a truncated one keeps its mode. *)
Definition open_w (now mode : Z) (p : path) : M unit := λ s,
  match s !! p with
  | Some Dir => Raised (IsADirectoryError p) s []
  | Some (File _ m) => Done tt (<[p := File "" (Meta now (st_mode m))]> s) []
  | None =>
      match s !! parent p with
      | Some Dir => Done tt (<[p := File "" (Meta now mode)]> s) []
      | Some (File _ _) => Raised (NotADirectoryError p) s []
      | None => Raised (FileNotFoundError p) s []
      end
  end.

(** [f.write(data)] on the handle opened at [p]: the text is appended
    (newlines are written as they are, as on POSIX). *)
Definition f_write (now : Z) (p : path) (data : string) : M unit := λ s,
  match s !! p with
  | Some (File c m) =>
      Done tt (<[p := File (c +:+ data) (Meta now (st_mode m))]> s) []
  | _ => Raised ValueError s []
  end.

(** [range(a, b)]. *)
Definition py_range (a b : Z) : list Z :=
  (λ i, a + Z.of_nat i) <$> seq 0 (Z.to_nat (b - a)).

(** [l[i]] with Python's negative indices; [None] is the [IndexError]. *)
Definition py_index {A} (l : list A) (i : Z) : option A :=
  if 0 <=? i then l !! Z.to_nat i
  else if - Z.of_nat (length l) <=? i then l !! Z.to_nat (Z.of_nat (length l) + i)
  else None.

End Fs.

(* ===================================================================== *)
(** * Build: the functions of the script *)
(* ===================================================================== *)

Module Build.
Import Fs.
Local Open Scope fs_scope.

(** A page of a PDF as the script sees it: what [extract_text()] returns,
    [None] standing for a result that is [None] or empty. *)
Record page := Page { extract_text : option string }.

(** What the script takes from its surroundings: whether [pypdf] can be
    imported and, if so, what [PdfReader] makes of a file's bytes ([None]:
    the reader rejects them); the clock and the mode given to files the
    script creates. *)
Record env := Env {
  pypdf : option (string → option (list page));
  now : Z;
  create_mode : Z
}.

Definition say (msg : string) : M unit := print ("[kb] " +:+ msg).

(** The directory walk is taken when the loop starts.  Python's
    generator scans lazily, which makes a difference only when the
    destination lies inside the source; the script never does that and
    the theorems exclude it. *)
Definition copy_tree (src dst : path) : M unit :=
  entries <- gets (λ s, walk s src) ;;
  for_each entries (λ '(root_path, files),
    match relative_to root_path src with
    | None => raise ValueError
    | Some rel =>
        let out_dir := dst ++ rel in
        ensure_dir out_dir ;;
        for_each files (λ name,
          let in_path := root_path ++ [name] in
          let out_path := out_dir ++ [name] in
          copy2 in_path out_path)
    end).

(** Only the extension of the file is lower-cased before the membership
    test; the entries of [suffixes] are compared as they are.  The glob is
    taken when the loop starts, as in [copy_tree]. *)
Definition copy_matching_files (src_root dst_root : path)
    (suffixes : list string) : M nat :=
  paths <- gets (λ s, rglob_all s src_root) ;;
  fold_each paths 0%nat (λ path count,
    isf <- gets (λ s, is_file s path) ;;
    if negb isf then ret count
    else if negb (bool_decide (Text.lower (Text.suffix_of (name path)) ∈ suffixes))
    then ret count
    else
      match relative_to path src_root with
      | None => raise ValueError
      | Some rel =>
          let out_path := dst_root ++ rel in
          ensure_dir (parent out_path) ;;
          copy2 path out_path ;;
          ret (S count)
      end).

Inductive language := Python | Javascript | Swift | Cpp.

Global Instance language_eq_dec : EqDecision language.
Proof. solve_decision. Defined.

Definition lang_name (l : language) : string :=
  match l with
  | Python => "python"
  | Javascript => "javascript"
  | Swift => "swift"
  | Cpp => "cpp"
  end.

Definition lang_dir (root : path) (l : language) : path :=
  root ++ ["languages"; lang_name l].

Definition raw_rel (l : language) : path :=
  match l with
  | Python => ["raw"; "python-docs-text"]
  | Javascript => ["raw"; "ecma262"; "ecma262.txt"]
  | Swift => ["raw"; "swift-book"]
  | Cpp => ["downloads"; "cpp-draft.pdf"]
  end.

Definition out_rel (l : language) : path :=
  match l with
  | Python => ["docs"; "python-docs-text"]
  | Javascript => ["docs"; "ecma-262"]
  | Swift => ["docs"; "swift-book-repo"]
  | Cpp => ["docs"; "cpp-working-draft-pdf"]
  end.

(** The raw input whose existence each build checks. *)
Definition raw_path (root : path) (l : language) : path :=
  lang_dir root l ++ raw_rel l.

(** The output directory each build resets and fills. *)
Definition out_path (root : path) (l : language) : path :=
  lang_dir root l ++ out_rel l.

Definition build_python (root : path) : M unit :=
  let raw := raw_path root Python in
  let out := out_path root Python in
  ex <- gets (λ s, exists_ s raw) ;;
  if negb ex
  then raise (SystemExit "Python raw docs not found. Run: ./rag-ml/kb/pull-docs.sh")
  else
    say "python: copy raw text archive -> docs/python-docs-text/" ;;
    reset_dir out ;;
    copy_tree raw out ;;
    n <- gets (λ s, length (rglob_ending s out ".txt")) ;;
    say ("python: files=" +:+ Text.str_of_int (Z.of_nat n)).

Definition build_javascript (root : path) : M unit :=
  let raw_txt := raw_path root Javascript in
  let out_dir := out_path root Javascript in
  ex <- gets (λ s, exists_ s raw_txt) ;;
  if negb ex
  then raise (SystemExit "JS raw ecma262.txt not found. Run: ./rag-ml/kb/pull-docs.sh")
  else
    say "javascript: copy ecma262.txt -> docs/ecma-262/" ;;
    reset_dir out_dir ;;
    copy2 raw_txt (out_dir ++ ["ecma262.txt"]) ;;
    n <- stat_size (out_dir ++ ["ecma262.txt"]) ;;
    say ("javascript: bytes=" +:+ Text.str_of_int n).

Definition build_swift (root : path) : M unit :=
  let raw := raw_path root Swift in
  let out := out_path root Swift in
  ex <- gets (λ s, exists_ s raw) ;;
  if negb ex
  then raise (SystemExit "Swift raw swift-book not found. Run: ./rag-ml/kb/pull-docs.sh")
  else
    say "swift: copy TSPL.docc markdown -> docs/swift-book-repo/" ;;
    reset_dir out ;;
    let src_docc := raw ++ ["TSPL.docc"] in
    copied <- copy_matching_files src_docc (out ++ ["TSPL.docc"]) [".md"] ;;
    lic <- gets (λ s, exists_ s (raw ++ ["LICENSE.txt"])) ;;
    (if lic : bool
     then copy2 (raw ++ ["LICENSE.txt"]) (out ++ ["LICENSE.txt"])
     else ret tt) ;;
    say ("swift: md_files=" +:+ Text.str_of_int (Z.of_nat copied)).

Definition nl : string := String "010"%char "".

Definition out_name (start_page_0 end_page_0 : Z) : string :=
  "cpp-draft.p" +:+ Text.format_04d (start_page_0 + 1) +:+ "-p"
    +:+ Text.format_04d (end_page_0 + 1) +:+ ".txt".

(** The marker written before each page: two newlines, the marker line,
    two newlines. *)
Definition page_marker (page_i : Z) : string :=
  nl +:+ nl +:+ "===== PAGE " +:+ Text.str_of_int (page_i + 1) +:+ " ====="
    +:+ nl +:+ nl.

(** The body of the [with] block: one marker and one text per page. *)
Definition write_pages (e : env) (pages : list page) (out_file : path)
    (start end_ : Z) : M unit :=
  for_each (py_range start (end_ + 1)) (λ page_i,
    match py_index pages page_i with
    | None => raise IndexError
    | Some page =>
        let text := default "" (extract_text page) in
        f_write (now e) out_file (page_marker page_i) ;;
        f_write (now e) out_file text
    end).

(** The [while start < total] loop; [fuel] bounds the number of
    iterations. *)
Fixpoint cpp_loop (e : env) (pages : list page) (out_dir : path)
    (pages_per_file : Z) (fuel : nat) (start : Z) : M unit :=
  let total := Z.of_nat (length pages) in
  if start <? total then
    match fuel with
    | O => λ _, OutOfFuel
    | S fuel' =>
        let end_ := Z.min (total - 1) (start + pages_per_file - 1) in
        let out_file := out_dir ++ [out_name start end_] in
        say ("cpp: write " +:+ name out_file) ;;
        open_w (now e) (create_mode e) out_file ;;
        write_pages e pages out_file start end_ ;;
        cpp_loop e pages out_dir pages_per_file fuel' (end_ + 1)
    end
  else ret tt.

(** [PdfReader(str(pdf_path))] followed by [reader.pages]. *)
Definition pdf_reader (parse : string → option (list page)) (pdf : path)
    : M (list page) := λ s,
  match s !! pdf with
  | Some (File c _) =>
      match parse c with
      | Some pages => Done pages s []
      | None => Raised PdfReadError s []
      end
  | Some Dir => Raised (IsADirectoryError pdf) s []
  | None => Raised (FileNotFoundError pdf) s []
  end.

Definition build_cpp (e : env) (root : path) (pages_per_file : Z)
    (fuel : nat) : M unit :=
  match pypdf e with
  | None =>
      raise (SystemExit
        "Missing dependency 'pypdf'. Install with: python3 -m pip install -r rag-ml/requirements.txt")
  | Some PdfReader =>
      let pdf_path := raw_path root Cpp in
      let out_dir := out_path root Cpp in
      ex <- gets (λ s, exists_ s pdf_path) ;;
      if negb ex
      then raise (SystemExit "C++ draft PDF not found. Run: ./rag-ml/kb/pull-docs.sh")
      else
        say "cpp: extract pdf -> docs/cpp-working-draft-pdf/ (split by pages)" ;;
        reset_dir out_dir ;;
        pages <- pdf_reader PdfReader pdf_path ;;
        let total := Z.of_nat (length pages) in
        say ("cpp: pages=" +:+ Text.str_of_int total +:+ ", pages_per_file="
               +:+ Text.str_of_int pages_per_file) ;;
        cpp_loop e pages out_dir pages_per_file fuel 0
  end.

(** One build per language, as [main] calls them. *)
Definition build (e : env) (root : path) (pages_per_file : Z) (fuel : nat)
    (l : language) : M unit :=
  match l with
  | Python => build_python root
  | Javascript => build_javascript root
  | Swift => build_swift root
  | Cpp => build_cpp e root pages_per_file fuel
  end.

(** The order in which [main] runs the builds. *)
Definition all_languages : list language := [Python; Javascript; Swift; Cpp].

(** What [main] prints about the root before the builds. *)
Definition root_warning (root : path) : list string :=
  if decide (name root ≠ "kb")
  then ["[kb] WARN: root looks unusual: " +:+ path_str root]
  else [].

(** [main] after argument parsing: [root] is the resolved [--root],
    [cpp_pages_per_file] the parsed [--cpp-pages-per-file]. *)
Definition main (e : env) (root : path) (cpp_pages_per_file : Z)
    (fuel : nat) : M unit :=
  (if decide (name root ≠ "kb")
   then say ("WARN: root looks unusual: " +:+ path_str root)
   else ret tt) ;;
  build_python root ;;
  build_javascript root ;;
  build_swift root ;;
  build_cpp e root cpp_pages_per_file fuel ;;
  say "done".

(** Process exit status: 0 on normal completion, 1 when an exception
    (including [SystemExit] with a message) reaches the top level. *)
Definition exit_status {A} (o : outcome A) : option Z :=
  match o with
  | Done _ _ _ => Some 0
  | Raised _ _ _ => Some 1
  | OutOfFuel => None
  end.

End Build.


(* ===================================================================== *)
(** * Vocabulary of the specification *)
(* ===================================================================== *)

Module Spec.
Import Fs Build.

(** The state a run stops in, when it stops. *)
Definition final {A} (o : outcome A) : option fs :=
  match o with
  | Done _ s _ | Raised _ s _ => Some s
  | OutOfFuel => None
  end.

(** [steps R m]: whenever [m] stops, normally or by an exception, the
    states before and after are related by [R]. *)
Definition steps {A : Type} (R : relation fs) (m : M A) : Prop :=
  ∀ s s', final (m s) = Some s' → R s s'.

(** The lines a run has printed when it stops. *)
Definition printed {A} (o : outcome A) : list string :=
  match o with
  | Done _ _ out | Raised _ _ out => out
  | OutOfFuel => []
  end.

(** [says P m]: every line [m] prints satisfies [P]. *)
Definition says {A : Type} (P : string → Prop) (m : M A) : Prop :=
  ∀ s, Forall P (printed (m s)).

(** A line printed through [say] on behalf of the build of [l]. *)
Definition tagged_by (l : language) (line : string) : Prop :=
  ∃ msg, line = "[kb] " +:+ lang_name l +:+ ": " +:+ msg.

(** The state [reset_dir p] produces when it succeeds. *)
Definition reset_state (p : path) (s : fs) : fs :=
  filter (λ kv : path * node, ¬ under p kv.1) s ∪ dir_chain p.

(** [reset_dir p] succeeds exactly when neither [p] nor an ancestor of
    [p] is a regular file. *)
Definition resettable (s : fs) (p : path) : Prop :=
  ∀ q, q `prefix_of` p → is_file s q = false.

(** [around out s s']: nothing changed except below [out] or on the
    chain of ancestors of [out]. *)
Definition around (out : path) : relation fs := λ s s',
  ∀ q, ¬ (q `prefix_of` out ∨ under out q) → s' !! q = s !! q.

(** [within out s s']: provided [out] and its ancestors exist, nothing
    changed except strictly below [out]. *)
Definition within (out : path) : relation fs := λ s s',
  (∀ q, q `prefix_of` out → is_Some (s !! q)) →
  ∀ q, ¬ strictly_under out q → s' !! q = s !! q.

(** [outside root ls s s']: nothing changed except in or above the output
    directories of the languages [ls]. *)
Definition outside (root : path) (ls : list language) : relation fs := λ s s',
  ∀ q, (∀ l, l ∈ ls → ¬ (q `prefix_of` out_path root l ∨ under (out_path root l) q)) →
       s' !! q = s !! q.

(** [keeps_wf s s']: if [s] is well formed, so is [s']. *)
Definition keeps_wf : relation fs := λ s s', wf s → wf s'.

(** [confined outs s s']: from a well-formed [s], the state [s'] is well
    formed and differs from [s] only strictly below the directories
    [outs], except that missing ancestors of one of [outs], and that
    directory itself, may have been created as directories. *)
Definition confined (outs : list path) : relation fs := λ s s',
  wf s →
  wf s'
  ∧ ∀ q, (∀ out, out ∈ outs → ¬ strictly_under out q) →
      s' !! q = s !! q
      ∨ (s !! q = None ∧ s' !! q = Some Dir ∧ ∃ out, out ∈ outs ∧ q `prefix_of` out).

(** Reading a decimal string back, leading zeros allowed. *)
Definition parse_N (s : string) : option N :=
  N.of_uint <$> NilEmpty.uint_of_string s.

(** Byte-wise lexicographic order on names: the order of a sorted
    directory listing. *)
Fixpoint str_ltb (x y : string) : bool :=
  match x, y with
  | _, "" => false
  | "", String _ _ => true
  | String a x', String b y' =>
      if (N_of_ascii a <? N_of_ascii b)%N then true
      else if (N_of_ascii a =? N_of_ascii b)%N then str_ltb x' y'
      else false
  end.

(** The four-digit page numbers [z] and [z + 1] are written with four
    characters each and in increasing order; [sorted_steps n z] checks
    this for [z], [z + 1], ..., [z + n - 1]. *)
Definition sorted_step (z : Z) : bool :=
  str_ltb (Text.format_04d z) (Text.format_04d (z + 1))
  && (String.length (Text.format_04d z) =? 4)%nat
  && (String.length (Text.format_04d (z + 1)) =? 4)%nat.

Fixpoint sorted_steps (n : nat) (z : Z) : bool :=
  match n with
  | O => true
  | S n' => sorted_step z && sorted_steps n' (z + 1)
  end.

(** [ceil(T / k)] for a positive [k]. *)
Definition ceil_div (T k : Z) : Z := (T + k - 1) / k.

(** The text extracted from page [i] (0-based), empty when extraction
    yields nothing. *)
Definition page_text (pages : list page) (i : Z) : string :=
  match py_index pages i with
  | Some pg => default "" (extract_text pg)
  | None => ""
  end.

(** Marker and text of each page of [idx], in the order of [idx]. *)
Definition render_pages (pages : list page) (idx : list Z) : string :=
  foldr (λ i acc, page_marker i +:+ page_text pages i +:+ acc) "" idx.

(** The [i]-th batch (0-based) of [total] pages cut every [k] pages, as
    an inclusive 0-based page interval. *)
Definition batch (total k : Z) (start : Z) (i : nat) : Z * Z :=
  (start + Z.of_nat i * k, Z.min (total - 1) (start + Z.of_nat i * k + k - 1)).

(** The batches that remain from page [start] on. *)
Definition batches_from (total k start : Z) : list (Z * Z) :=
  batch total k start <$> seq 0 (Z.to_nat (ceil_div (total - start) k)).

Definition batches (total k : Z) : list (Z * Z) := batches_from total k 0.

(** The file paginate-pdf writes for a batch, and its path. *)
Definition batch_path (out_dir : path) (b : Z * Z) : path :=
  out_dir ++ [out_name b.1 b.2].

Definition batch_file (e : env) (pages : list page) (b : Z * Z) : node :=
  File (render_pages pages (py_range b.1 (b.2 + 1)))
       (Meta (now e) (create_mode e)).

Definition write_batches (e : env) (pages : list page) (out_dir : path)
    (bs : list (Z * Z)) (s : fs) : fs :=
  foldl (λ s b, <[batch_path out_dir b := batch_file e pages b]> s) s bs.

Definition batch_log (out_dir : path) (bs : list (Z * Z)) : list string :=
  (λ b, "[kb] cpp: write " +:+ out_name b.1 b.2) <$> bs.

(** What paginate-pdf prints before its loop. *)
Definition cpp_header (total k : Z) : list string :=
  ["[kb] cpp: extract pdf -> docs/cpp-working-draft-pdf/ (split by pages)";
   "[kb] cpp: pages=" +:+ Text.str_of_int total +:+ ", pages_per_file="
     +:+ Text.str_of_int k].

(** The situation in which paginate-pdf gets to work: the state is well
    formed, the output directory can be reset, [pypdf] is importable and
    reads the draft as the page list [pages]. *)
Definition cpp_input (e : env) (root : path) (s : fs) (pages : list page)
    : Prop :=
  wf s ∧ resettable s (out_path root Cpp)
  ∧ ∃ reader c m, pypdf e = Some reader
      ∧ s !! raw_path root Cpp = Some (File c m)
      ∧ reader c = Some pages.

(** [bs] cuts the 1-based pages [1..total] into consecutive ranges of
    [k] pages, the last one possibly shorter; a batch [(a, b)] is the
    0-based interval, that is pages [a+1..b+1]. *)
Definition page_partition (k total : Z) (bs : list (Z * Z)) : Prop :=
  (∀ i a b, bs !! i = Some (a, b) → a ≤ b ∧ b - a + 1 ≤ k)
  ∧ (∀ i a b, bs !! i = Some (a, b) → (S i < length bs)%nat → b - a + 1 = k)
  ∧ (∀ i a b a' b', bs !! i = Some (a, b) → bs !! S i = Some (a', b') → a' = b + 1)
  ∧ (∀ i j a b a' b', (i < j)%nat →
       bs !! i = Some (a, b) → bs !! j = Some (a', b') → b < a')
  ∧ (∀ p, 1 ≤ p ≤ total ↔ ∃ a b, (a, b) ∈ bs ∧ a + 1 ≤ p ≤ b + 1).

(** The [start] of the next iteration of the batching loop. *)
Definition next_start (total k start : Z) : Z :=
  Z.min (total - 1) (start + k - 1) + 1.

(** The message of a missing-prerequisite error names the fetch step. *)
Definition fetch_hint : string := "Run: ./rag-ml/kb/pull-docs.sh".

(** The progress line and the missing-prerequisite message of each
    build. *)
Definition hello (l : language) : string :=
  match l with
  | Python => "python: copy raw text archive -> docs/python-docs-text/"
  | Javascript => "javascript: copy ecma262.txt -> docs/ecma-262/"
  | Swift => "swift: copy TSPL.docc markdown -> docs/swift-book-repo/"
  | Cpp => "cpp: extract pdf -> docs/cpp-working-draft-pdf/ (split by pages)"
  end.

Definition missing_msg (l : language) : string :=
  match l with
  | Python => "Python raw docs not found. Run: ./rag-ml/kb/pull-docs.sh"
  | Javascript => "JS raw ecma262.txt not found. Run: ./rag-ml/kb/pull-docs.sh"
  | Swift => "Swift raw swift-book not found. Run: ./rag-ml/kb/pull-docs.sh"
  | Cpp => "C++ draft PDF not found. Run: ./rag-ml/kb/pull-docs.sh"
  end.

Definition missing_dependency_msg : string :=
  "Missing dependency 'pypdf'. Install with: python3 -m pip install -r rag-ml/requirements.txt".

(** What a build does once its output directory has been reset. *)
Definition populate (e : env) (root : path) (k : Z) (fuel : nat)
    (l : language) : M unit :=
  match l with
  | Python =>
      bind (copy_tree (raw_path root Python) (out_path root Python)) (λ _,
      bind (gets (λ s, length (rglob_ending s (out_path root Python) ".txt"))) (λ n,
      say ("python: files=" +:+ Text.str_of_int (Z.of_nat n))))
  | Javascript =>
      bind (copy2 (raw_path root Javascript)
              (out_path root Javascript ++ ["ecma262.txt"])) (λ _,
      bind (stat_size (out_path root Javascript ++ ["ecma262.txt"])) (λ n,
      say ("javascript: bytes=" +:+ Text.str_of_int n)))
  | Swift =>
      bind (copy_matching_files (raw_path root Swift ++ ["TSPL.docc"])
              (out_path root Swift ++ ["TSPL.docc"]) [".md"]) (λ copied,
      bind (gets (λ s, exists_ s (raw_path root Swift ++ ["LICENSE.txt"]))) (λ lic,
      bind (if lic : bool
            then copy2 (raw_path root Swift ++ ["LICENSE.txt"])
                   (out_path root Swift ++ ["LICENSE.txt"])
            else ret tt) (λ _,
      say ("swift: md_files=" +:+ Text.str_of_int (Z.of_nat copied)))))
  | Cpp =>
      match pypdf e with
      | Some PdfReader =>
          bind (pdf_reader PdfReader (raw_path root Cpp)) (λ pages,
          bind (say ("cpp: pages=" +:+ Text.str_of_int (Z.of_nat (length pages))
                       +:+ ", pages_per_file=" +:+ Text.str_of_int k)) (λ _,
          cpp_loop e pages (out_path root Cpp) k fuel 0))
      | None => ret tt
      end
  end.

(** The failure the specification promises for a missing raw input: a
    [SystemExit] whose message names the fetch step, raised before
    anything is printed or changed. *)
Definition missing_prerequisite_failure (e : env) (root : path) (k : Z)
    (fuel : nat) (l : language) (s : fs) : Prop :=
  ∃ msg, build e root k fuel l s = Raised (SystemExit msg) s []
         ∧ Text.ends_with fetch_hint msg = true.

(** A path that copy-filtered selects: a regular file whose lower-cased
    extension is one of [suffixes]. *)
Definition matching (s : fs) (suffixes : list string) (p : path) : Prop :=
  is_file s p = true ∧ Text.lower (Text.suffix_of (name p)) ∈ suffixes.

Global Instance matching_dec s suffixes p : Decision (matching s suffixes p).
Proof. unfold matching. apply _. Defined.



(** The invariant of the copy loops: the state [cur] differs from the
    initial state [s] only below [dst], and what it holds below [dst] is
    a copy of what [s] holds at the same place below [src]. *)
Definition mirror (s : fs) (src dst : path) (cur : fs) : Prop :=
  (∀ q, ¬ under dst q → cur !! q = s !! q)
  ∧ (∀ rel x, cur !! (dst ++ rel) = Some x → s !! (src ++ rel) = Some x).

(** [preserves I s s']: if [I] holds of [s], it holds of [s']. *)
Definition preserves (I : fs → Prop) : relation fs := λ s s', I s → I s'.

(** The invariant of the filtered copy about directories: [cur] differs
    from the initial state [s] only below [dst], and a directory of [cur]
    below [dst] that [s] did not have lies above the place of a selected
    file. *)
Definition dirs_justified (s : fs) (src dst : path) (suffixes : list string)
    (cur : fs) : Prop :=
  (∀ q, ¬ under dst q → cur !! q = s !! q)
  ∧ ∀ rel, cur !! (dst ++ rel) = Some Dir →
      s !! (dst ++ rel) = Some Dir
      ∨ ∃ rel', rel' ≠ [] ∧ matching s suffixes (src ++ rel ++ rel').

(** Contents without metadata: [None] for a directory, the bytes for a
    regular file. *)
Definition content_of (x : node) : option string :=
  match x with
  | Dir => None
  | File c _ => Some c
  end.

Definition contents (s : fs) : gmap path (option string) := content_of <$> s.

(** The contents of the directory [d]: what lives at or below [d]. *)
Definition dir_contents (s : fs) (d : path) : gmap path (option string) :=
  filter (λ kv : path * option string, under d kv.1) (contents s).

(** Two runs from states with the same contents end alike: same result,
    same output, same contents. *)
Definition sim_outcome {A : Type} (o1 o2 : outcome A) : Prop :=
  match o1, o2 with
  | Done a s1 out1, Done b s2 out2 =>
      a = b ∧ contents s1 = contents s2 ∧ out1 = out2
  | Raised e s1 out1, Raised e' s2 out2 =>
      e = e' ∧ contents s1 = contents s2 ∧ out1 = out2
  | OutOfFuel, OutOfFuel => True
  | _, _ => False
  end.

Definition sim {A : Type} (m1 m2 : M A) : Prop :=
  ∀ s1 s2, contents s1 = contents s2 → sim_outcome (m1 s1) (m2 s2).

(** What the swift build leaves in its output directory, in terms of the
    raw input [s]: the license as it is in [s]; below [TSPL.docc] the
    regular files of the raw [TSPL.docc] whose lower-cased extension is
    [.md], at the same relative paths, and the directories that lead to
    them; nothing else. *)
Definition swift_output (root : path) (s s' : fs) : Prop :=
  let raw := raw_path root Swift in
  let out := out_path root Swift in
  let docc := raw ++ ["TSPL.docc"] in
  let dst := out ++ ["TSPL.docc"] in
  s' !! out = Some Dir
  ∧ s' !! (out ++ ["LICENSE.txt"]) = s !! (raw ++ ["LICENSE.txt"])
  ∧ (∀ rel c m,
       s' !! (dst ++ rel) = Some (File c m) ↔
       s !! (docc ++ rel) = Some (File c m)
       ∧ Text.lower (Text.suffix_of (name (docc ++ rel))) = ".md")
  ∧ (∀ rel,
       s' !! (dst ++ rel) = Some Dir ↔
       ∃ rel' c m, rel' ≠ []
         ∧ s !! (docc ++ rel ++ rel') = Some (File c m)
         ∧ Text.lower (Text.suffix_of (name (docc ++ rel ++ rel'))) = ".md")
  ∧ (∀ q, strictly_under out q → ¬ under dst q → q ≠ out ++ ["LICENSE.txt"] →
          s' !! q = None).

(** The raw input of a language is in the shape its build expects: a
    directory for python, a regular file for javascript, for swift an
    existing path whose [LICENSE.txt] is not a directory, and for cpp a
    draft that the installed [pypdf] reads, with a positive batch size
    and fuel for the batching loop. *)
Definition ready (e : env) (root : path) (k : Z) (fuel : nat)
    (l : language) (s : fs) : Prop :=
  match l with
  | Python => s !! raw_path root Python = Some Dir
  | Javascript => is_file s (raw_path root Javascript) = true
  | Swift =>
      exists_ s (raw_path root Swift) = true
      ∧ is_dir s (raw_path root Swift ++ ["LICENSE.txt"]) = false
  | Cpp =>
      ∃ reader c m pages,
        pypdf e = Some reader
        ∧ s !! raw_path root Cpp = Some (File c m)
        ∧ reader c = Some pages
        ∧ 1 ≤ k
        ∧ (Z.to_nat (ceil_div (Z.of_nat (length pages)) k) ≤ fuel)%nat
  end.

End Spec.

(* ===================================================================== *)
(** * A small knowledge base to run the script on *)
(* ===================================================================== *)

Module Demo.
Import Fs Build Spec.

Definition root : path := ["kb"].

Definition stamp : meta := Meta 1700000000 420.

Definition dirs (l : list path) : fs := list_to_map ((λ p, (p, Dir)) <$> l).

Definition pages : list page := [Page (Some "one"); Page None; Page (Some "three")].

Definition pdf_bytes : string := "%PDF-1.7".

(** [pypdf] is installed and reads the draft as three pages, the second
    of which yields no text. *)
Definition env_ok : env :=
  Env (Some (λ c, if decide (c = pdf_bytes) then Some pages else None))
      1800000000 420.

(** Same installation, later clock. *)
Definition env_later : env :=
  Env (Some (λ c, if decide (c = pdf_bytes) then Some pages else None))
      1900000000 384.

(** [pypdf] is not installed. *)
Definition env_no_pypdf : env := Env None 1800000000 420.

(** All four raw inputs are present; the cpp output directory holds a
    stale file from an earlier run. *)
Definition kb : fs :=
  <[ (raw_path root Python ++ ["a.txt"]) := File "alpha" stamp ]>
  (<[ (raw_path root Python ++ ["sub"; "b.txt"]) := File "beta" (Meta 7 384) ]>
  (<[ raw_path root Javascript := File "ecma" stamp ]>
  (<[ (raw_path root Swift ++ ["LICENSE.txt"]) := File "license" stamp ]>
  (<[ (raw_path root Swift ++ ["TSPL.docc"; "ch"; "Guide.MD"]) := File "# guide" stamp ]>
  (<[ (raw_path root Swift ++ ["TSPL.docc"; "ch"; "pic.png"]) := File "png" stamp ]>
  (<[ raw_path root Cpp := File pdf_bytes stamp ]>
  (<[ (out_path root Cpp ++ ["stale.txt"]) := File "old" stamp ]>
  (dirs (prefixes (raw_path root Python ++ ["sub"])
         ++ prefixes (raw_path root Python ++ ["empty"])
         ++ prefixes (lang_dir root Javascript ++ ["raw"; "ecma262"])
         ++ prefixes (raw_path root Swift ++ ["TSPL.docc"; "ch"])
         ++ prefixes (lang_dir root Cpp ++ ["downloads"])
         ++ prefixes (out_path root Cpp)))))))))).

(** The javascript raw input is missing, everything else as in [kb]. *)
Definition kb_no_js : fs := delete (raw_path root Javascript) kb.

(** The C++ draft is missing, everything else as in [kb]. *)
Definition kb_no_pdf : fs := delete (raw_path root Cpp) kb.

(** [pypdf] reads any file as a draft without pages. *)
Definition env_blank : env := Env (Some (λ _, Some [])) 1800000000 420.

(** The states and outputs of some runs from [kb]. *)
Definition kb_cpp : outcome unit := build env_ok root 2 10 Cpp kb.
Definition kb_no_js_python : outcome unit := build_python root kb_no_js.
Definition kb_all : outcome unit :=
  for_each all_languages (build env_ok root 2 10) kb.

(** A source tree with one upper-case markdown file, and nothing where
    the copy goes. *)
Definition md_src : path := ["src"].
Definition md_dst : path := ["dst"].
Definition md_fs : fs :=
  <[ (md_src ++ ["README.MD"]) := File "# readme" stamp ]>
  (<[ (md_src ++ ["notes.txt"]) := File "notes" stamp ]>
  (dirs (prefixes md_src))).

(** The state a run stops in, whatever the way it stops. *)
Definition state_of {A : Type} (o : outcome A) : fs :=
  match o with
  | Done _ s _ | Raised _ s _ => s
  | OutOfFuel => ∅
  end.

Definition output_of {A : Type} (o : outcome A) : list string :=
  match o with
  | Done _ _ out | Raised _ _ out => out
  | OutOfFuel => []
  end.

(** The whole script on [kb]. *)
Definition kb_main : outcome unit := main env_ok root 2 10 kb.

(** A directory stands where [ecma262.txt] should be. *)
Definition kb_js_dir : fs := <[ raw_path root Javascript := Dir ]> kb.

(** The python archive also has a directory whose name ends with
    [.txt]. *)
Definition kb_txt_dir : fs := <[ (raw_path root Python ++ ["old.txt"]) := Dir ]> kb.

(** A regular file stands where the python archive should be. *)
Definition kb_py_file : fs :=
  <[ raw_path root Python := File "not a directory" stamp ]>
  (dirs (prefixes (lang_dir root Python ++ ["raw"]))).

(** The draft is not a PDF. *)
Definition kb_bad_pdf : fs := <[ raw_path root Cpp := File "<html>" stamp ]> kb.

(** A regular file stands where the javascript output directory should
    be. *)
Definition kb_out_file : fs :=
  <[ out_path root Javascript := File "in the way" stamp ]>
  (<[ (lang_dir root Javascript ++ ["docs"]) := Dir ]> kb).

(** A source tree in which one directory holds a markdown file and
    another holds none. *)
Definition tree_src : path := ["book"].
Definition tree_dst : path := ["site"].
Definition tree_fs : fs :=
  <[ (tree_src ++ ["guide"; "Intro.md"]) := File "# intro" stamp ]>
  (<[ (tree_src ++ ["img"; "logo.png"]) := File "png" stamp ]>
  (dirs (prefixes (tree_src ++ ["guide"]) ++ prefixes (tree_src ++ ["img"])))).

(** The swift book has been fetched without its [TSPL.docc]; the output
    directory holds a chapter of an earlier run. *)
Definition kb_no_docc : fs :=
  <[ (raw_path root Swift ++ ["LICENSE.txt"]) := File "license" stamp ]>
  (<[ (out_path root Swift ++ ["TSPL.docc"; "Old.md"]) := File "# old" stamp ]>
  (dirs (prefixes (raw_path root Swift)
         ++ prefixes (out_path root Swift ++ ["TSPL.docc"])))).

End Demo.
(* ===================================================================== *)
(** * Facts about paths *)
(* ===================================================================== *)

Module PathFacts.
Import Fs.

Lemma relative_to_Some (q base r : path) :
  relative_to q base = Some r ↔ q = base ++ r.
Proof.
  revert q. induction base as [|b base IH]; intros q; simpl.
  - split; [by intros [= ->] | by intros ->].
  - destruct q as [|x q].
    + split; [done | intros [=]].
    + case_decide as Hbx.
      * subst x. rewrite IH. split; [by intros -> | by intros [= ->]].
      * split; [done | intros [= ? _]; congruence].
Qed.

Lemma relative_to_app (base r : path) : relative_to (base ++ r) base = Some r.
Proof. by apply relative_to_Some. Qed.

Lemma relative_to_None (q base : path) :
  relative_to q base = None ↔ ¬ under base q.
Proof.
  split.
  - intros Hn [r ->]. by rewrite relative_to_app in Hn.
  - intros Hn. destruct (relative_to q base) as [r|] eqn:E; [|done].
    apply relative_to_Some in E. destruct Hn. by exists r.
Qed.

Lemma parent_snoc (p : path) (n : string) : parent (p ++ [n]) = p.
Proof. apply removelast_last. Qed.

Lemma name_snoc (p : path) (n : string) : name (p ++ [n]) = n.
Proof. apply last_last. Qed.

Lemma parent_app (p r : path) : r ≠ [] → parent (p ++ r) = p ++ parent r.
Proof. intros. by apply removelast_app. Qed.

Lemma name_app (p r : path) : r ≠ [] → name (p ++ r) = name r.
Proof.
  intros Hr. destruct (exists_last Hr) as (r' & n & ->).
  by rewrite app_assoc, !name_snoc.
Qed.

Lemma path_snoc_cases (p : path) : p = [] ∨ ∃ p' n, p = p' ++ [n].
Proof.
  destruct p as [|x p] using rev_ind; [by left | right; eauto].
Qed.

Lemma elem_of_prefixes (q p : path) : q ∈ prefixes p ↔ q `prefix_of` p.
Proof.
  revert q. induction p as [|x p IH]; intros q; simpl.
  - rewrite list_elem_of_singleton. split.
    + intros ->. done.
    + intros H. by apply prefix_nil_inv in H.
  - rewrite elem_of_cons, list_elem_of_fmap. split.
    + intros [-> | (q' & -> & Hq')]; [apply prefix_nil|].
      apply prefix_cons. by apply IH.
    + destruct q as [|y q]; [by left|]. intros H. right.
      pose proof (prefix_cons_inv_1 _ _ _ _ H) as ->.
      apply prefix_cons_inv_2 in H. exists q. split; [done | by apply IH].
Qed.

Lemma strictly_under_app (base q : path) :
  strictly_under base q ↔ ∃ r, r ≠ [] ∧ q = base ++ r.
Proof.
  split.
  - intros [[r ->] Hne]. exists r. split; [|done].
    intros ->. by rewrite app_nil_r in Hne.
  - intros (r & Hr & ->). split; [by exists r|].
    intros H. apply Hr. rewrite <- (app_nil_r base) in H at 2.
    by apply app_inv_head in H.
Qed.

Lemma under_refl (p : path) : under p p.
Proof. by exists []; rewrite app_nil_r. Qed.

Lemma under_app (p r : path) : under p (p ++ r).
Proof. by exists r. Qed.

Lemma under_trans (p q r : path) : under p q → under q r → under p r.
Proof. unfold under. intros. by etrans. Qed.

Lemma strictly_under_under (p q : path) : strictly_under p q → under p q.
Proof. by intros [? _]. Qed.

(** A prefix of [base ++ r] is a prefix of [base] or lies strictly below
    [base]. *)
Lemma prefix_app_cases (q base r : path) :
  q `prefix_of` base ++ r → q `prefix_of` base ∨ strictly_under base q.
Proof.
  intros Hq.
  destruct (prefix_weak_total q base (base ++ r) Hq (under_app base r))
    as [H|H]; [by left|].
  destruct (decide (q = base)) as [->|Hne]; [by left | by right].
Qed.

(** Two paths that agree up to a component where they differ are not
    comparable. *)
Lemma under_diverge (p r1 r2 q p1 p2 : path) (a b : string) :
  a ≠ b → p1 = p ++ a :: r1 → p2 = p ++ b :: r2 →
  under p1 q → under p2 q → False.
Proof.
  intros Hab -> -> [k1 ->] [k2 H]. rewrite <- !app_assoc in H.
  apply app_inv_head in H. simpl in H. congruence.
Qed.

Lemma prefix_diverge (p r1 r2 q p1 p2 : path) (a b : string) :
  a ≠ b → p1 = p ++ a :: r1 → p2 = p ++ b :: r2 →
  q `prefix_of` p1 → under p2 q → False.
Proof.
  intros Hab -> -> Hq [k ->]. destruct Hq as [k' H].
  rewrite <- !app_assoc in H. apply app_inv_head in H. simpl in H. congruence.
Qed.

End PathFacts.

(* ===================================================================== *)
(** * Facts about the outcome monad *)
(* ===================================================================== *)

Module MonadFacts.
Import Fs Spec.
Local Open Scope fs_scope.

Lemma bind_Done {A B} (m : M A) (k : A → M B) s a s1 o1 b s2 o2 :
  m s = Done a s1 o1 → k a s1 = Done b s2 o2 →
  bind m k s = Done b s2 (o1 ++ o2).
Proof. unfold bind. by intros -> ->. Qed.

Lemma bind_Done_inv {A B} (m : M A) (k : A → M B) s b s2 o :
  bind m k s = Done b s2 o →
  ∃ a s1 o1 o2, m s = Done a s1 o1 ∧ k a s1 = Done b s2 o2 ∧ o = o1 ++ o2.
Proof.
  unfold bind. destruct (m s) as [a s1 o1| |]; [|done..].
  destruct (k a s1) as [b' s2' o2| |] eqn:Hk; [|done..].
  intros [= -> -> <-]. by exists a, s1, o1, o2.
Qed.

Lemma bind_Raised_inv {A B} (m : M A) (k : A → M B) s e s2 o :
  bind m k s = Raised e s2 o →
  m s = Raised e s2 o ∨
  ∃ a s1 o1 o2, m s = Done a s1 o1 ∧ k a s1 = Raised e s2 o2 ∧ o = o1 ++ o2.
Proof.
  unfold bind. destruct (m s) as [a s1 o1| |]; [|intros [= -> -> ->]; by left|done].
  destruct (k a s1) as [|e' s2' o2|] eqn:Hk; [done| |done].
  intros [= -> -> <-]. right. by exists a, s1, o1, o2.
Qed.

Lemma bind_OutOfFuel_inv {A B} (m : M A) (k : A → M B) s :
  bind m k s = OutOfFuel →
  m s = OutOfFuel ∨ ∃ a s1 o1, m s = Done a s1 o1 ∧ k a s1 = OutOfFuel.
Proof.
  unfold bind. destruct (m s) as [a s1 o1| |]; [|done|intros; by left].
  destruct (k a s1) eqn:Hk; [done..|]. intros _. right. by exists a, s1, o1.
Qed.

Lemma bind_final_inv {A B} (m : M A) (k : A → M B) s s2 :
  final (bind m k s) = Some s2 →
  final (m s) = Some s2 ∨
  ∃ a s1 o1, m s = Done a s1 o1 ∧ final (k a s1) = Some s2.
Proof.
  unfold bind. destruct (m s) as [a s1 o1| |]; [|intros [= ->]; by left|done].
  intros H. right. exists a, s1, o1. split; [done|].
  by destruct (k a s1).
Qed.

Lemma bind_gets {A B} (f : fs → A) (k : A → M B) s :
  bind (gets f) k s = k (f s) s.
Proof. unfold bind, gets. by destruct (k (f s) s). Qed.

Lemma bind_ret {A B} (a : A) (k : A → M B) s : bind (ret a) k s = k a s.
Proof. unfold bind, ret. by destruct (k a s). Qed.

Lemma bind_assoc {A B C} (m : M A) (k : A → M B) (h : B → M C) s :
  bind (bind m k) h s = bind m (λ a, bind (k a) h) s.
Proof.
  unfold bind. destruct (m s) as [a s1 o1| |]; [|done..].
  destruct (k a s1) as [b s2 o2| |]; [|done..].
  destruct (h b s2) as [c s3 o3| |]; by rewrite ?app_assoc.
Qed.

Lemma bind_ext {A B} (m : M A) (k k' : A → M B) s :
  (∀ a s1, k a s1 = k' a s1) → bind m k s = bind m k' s.
Proof. intros H. unfold bind. destruct (m s); [by rewrite H|done..]. Qed.

Lemma bind_Raised {A B} (m : M A) (k : A → M B) s a s1 o1 e s2 o2 :
  m s = Done a s1 o1 → k a s1 = Raised e s2 o2 →
  bind m k s = Raised e s2 (o1 ++ o2).
Proof. unfold bind. by intros -> ->. Qed.

Lemma bind_Raised_l {A B} (m : M A) (k : A → M B) s e s1 o1 :
  m s = Raised e s1 o1 → bind m k s = Raised e s1 o1.
Proof. unfold bind. by intros ->. Qed.

Lemma for_each_app {A} (l1 l2 : list A) (body : A → M unit) s :
  for_each (l1 ++ l2) body s
  = bind (for_each l1 body) (λ _, for_each l2 body) s.
Proof.
  unfold for_each. revert s. induction l1 as [|x l1 IH]; intros s; simpl.
  - by rewrite bind_ret.
  - rewrite bind_assoc. apply bind_ext. intros [] s1. apply IH.
Qed.

Section steps.
Context (R : relation fs) {R_preorder : PreOrder R}.

Lemma steps_ret {A} (a : A) : steps R (ret a).
Proof. intros s s' [= <-]. done. Qed.

Lemma steps_raise {A} e : steps R (raise (A := A) e).
Proof. intros s s' [= <-]. done. Qed.

Lemma steps_gets {A} (f : fs → A) : steps R (gets f).
Proof. intros s s' [= <-]. done. Qed.

Lemma steps_print line : steps R (print line).
Proof. intros s s' [= <-]. done. Qed.

Lemma steps_bind {A B} (m : M A) (k : A → M B) :
  steps R m → (∀ a, steps R (k a)) → steps R (bind m k).
Proof.
  intros Hm Hk s s' H. apply bind_final_inv in H as [H|(a & s1 & o1 & H1 & H2)].
  - by apply Hm.
  - trans s1; [apply Hm; by rewrite H1 | by eapply Hk].
Qed.

Lemma steps_fold_each {A B} (l : list A) (acc : B) (body : A → B → M B) :
  (∀ x b, x ∈ l → steps R (body x b)) → steps R (fold_each l acc body).
Proof.
  revert acc. induction l as [|x l IH]; intros acc Hb; simpl.
  - apply steps_ret.
  - apply steps_bind; [apply Hb; left | intros b; apply IH].
    intros y b' Hy. apply Hb. by right.
Qed.

Lemma steps_for_each {A} (l : list A) (body : A → M unit) :
  (∀ x, x ∈ l → steps R (body x)) → steps R (for_each l body).
Proof. intros Hb. apply steps_fold_each. intros x _. apply Hb. Qed.

Lemma steps_if {A} (b : bool) (m1 m2 : M A) :
  steps R m1 → steps R m2 → steps R (if b then m1 else m2).
Proof. by destruct b. Qed.
End steps.

End MonadFacts.

(* ===================================================================== *)
(** * Facts about the file-system primitives *)
(* ===================================================================== *)

Module FsFacts.
Import Fs Spec PathFacts MonadFacts.
Local Open Scope fs_scope.

Lemma elem_of_keys (s : fs) (q : path) : q ∈ keys s ↔ is_Some (s !! q).
Proof.
  unfold keys. rewrite list_elem_of_fmap. split.
  - intros (qx & Hq & Hin). destruct qx as [q' x]. simpl in Hq. subst q'.
    apply elem_of_map_to_list in Hin. by exists x.
  - intros [x Hx]. exists (q, x). split; [done|]. by apply elem_of_map_to_list.
Qed.

Lemma NoDup_keys (s : fs) : NoDup (keys s).
Proof. apply NoDup_fst_map_to_list. Qed.

Lemma is_file_Some (s : fs) q : is_file s q = true ↔ ∃ c m, s !! q = Some (File c m).
Proof.
  unfold is_file. destruct (s !! q) as [[|c m]|]; split; try done.
  - by intros (c & m & Hx).
  - by exists c, m.
  - by intros (c & m & Hx).
Qed.

Lemma is_dir_Some (s : fs) q : is_dir s q = true ↔ s !! q = Some Dir.
Proof. unfold is_dir. destruct (s !! q) as [[|c m]|]; split; done. Qed.

Lemma exists_Some (s : fs) q : exists_ s q = true ↔ is_Some (s !! q).
Proof.
  unfold exists_. destruct (s !! q); split; done.
Qed.

Lemma exists_None (s : fs) q : exists_ s q = false ↔ s !! q = None.
Proof. unfold exists_. destruct (s !! q); split; done. Qed.

(** In a well-formed state nothing lives below a missing path or below a
    regular file. *)
Lemma wf_under_None (s : fs) p q :
  wf s → s !! p = None → under p q → s !! q = None.
Proof.
  intros Hwf Hp [r ->]. induction r as [|n r IH] using rev_ind.
  - by rewrite app_nil_r.
  - destruct (s !! (p ++ r ++ [n])) as [x|] eqn:E; [|done].
    rewrite app_assoc in E. apply Hwf in E. congruence.
Qed.

Lemma wf_under_file (s : fs) p q c m :
  wf s → s !! p = Some (File c m) → strictly_under p q → s !! q = None.
Proof.
  intros Hwf Hp Hq. apply strictly_under_app in Hq as (r & Hr & ->).
  induction r as [|n r IH] using rev_ind; [done|].
  destruct (s !! (p ++ r ++ [n])) as [x|] eqn:E; [|done].
  rewrite app_assoc in E. apply Hwf in E.
  destruct r as [|y r]; [rewrite app_nil_r in E; congruence|].
  rewrite IH in E; done.
Qed.

Lemma wf_prefix_dir (s : fs) p q :
  wf s → is_Some (s !! q) → p `prefix_of` q → p ≠ q → s !! p = Some Dir.
Proof.
  intros Hwf Hq Hp Hne.
  destruct (s !! p) as [[|c m]|] eqn:E; [done|..].
  - rewrite (wf_under_file s p q c m) in Hq; [by destruct Hq|done..|].
    by split.
  - rewrite (wf_under_None s p q) in Hq; [by destruct Hq|done..].
Qed.

(** ** [ensure_dir] *)

Lemma lookup_dir_chain (p q : path) :
  dir_chain p !! q = if decide (q `prefix_of` p) then Some Dir else None.
Proof.
  unfold dir_chain. rewrite lookup_gset_to_gmap.
  case_decide as H.
  - rewrite option_guard_True; [done|]. by apply elem_of_list_to_set, elem_of_prefixes.
  - rewrite option_guard_False; [done|]. by rewrite elem_of_list_to_set, elem_of_prefixes.
Qed.

Lemma lookup_ensure (s : fs) (p q : path) :
  (s ∪ dir_chain p) !! q =
    match s !! q with
    | Some x => Some x
    | None => if decide (q `prefix_of` p) then Some Dir else None
    end.
Proof.
  rewrite lookup_union, lookup_dir_chain.
  destruct (s !! q); by case_decide.
Qed.

Lemma first_file_prefix_None (s : fs) (p : path) :
  first_file_prefix s p = None ↔ ∀ q, q `prefix_of` p → is_file s q = false.
Proof.
  unfold first_file_prefix.
  destruct (list_find _ _) as [[i r]|] eqn:E; simpl.
  - split; [done|]. intros H. apply list_find_Some in E as (Hl & Hr & _).
    apply list_elem_of_lookup_2 in Hl. apply elem_of_prefixes in Hl.
    apply H in Hl. congruence.
  - split; [|done]. intros _ q Hq. apply list_find_None in E.
    rewrite Forall_forall in E. apply elem_of_prefixes in Hq.
    apply E in Hq. by destruct (is_file s q).
Qed.

Lemma first_file_prefix_Some (s : fs) (p r : path) :
  first_file_prefix s p = Some r → r `prefix_of` p ∧ is_file s r = true.
Proof.
  unfold first_file_prefix.
  destruct (list_find _ _) as [[i r']|] eqn:E; simpl; [|done].
  intros [= ->]. apply list_find_Some in E as (Hl & Hr & _).
  split; [|done]. apply list_elem_of_lookup_2 in Hl. by apply elem_of_prefixes in Hl.
Qed.

Lemma ensure_dir_Done (s : fs) (p : path) :
  (∀ q, q `prefix_of` p → is_file s q = false) →
  ensure_dir p s = Done tt (s ∪ dir_chain p) [].
Proof.
  intros H. unfold ensure_dir.
  by apply first_file_prefix_None in H as ->.
Qed.

Lemma ensure_dir_Done_inv (s s' : fs) (p : path) u o :
  ensure_dir p s = Done u s' o →
  s' = s ∪ dir_chain p ∧ o = [] ∧ ∀ q, q `prefix_of` p → is_file s q = false.
Proof.
  unfold ensure_dir. destruct (first_file_prefix s p) eqn:E.
  - by case_decide.
  - intros [= <- <-]. by rewrite <- first_file_prefix_None.
Qed.

Lemma ensure_dir_final (s s' : fs) (p : path) :
  final (ensure_dir p s) = Some s' →
  ∀ q, s' !! q = s !! q ∨ (s !! q = None ∧ q `prefix_of` p ∧ s' !! q = Some Dir).
Proof.
  unfold ensure_dir. destruct (first_file_prefix s p) eqn:E.
  - case_decide; intros [= <-] q; by left.
  - intros [= <-] q. rewrite lookup_ensure.
    destruct (s !! q) eqn:Hq; [by left|].
    case_decide; [by right | by left].
Qed.

(** ** [rmtree] and [reset_dir] *)

Lemma lookup_rmtree (s : fs) (p q : path) :
  filter (λ kv : path * node, ¬ under p kv.1) s !! q =
    if decide (under p q) then None else s !! q.
Proof.
  rewrite map_lookup_filter. destruct (s !! q) as [x|] eqn:E; simpl.
  - case_decide.
    + by rewrite option_guard_False by (simpl; tauto).
    + by rewrite option_guard_True.
  - by case_decide.
Qed.

Lemma rmtree_final (s s' : fs) (p : path) :
  final (rmtree p s) = Some s' →
  ∀ q, s' !! q = s !! q ∨ (under p q ∧ s' !! q = None).
Proof.
  unfold rmtree. destruct (s !! p) as [[|c m]|] eqn:E; intros [= <-] q;
    try by left.
  rewrite lookup_rmtree. case_decide; [by right | by left].
Qed.

Lemma lookup_reset_state (p : path) (s : fs) (q : path) :
  reset_state p s !! q =
    if decide (under p q) then (if decide (q = p) then Some Dir else None)
    else match s !! q with
         | Some x => Some x
         | None => if decide (q `prefix_of` p) then Some Dir else None
         end.
Proof.
  unfold reset_state. rewrite lookup_ensure, lookup_rmtree.
  case_decide as Hu; [|done].
  destruct (decide (q = p)) as [->|Hne].
  - by rewrite decide_True.
  - rewrite decide_False; [done|].
    intros Hq. apply Hne. by apply (anti_symm prefix).
Qed.

Lemma reset_dir_Done (s : fs) (p : path) :
  wf s → resettable s p → reset_dir p s = Done tt (reset_state p s) [].
Proof.
  intros Hwf Hres. unfold reset_dir. rewrite bind_gets.
  pose proof (Hres p (reflexivity _)) as Hp. unfold is_file in Hp.
  unfold exists_. destruct (s !! p) as [[|c m]|] eqn:E; [|done|].
  - eapply (bind_Done _ _ _ tt _ []); [unfold rmtree; by rewrite E|].
    apply ensure_dir_Done.
    intros q Hq. unfold is_file. rewrite lookup_rmtree.
    case_decide; [done|]. by apply Hres.
  - rewrite bind_ret, ensure_dir_Done by done. f_equal.
    unfold reset_state. f_equal. apply map_eq. intros q.
    rewrite lookup_rmtree. case_decide; [|done].
    by eapply wf_under_None.
Qed.

Lemma reset_dir_Done_inv (s s' : fs) (p : path) u o :
  wf s → reset_dir p s = Done u s' o →
  s' = reset_state p s ∧ o = [] ∧ resettable s p.
Proof.
  intros Hwf H.
  assert (resettable s p) as Hres.
  { unfold reset_dir in H. rewrite bind_gets in H.
    apply bind_Done_inv in H as (? & s2 & o2' & o3 & H2 & H3 & ->).
    apply ensure_dir_Done_inv in H3 as (-> & -> & Hnf).
    intros q Hq. specialize (Hnf q Hq).
    unfold exists_, rmtree, ret in H2.
    destruct (s !! p) as [[|c m]|] eqn:E; simpl in H2; rewrite ?E in H2;
      [|done|by injection H2 as <- <-].
    injection H2 as <- <-.
    unfold is_file in *. rewrite lookup_rmtree in Hnf.
    case_decide as Hu; [|done].
    assert (q = p) as -> by by apply (anti_symm prefix).
    by rewrite E. }
  rewrite reset_dir_Done in H by done. by injection H as <- <-.
Qed.

Lemma reset_state_idemp (p : path) (s s1 : fs) :
  (∀ q, ¬ strictly_under p q → s1 !! q = reset_state p s !! q) →
  reset_state p s1 = reset_state p s.
Proof.
  intros H. apply map_eq. intros q.
  rewrite (lookup_reset_state p s1).
  case_decide as Hu.
  - case_decide as Hq.
    + subst q. rewrite lookup_reset_state.
      rewrite decide_True by apply under_refl. by rewrite decide_True.
    + rewrite lookup_reset_state. rewrite decide_True by done.
      by rewrite decide_False.
  - rewrite H by (intros []; done).
    rewrite (lookup_reset_state p s q). rewrite decide_False by done.
    destruct (s !! q); [done|]. by case_decide.
Qed.

End FsFacts.

(* ===================================================================== *)
(** * Frames: which paths a run may change *)
(* ===================================================================== *)

Module Frame.
Import Fs Spec PathFacts MonadFacts FsFacts.
Local Open Scope fs_scope.

Global Instance around_preorder out : PreOrder (around out).
Proof.
  split.
  - by intros s q _.
  - intros s1 s2 s3 H12 H23 q Hq. by rewrite H23, H12.
Qed.

Lemma not_strictly_under_prefix (out q : path) :
  q `prefix_of` out → ¬ strictly_under out q.
Proof.
  intros Hq [Hu Hne]. apply Hne. by apply (anti_symm prefix).
Qed.

Global Instance within_preorder out : PreOrder (within out).
Proof.
  split.
  - by intros s _ q _.
  - intros s1 s2 s3 H12 H23 Hpre q Hq.
    assert (∀ q', q' `prefix_of` out → is_Some (s2 !! q')) as Hpre2.
    { intros q' Hq'. rewrite (H12 Hpre q'); [by apply Hpre|].
      by apply not_strictly_under_prefix. }
    by rewrite (H23 Hpre2 q Hq), (H12 Hpre q Hq).
Qed.

(** ** What each primitive may change *)

Lemma copy2_final (s s' : fs) (src dst : path) :
  final (copy2 src dst s) = Some s' →
  ∀ q, s' !! q = s !! q ∨ q = dst ∨ q = dst ++ [name src].
Proof.
  unfold copy2. intros H q.
  destruct (s !! src) as [[|c m]|]; [by injection H as <-; left| |by injection H as <-; left].
  set (target := if is_dir s dst then dst ++ [name src] else dst) in *.
  assert (target = dst ∨ target = dst ++ [name src]) as Ht.
  { unfold target. destruct (is_dir s dst); auto. }
  case_decide; [by injection H as <-; left|].
  destruct (s !! target) as [[|c' m']|];
    [by injection H as <-; left|..];
    (destruct (s !! parent target) as [[|c'' m'']|];
       [|by injection H as <-; left..]);
    injection H as <-;
    (destruct (decide (q = target)) as [->|Hne];
       [right; done | left; by rewrite lookup_insert_ne]).
Qed.

Lemma open_w_final (s s' : fs) now mode (p : path) :
  final (open_w now mode p s) = Some s' → ∀ q, s' !! q = s !! q ∨ q = p.
Proof.
  unfold open_w. intros H q.
  destruct (s !! p) as [[|c m]|].
  - injection H as <-. by left.
  - injection H as <-. destruct (decide (q = p)) as [->|Hne];
      [by right | left; by rewrite lookup_insert_ne].
  - destruct (s !! parent p) as [[|c m]|]; injection H as <-; try by left.
    destruct (decide (q = p)) as [->|Hne];
      [by right | left; by rewrite lookup_insert_ne].
Qed.

Lemma f_write_final (s s' : fs) now (p : path) data :
  final (f_write now p data s) = Some s' → ∀ q, s' !! q = s !! q ∨ q = p.
Proof.
  unfold f_write. intros H q.
  destruct (s !! p) as [[|c m]|]; injection H as <-; try by left.
  destruct (decide (q = p)) as [->|Hne];
    [by right | left; by rewrite lookup_insert_ne].
Qed.

Lemma stat_size_final (s s' : fs) (p : path) :
  final (stat_size p s) = Some s' → s' = s.
Proof.
  unfold stat_size. by destruct (s !! p) as [[|c m]|]; intros [= <-].
Qed.

(** ** Primitives and [around] *)

Lemma around_ensure_dir out p :
  p `prefix_of` out ∨ under out p → steps (around out) (ensure_dir p).
Proof.
  intros Hp s s' H q Hq.
  destruct (ensure_dir_final _ _ _ H q) as [|(_ & Hqp & _)]; [done|].
  destruct Hq. destruct Hp as [Hp|[r ->]].
  - left. by etrans.
  - destruct (prefix_app_cases _ _ _ Hqp) as [|[]]; [by left | by right].
Qed.

Lemma around_rmtree out p : under out p → steps (around out) (rmtree p).
Proof.
  intros Hp s s' H q Hq.
  destruct (rmtree_final _ _ _ H q) as [|[Hu _]]; [done|].
  destruct Hq. right. by eapply under_trans.
Qed.

Lemma around_reset_dir out : steps (around out) (reset_dir out).
Proof.
  unfold reset_dir. apply steps_bind; [apply _|apply steps_gets, _|]. intros ex.
  apply steps_bind; [apply _| |].
  - destruct ex; [apply around_rmtree, under_refl | apply steps_ret, _].
  - intros _. apply around_ensure_dir. by left.
Qed.

Lemma around_copy2 out src dst :
  under out dst → steps (around out) (copy2 src dst).
Proof.
  intros Hd s s' H q Hq.
  destruct (copy2_final _ _ _ _ H q) as [|[->| ->]]; [done|..];
    destruct Hq; right; [done|].
  eapply under_trans; [done|apply under_app].
Qed.

Lemma around_open_w out now mode p :
  under out p → steps (around out) (open_w now mode p).
Proof.
  intros Hd s s' H q Hq.
  destruct (open_w_final _ _ _ _ _ H q) as [| ->]; [done|].
  destruct Hq. by right.
Qed.

Lemma around_f_write out now p data :
  under out p → steps (around out) (f_write now p data).
Proof.
  intros Hd s s' H q Hq.
  destruct (f_write_final _ _ _ _ _ H q) as [| ->]; [done|].
  destruct Hq. by right.
Qed.

Lemma around_stat_size out p : steps (around out) (stat_size p).
Proof. intros s s' H. by apply stat_size_final in H as ->. Qed.

(** ** Primitives and [within] *)

Lemma within_ensure_dir out p : under out p → steps (within out) (ensure_dir p).
Proof.
  intros [r ->] s s' H Hpre q Hq.
  destruct (ensure_dir_final _ _ _ H q) as [|(Hn & Hqp & _)]; [done|].
  destruct (prefix_app_cases _ _ _ Hqp) as [Hq'|]; [|done].
  apply Hpre in Hq' as [x Hx]. congruence.
Qed.

Lemma within_copy2 out src dst :
  strictly_under out dst → steps (within out) (copy2 src dst).
Proof.
  intros Hd s s' H _ q Hq.
  destruct (copy2_final _ _ _ _ H q) as [|[->| ->]]; [done|..];
    destruct Hq; [done|].
  apply strictly_under_app in Hd as (r & Hr & ->).
  apply strictly_under_app. exists (r ++ [name src]).
  split; [by destruct r | by rewrite app_assoc].
Qed.

Lemma within_open_w out now mode p :
  strictly_under out p → steps (within out) (open_w now mode p).
Proof.
  intros Hd s s' H _ q Hq.
  by destruct (open_w_final _ _ _ _ _ H q) as [| ->].
Qed.

Lemma within_f_write out now p data :
  strictly_under out p → steps (within out) (f_write now p data).
Proof.
  intros Hd s s' H _ q Hq.
  by destruct (f_write_final _ _ _ _ _ H q) as [| ->].
Qed.

Lemma within_stat_size out p : steps (within out) (stat_size p).
Proof. intros s s' H. by apply stat_size_final in H as ->. Qed.

Lemma strictly_under_snoc (p : path) (n : string) : strictly_under p (p ++ [n]).
Proof. apply strictly_under_app. by exists [n]. Qed.

Lemma strictly_under_app_snoc (p r : path) (n : string) :
  strictly_under p (p ++ r ++ [n]).
Proof. apply strictly_under_app. exists (r ++ [n]). split; [by destruct r|done]. Qed.

End Frame.

(* ===================================================================== *)
(** * Frames of the script's functions *)
(* ===================================================================== *)

Module BuildFrame.
Import Fs Spec PathFacts MonadFacts FsFacts Frame Build.
Local Open Scope fs_scope.

Lemma steps_say (R : relation fs) `{!PreOrder R} msg : steps R (say msg).
Proof. apply steps_print, _. Qed.

Section copy_frames.
Context (R : relation fs) {R_preorder : PreOrder R}.

Lemma steps_copy_tree src dst :
  (∀ rel, steps R (ensure_dir (dst ++ rel))) →
  (∀ rel n p, steps R (copy2 p ((dst ++ rel) ++ [n]))) →
  steps R (copy_tree src dst).
Proof.
  intros He Hc. unfold copy_tree.
  apply steps_bind; [done|by apply steps_gets|]. intros entries.
  apply steps_for_each; [done|]. intros [root_path files] _.
  destruct (relative_to root_path src) as [rel|]; [|by apply steps_raise].
  apply steps_bind; [done|apply He|]. intros _.
  apply steps_for_each; [done|]. intros n _. apply Hc.
Qed.

Lemma steps_copy_matching_files src dst suffixes :
  (∀ rel, steps R (ensure_dir (parent (dst ++ rel)))) →
  (∀ rel p, steps R (copy2 p (dst ++ rel))) →
  steps R (copy_matching_files src dst suffixes).
Proof.
  intros He Hc. unfold copy_matching_files.
  apply steps_bind; [done|by apply steps_gets|]. intros paths.
  apply steps_fold_each; [done|]. intros p count _.
  apply steps_bind; [done|by apply steps_gets|]. intros isf.
  destruct (negb isf); [by apply steps_ret|].
  destruct (negb _); [by apply steps_ret|].
  destruct (relative_to p src) as [rel|]; [|by apply steps_raise].
  apply steps_bind; [done|apply He|]. intros _.
  apply steps_bind; [done|apply Hc|]. intros _. by apply steps_ret.
Qed.

Lemma steps_write_pages e pages out_file start end_ :
  (∀ data, steps R (f_write (now e) out_file data)) →
  steps R (write_pages e pages out_file start end_).
Proof.
  intros Hw. unfold write_pages. apply steps_for_each; [done|]. intros i _.
  destruct (py_index pages i); [|by apply steps_raise].
  apply steps_bind; [done|apply Hw|]. intros _. apply Hw.
Qed.

Lemma steps_cpp_loop e pages out_dir k fuel start :
  (∀ n, steps R (open_w (now e) (create_mode e) (out_dir ++ [n]))) →
  (∀ n data, steps R (f_write (now e) (out_dir ++ [n]) data)) →
  steps R (cpp_loop e pages out_dir k fuel start).
Proof.
  intros Ho Hw. revert start. induction fuel as [|fuel IH]; intros start; simpl.
  - destruct (_ <? _); [by intros s s' | by apply steps_ret].
  - destruct (_ <? _); [|by apply steps_ret].
    apply steps_bind; [done|by apply steps_say|]. intros _.
    apply steps_bind; [done|apply Ho|]. intros _.
    apply steps_bind; [done| |intros _; apply IH].
    apply steps_write_pages. intros data. apply Hw.
Qed.

Lemma steps_pdf_reader parse pdf : steps R (pdf_reader parse pdf).
Proof.
  intros s s'. unfold pdf_reader.
  destruct (s !! pdf) as [[|c m]|]; [by intros [= <-]| |by intros [= <-]].
  by destruct (parse c); intros [= <-].
Qed.
End copy_frames.

Lemma parent_under (out : path) (x : string) (rel : path) :
  under out (parent ((out ++ [x]) ++ rel)).
Proof.
  rewrite <- app_assoc. rewrite parent_app by done. apply under_app.
Qed.

(** Every build changes nothing outside its output directory and the
    chain of ancestors of that directory. *)
Lemma around_build e root k fuel l :
  steps (around (out_path root l)) (build e root k fuel l).
Proof.
  set (out := out_path root l).
  assert (PreOrder (around out)) as HR by apply _.
  destruct l; simpl.
  - unfold build_python. apply steps_bind; [done|by apply steps_gets|].
    intros ex. destruct (negb ex); [by apply steps_raise|].
    apply steps_bind; [done|by apply steps_say|]. intros _.
    apply steps_bind; [done|apply around_reset_dir|]. intros _.
    apply steps_bind; [done| |].
    + apply steps_copy_tree; [done|..].
      * intros rel. apply around_ensure_dir. right. apply under_app.
      * intros rel n p. apply around_copy2. rewrite <- app_assoc. apply under_app.
    + intros _. apply steps_bind; [done|by apply steps_gets|].
      intros n. by apply steps_say.
  - unfold build_javascript. apply steps_bind; [done|by apply steps_gets|].
    intros ex. destruct (negb ex); [by apply steps_raise|].
    apply steps_bind; [done|by apply steps_say|]. intros _.
    apply steps_bind; [done|apply around_reset_dir|]. intros _.
    apply steps_bind; [done|apply around_copy2, under_app|]. intros _.
    apply steps_bind; [done|apply around_stat_size|].
    intros n. by apply steps_say.
  - unfold build_swift. apply steps_bind; [done|by apply steps_gets|].
    intros ex. destruct (negb ex); [by apply steps_raise|].
    apply steps_bind; [done|by apply steps_say|]. intros _.
    apply steps_bind; [done|apply around_reset_dir|]. intros _.
    apply steps_bind; [done| |].
    + apply steps_copy_matching_files; [done|..].
      * intros rel. apply around_ensure_dir. right. apply parent_under.
      * intros rel p. apply around_copy2. rewrite <- app_assoc. apply under_app.
    + intros copied. apply steps_bind; [done|by apply steps_gets|].
      intros lic. apply steps_bind; [done| |intros _; by apply steps_say].
      destruct lic; [apply around_copy2, under_app | by apply steps_ret].
  - unfold build_cpp. destruct (pypdf e) as [reader|]; [|by apply steps_raise].
    apply steps_bind; [done|by apply steps_gets|].
    intros ex. destruct (negb ex); [by apply steps_raise|].
    apply steps_bind; [done|by apply steps_say|]. intros _.
    apply steps_bind; [done|apply around_reset_dir|]. intros _.
    apply steps_bind; [done|by apply steps_pdf_reader|]. intros pages.
    apply steps_bind; [done|by apply steps_say|]. intros _.
    apply steps_cpp_loop; [done|..].
    + intros n. apply around_open_w, under_app.
    + intros n data. apply around_f_write, under_app.
Qed.

Lemma out_path_split root l :
  out_path root l = (root ++ ["languages"]) ++ lang_name l :: out_rel l.
Proof. unfold out_path, lang_dir. by rewrite <- !app_assoc. Qed.

Lemma raw_path_split root l :
  raw_path root l = (root ++ ["languages"]) ++ lang_name l :: raw_rel l.
Proof. unfold raw_path, lang_dir. by rewrite <- !app_assoc. Qed.

Lemma lang_name_inj l l' : lang_name l = lang_name l' → l = l'.
Proof. by destruct l, l'. Qed.

(** The output directories of two different languages are apart: nothing
    below one is below, or an ancestor of, the other. *)
Lemma out_paths_apart root l l' q :
  l ≠ l' → under (out_path root l') q →
  ¬ (q `prefix_of` out_path root l ∨ under (out_path root l) q).
Proof.
  intros Hne Hq [H|H].
  - eapply (prefix_diverge _ _ _ q _ _ (lang_name l) (lang_name l'));
      [|apply out_path_split..|done|done].
    intros E. by apply lang_name_inj in E.
  - eapply (under_diverge _ _ _ q _ _ (lang_name l) (lang_name l'));
      [|apply out_path_split..|done|done].
    intros E. by apply lang_name_inj in E.
Qed.

End BuildFrame.

(* ===================================================================== *)
(** * The driver *)
(* ===================================================================== *)

Module Driver.
Import Fs Spec PathFacts MonadFacts FsFacts Frame Build BuildFrame.
Local Open Scope fs_scope.

Global Instance outside_preorder root ls : PreOrder (outside root ls).
Proof.
  split.
  - by intros s q _.
  - intros s1 s2 s3 H12 H23 q Hq. by rewrite H23, H12.
Qed.

Lemma outside_build e root k fuel ls l :
  l ∈ ls → steps (outside root ls) (build e root k fuel l).
Proof.
  intros Hl s s' H q Hq. by apply (around_build e root k fuel l s s' H), Hq.
Qed.

Lemma root_check_Done root s :
  (if decide (name root ≠ "kb")
   then say ("WARN: root looks unusual: " +:+ path_str root)
   else ret tt) s = Done tt s (root_warning root).
Proof. unfold root_warning. by case_decide. Qed.

Lemma main_unfold e root k fuel s :
  main e root k fuel s =
  match for_each all_languages (build e root k fuel) s with
  | Done _ s' o => Done tt s' (root_warning root ++ o ++ ["[kb] done"])
  | Raised e' s' o => Raised e' s' (root_warning root ++ o)
  | OutOfFuel => OutOfFuel
  end.
Proof.
  unfold main. unfold bind at 1. rewrite root_check_Done.
  unfold all_languages, for_each. simpl.
  unfold bind.
  destruct (build_python root s) as [[] s1 o1| |]; [|by rewrite ?app_nil_r..].
  destruct (build_javascript root s1) as [[] s2 o2| |]; [|by rewrite ?app_nil_r..].
  destruct (build_swift root s2) as [[] s3 o3| |]; [|by rewrite ?app_nil_r..].
  destruct (build_cpp e root k fuel s3) as [[] s4 o4| |]; [|by rewrite ?app_nil_r..].
  simpl. by rewrite !app_nil_r, <- !app_assoc.
Qed.

Lemma NoDup_all_languages : NoDup all_languages.
Proof. by apply (bool_decide_unpack _). Qed.

(** C7.  [main] runs the builds in the order python, javascript, swift,
    cpp and stops at the first one that raises: when the builds before
    [l] complete and the build of [l] raises [e'] (a missing prerequisite
    is the [SystemExit] case), [main] ends with that very exception, in
    the state and with the output reached at that point, so that no later
    build has run; the process exits with status 1 and the output
    directory of every later language is as it was before [main] started.
    When all four builds complete, [main] prints [done] and exits with
    status 0. *)
Theorem main_halts_at_first_failure e root k fuel s :
  (∀ before l after s_b o_b e' s_l o_l,
     all_languages = before ++ l :: after →
     for_each before (build e root k fuel) s = Done tt s_b o_b →
     build e root k fuel l s_b = Raised e' s_l o_l →
     main e root k fuel s = Raised e' s_l (root_warning root ++ o_b ++ o_l)
     ∧ exit_status (main e root k fuel s) = Some 1
     ∧ ∀ l' q, l' ∈ after → under (out_path root l') q → s_l !! q = s !! q)
  ∧ (∀ s4 o4,
     for_each all_languages (build e root k fuel) s = Done tt s4 o4 →
     main e root k fuel s = Done tt s4 (root_warning root ++ o4 ++ ["[kb] done"])
     ∧ exit_status (main e root k fuel s) = Some 0).
Proof.
  split.
  - intros before l after s_b o_b e' s_l o_l Hall Hb Hl.
    assert (for_each all_languages (build e root k fuel) s
            = Raised e' s_l (o_b ++ o_l)) as Hrun.
    { rewrite Hall, for_each_app. eapply bind_Raised; [done|].
      unfold for_each. simpl. by apply bind_Raised_l. }
    rewrite main_unfold, Hrun. split; [done|]. split; [done|].
    intros l' q Hl' Hq.
    assert (outside root (before ++ [l]) s s_l) as Hout.
    { trans s_b.
      - apply (steps_for_each (outside root (before ++ [l])) before
                 (build e root k fuel)); [|by rewrite Hb].
        intros x Hx. apply outside_build. set_solver.
      - apply (outside_build e root k fuel (before ++ [l]) l); [set_solver|].
        by rewrite Hl. }
    apply Hout. intros l0 Hl0. apply (out_paths_apart root l0 l' q); [|done].
    intros ->. pose proof NoDup_all_languages as Hnd. rewrite Hall in Hnd.
    apply NoDup_app in Hnd as (_ & Hnd1 & Hnd2).
    apply NoDup_cons in Hnd2 as [Hnd2 _].
    apply elem_of_app in Hl0 as [Hl0|Hl0].
    + apply Hnd1 in Hl0. apply Hl0. by right.
    + apply list_elem_of_singleton in Hl0 as ->. done.
  - intros s4 o4 Hrun. by rewrite main_unfold, Hrun.
Qed.

End Driver.

(* ===================================================================== *)
(** * Facts about formatting *)
(* ===================================================================== *)

Module TextFacts.
Import Text Spec.

Lemma str_app_nil_r (s : string) : s +:+ "" = s.
Proof. induction s as [|c s IH]; [done|]. unfold String.app in *. simpl. by rewrite IH. Qed.

Lemma str_app_assoc (s1 s2 s3 : string) : (s1 +:+ s2) +:+ s3 = s1 +:+ s2 +:+ s3.
Proof.
  induction s1 as [|c s1 IH]; [done|]. unfold String.app in *. simpl. by rewrite IH.
Qed.

Lemma str_app_cons (c : ascii) (s1 s2 : string) :
  String c s1 +:+ s2 = String c (s1 +:+ s2).
Proof. done. Qed.

Lemma uint_digits (d : Decimal.uint) : all_digits (NilEmpty.string_of_uint d) = true.
Proof. induction d; simpl; auto. Qed.

Lemma str_of_N_digits (n : N) : all_digits (str_of_N n) = true.
Proof. apply uint_digits. Qed.

Lemma zeros_digits (k : nat) (s : string) :
  all_digits s = true → all_digits (zeros k +:+ s) = true.
Proof.
  intros Hs. induction k as [|k IH]; [done|]. by simpl.
Qed.

Lemma zfill_digits (w : nat) (s : string) :
  all_digits s = true → all_digits (zfill w s) = true.
Proof. apply zeros_digits. Qed.

Lemma parse_str_of_N (n : N) : parse_N (str_of_N n) = Some n.
Proof.
  unfold parse_N, str_of_N. rewrite NilEmpty.usu. simpl.
  by rewrite DecimalN.Unsigned.of_to.
Qed.

Lemma parse_zeros (k : nat) (s : string) : parse_N (zeros k +:+ s) = parse_N s.
Proof.
  induction k as [|k IH]; [done|]. rewrite <- IH. unfold parse_N.
  simpl. by destruct (NilEmpty.uint_of_string (zeros k +:+ s)).
Qed.

Lemma zfill_str_of_N_inj (w : nat) (a b : N) :
  zfill w (str_of_N a) = zfill w (str_of_N b) → a = b.
Proof.
  intros H. apply (f_equal parse_N) in H. unfold zfill in H.
  rewrite !parse_zeros, !parse_str_of_N in H. by injection H.
Qed.

Lemma format_04d_nonneg (z : Z) :
  0 ≤ z → format_04d z = zfill 4 (str_of_int z).
Proof.
  intros Hz. unfold format_04d, str_of_int.
  by destruct (Z.ltb_spec z 0); [lia|].
Qed.

Lemma format_04d_digits (z : Z) : 0 ≤ z → all_digits (format_04d z) = true.
Proof.
  intros Hz. unfold format_04d. destruct (Z.ltb_spec z 0); [lia|].
  apply zfill_digits, str_of_N_digits.
Qed.

Lemma format_04d_inj (a b : Z) :
  0 ≤ a → 0 ≤ b → format_04d a = format_04d b → a = b.
Proof.
  intros Ha Hb. unfold format_04d.
  destruct (Z.ltb_spec a 0), (Z.ltb_spec b 0); try lia.
  intros Heq%zfill_str_of_N_inj. lia.
Qed.

(** A run of digits is delimited by the first character that is not a
    digit. *)
Lemma digits_split (x y r r' : string) (c : ascii) :
  is_digit c = false → all_digits x = true → all_digits y = true →
  x +:+ String c r = y +:+ String c r' → x = y.
Proof.
  intros Hc. revert y. induction x as [|a x IH]; intros [|b y] Hx Hy H; simpl in *.
  - done.
  - rewrite str_app_cons in H. injection H as <- _.
    apply andb_true_iff in Hy as [Hy _]. congruence.
  - rewrite str_app_cons in H. injection H as -> _.
    apply andb_true_iff in Hx as [Hx _]. congruence.
  - rewrite !str_app_cons in H. injection H as -> H.
    apply andb_true_iff in Hx as [_ Hx]. apply andb_true_iff in Hy as [_ Hy].
    f_equal. by apply IH.
Qed.

Lemma length_zeros (k : nat) : String.length (zeros k) = k.
Proof. induction k; simpl; auto. Qed.

Lemma str_length_app (s1 s2 : string) :
  String.length (s1 +:+ s2) = (String.length s1 + String.length s2)%nat.
Proof. induction s1 as [|c s1 IH]; [done|]. rewrite str_app_cons. simpl. by rewrite IH. Qed.

(** [zfill] pads to at least the requested width and changes nothing
    else. *)
Lemma zfill_length (w : nat) (s : string) :
  (w ≤ String.length (zfill w s))%nat.
Proof. unfold zfill. rewrite str_length_app, length_zeros. lia. Qed.

Lemma zfill_wide (w : nat) (s : string) :
  (w ≤ String.length s)%nat → zfill w s = s.
Proof. intros H. unfold zfill. by replace (w - String.length s)%nat with 0%nat by lia. Qed.

End TextFacts.

(* ===================================================================== *)
(** * paginate-pdf: the batching loop *)
(* ===================================================================== *)

Module CppFacts.
Import Fs Spec Text Build PathFacts MonadFacts FsFacts Frame TextFacts.
Local Open Scope fs_scope.

(** ** Arithmetic of the batches *)

Lemma ceil_div_bounds (T k : Z) :
  0 < k → (ceil_div T k - 1) * k < T ≤ ceil_div T k * k.
Proof.
  intros Hk. unfold ceil_div.
  pose proof (Z.div_mod (T + k - 1) k ltac:(lia)) as Hdm.
  pose proof (Z.mod_pos_bound (T + k - 1) k Hk).
  set (q := (T + k - 1) / k) in *. set (r := (T + k - 1) mod k) in *. lia.
Qed.

Lemma ceil_div_unique (T k n : Z) :
  0 < k → (n - 1) * k < T ≤ n * k → ceil_div T k = n.
Proof.
  intros Hk Hn. pose proof (ceil_div_bounds T k Hk). nia.
Qed.

Lemma ceil_div_nonpos (T k : Z) : 0 < k → T ≤ 0 → ceil_div T k ≤ 0.
Proof. intros Hk HT. pose proof (ceil_div_bounds T k Hk). nia. Qed.

Lemma ceil_div_pos (T k : Z) : 0 < k → 0 < T → 0 < ceil_div T k.
Proof. intros Hk HT. pose proof (ceil_div_bounds T k Hk). nia. Qed.

Lemma ceil_div_step (T k : Z) :
  0 < k → 0 < T → ceil_div T k = 1 + ceil_div (T - k) k.
Proof.
  intros Hk HT. apply ceil_div_unique; [done|].
  pose proof (ceil_div_bounds (T - k) k Hk). nia.
Qed.

Lemma batches_from_nil (total k start : Z) :
  0 < k → total ≤ start → batches_from total k start = [].
Proof.
  intros Hk Hs. unfold batches_from.
  replace (Z.to_nat _) with 0%nat; [done|].
  pose proof (ceil_div_nonpos (total - start) k Hk). lia.
Qed.

Lemma batches_from_cons (total k start : Z) :
  0 < k → start < total →
  batches_from total k start =
    (start, Z.min (total - 1) (start + k - 1))
      :: batches_from total k (next_start total k start).
Proof.
  intros Hk Hs. unfold batches_from, next_start.
  rewrite (ceil_div_step (total - start) k) by lia.
  destruct (Z.le_gt_cases (total - 1) (start + k - 1)) as [Hlast|Hmore].
  - rewrite Z.min_l by lia.
    pose proof (ceil_div_nonpos (total - start - k) k Hk ltac:(lia)).
    pose proof (ceil_div_bounds (total - start - k) k Hk).
    replace (Z.to_nat (1 + ceil_div (total - start - k) k)) with 1%nat by nia.
    simpl.
    replace (Z.to_nat (ceil_div (total - (total - 1 + 1)) k)) with 0%nat.
    + simpl. unfold batch. simpl. f_equal. f_equal; lia.
    + pose proof (ceil_div_nonpos (total - (total - 1 + 1)) k Hk). lia.
  - rewrite Z.min_r by lia.
    pose proof (ceil_div_pos (total - start - k) k Hk ltac:(lia)).
    replace (Z.to_nat (1 + ceil_div (total - start - k) k))
      with (S (Z.to_nat (ceil_div (total - start - k) k))) by lia.
    replace (total - (start + k - 1 + 1)) with (total - start - k) by lia.
    simpl. f_equal.
    + unfold batch. simpl. f_equal; lia.
    + rewrite <- fmap_S_seq, <- list_fmap_compose. apply list_fmap_ext.
      intros i x _. unfold batch. simpl. f_equal; lia.
Qed.

Lemma length_batches_from (total k start : Z) :
  length (batches_from total k start) = Z.to_nat (ceil_div (total - start) k).
Proof. unfold batches_from. by rewrite length_fmap, length_seq. Qed.

Lemma lookup_batches_from (total k start : Z) (i : nat) (b : Z * Z) :
  batches_from total k start !! i = Some b ↔
  (i < Z.to_nat (ceil_div (total - start) k))%nat ∧ b = batch total k start i.
Proof.
  unfold batches_from. rewrite list_lookup_fmap. split.
  - intros H. destruct (seq _ _ !! i) as [j|] eqn:E; [|done].
    apply lookup_seq in E as [-> ?]. injection H as <-. done.
  - intros [Hi ->]. by rewrite lookup_seq_lt.
Qed.

End CppFacts.

Module Partition.
Import Fs Spec Text Build CppFacts.

Lemma lookup_batches (total k : Z) (i : nat) (a b : Z) :
  batches total k !! i = Some (a, b) ↔
  (i < Z.to_nat (ceil_div total k))%nat
  ∧ a = Z.of_nat i * k ∧ b = Z.min (total - 1) (Z.of_nat i * k + k - 1).
Proof.
  unfold batches. rewrite lookup_batches_from, Z.sub_0_r. unfold batch.
  split.
  - intros [Hi [= -> ->]]. split; [done|]. split; f_equal; lia.
  - intros (Hi & -> & ->). split; [done|]. f_equal; f_equal; lia.
Qed.

Lemma length_batches (total k : Z) :
  length (batches total k) = Z.to_nat (ceil_div total k).
Proof. unfold batches. by rewrite length_batches_from, Z.sub_0_r. Qed.

(** The batches of the loop cut [1..total] as the specification says. *)
Lemma batches_partition (total k : Z) :
  1 ≤ k → 0 ≤ total → page_partition k total (batches total k).
Proof.
  intros Hk HT.
  pose proof (ceil_div_bounds total k ltac:(lia)) as Hn.
  set (n := ceil_div total k) in *.
  repeat split.
  - apply lookup_batches in H as (Hi & -> & ->). fold n in Hi. nia.
  - apply lookup_batches in H as (Hi & -> & ->). lia.
  - intros i a b H Hlen. rewrite length_batches in Hlen. fold n in Hlen.
    apply lookup_batches in H as (Hi & -> & ->). nia.
  - intros i a b a' b' H H'.
    apply lookup_batches in H as (Hi & -> & ->).
    apply lookup_batches in H' as (Hi' & -> & ->). fold n in Hi, Hi'. nia.
  - intros i j a b a' b' Hij H H'.
    apply lookup_batches in H as (Hi & -> & ->).
    apply lookup_batches in H' as (Hi' & -> & ->). nia.
  - intros Hp. set (i := (p - 1) / k).
    pose proof (Z.div_mod (p - 1) k ltac:(lia)) as Hdm.
    pose proof (Z.mod_pos_bound (p - 1) k ltac:(lia)) as Hm.
    assert (0 ≤ i) by (apply Z.div_pos; lia).
    fold i in Hdm.
    exists (i * k), (Z.min (total - 1) (i * k + k - 1)). split; [|lia].
    apply list_elem_of_lookup. exists (Z.to_nat i).
    apply lookup_batches. fold n. rewrite Z2Nat.id by done.
    split; [nia|done].
  - destruct H as (a & b & Hab & Hp). apply list_elem_of_lookup in Hab as [i Hi].
    apply lookup_batches in Hi as (Hi & -> & ->). lia.
  - destruct H as (a & b & Hab & Hp). apply list_elem_of_lookup in Hab as [i Hi].
    apply lookup_batches in Hi as (Hi & -> & ->). lia.
Qed.

End Partition.

Module CppLoop.
Import Fs Spec Text Build PathFacts MonadFacts FsFacts Frame TextFacts CppFacts.
Local Open Scope fs_scope.

Lemma elem_of_py_range (a b i : Z) : i ∈ py_range a b ↔ a ≤ i < b.
Proof.
  unfold py_range. rewrite list_elem_of_fmap. split.
  - intros (j & -> & Hj). apply elem_of_seq in Hj. lia.
  - intros Hi. exists (Z.to_nat (i - a)). split; [lia|].
    apply elem_of_seq. lia.
Qed.

Lemma py_range_nil (a b : Z) : b ≤ a → py_range a b = [].
Proof. intros H. unfold py_range. by replace (Z.to_nat (b - a)) with 0%nat by lia. Qed.

Lemma py_index_Some {A} (l : list A) (i : Z) :
  0 ≤ i < Z.of_nat (length l) → is_Some (py_index l i).
Proof.
  intros Hi. unfold py_index. destruct (Z.leb_spec 0 i); [|lia].
  apply lookup_lt_is_Some. lia.
Qed.

Lemma open_w_fresh now mode (p : path) (s : fs) :
  s !! p = None → s !! parent p = Some Dir →
  open_w now mode p s = Done tt (<[p := File "" (Meta now mode)]> s) [].
Proof. unfold open_w. by intros -> ->. Qed.

Lemma f_write_Done now (p : path) data c m (s : fs) :
  s !! p = Some (File c m) →
  f_write now p data s
  = Done tt (<[p := File (c +:+ data) (Meta now (st_mode m))]> s) [].
Proof. unfold f_write. by intros ->. Qed.

(** Writing the pages [idx] appends their markers and texts, in order. *)
Lemma write_pages_body_Done e pages f idx c (s : fs) :
  (∀ i, i ∈ idx → is_Some (py_index pages i)) →
  s !! f = Some (File c (Meta (now e) (create_mode e))) →
  for_each idx (λ page_i,
    match py_index pages page_i with
    | None => raise IndexError
    | Some page =>
        let text := default "" (extract_text page) in
        bind (f_write (now e) f (page_marker page_i))
             (λ _, f_write (now e) f text)
    end) s
  = Done tt (<[f := File (c +:+ render_pages pages idx)
                          (Meta (now e) (create_mode e))]> s) [].
Proof.
  revert c s. induction idx as [|i idx IH]; intros c s Hidx Hf.
  - simpl. rewrite str_app_nil_r, insert_id by done. done.
  - unfold for_each in *. simpl.
    destruct (Hidx i ltac:(left)) as [pg Hpg].
    unfold bind. rewrite Hpg.
    erewrite f_write_Done by done.
    erewrite f_write_Done by (by rewrite lookup_insert_eq).
    simpl. rewrite insert_insert_eq. erewrite IH; cycle 1.
    + intros j Hj. apply Hidx. by right.
    + by rewrite lookup_insert_eq.
    + rewrite insert_insert_eq. unfold page_text. rewrite Hpg.
      by rewrite !str_app_assoc.
Qed.

Lemma write_pages_Done e pages f start end_ (s : fs) :
  0 ≤ start → end_ < Z.of_nat (length pages) →
  s !! f = Some (File "" (Meta (now e) (create_mode e))) →
  write_pages e pages f start end_ s
  = Done tt (<[f := batch_file e pages (start, end_)]> s) [].
Proof.
  intros Hs He Hf. unfold write_pages, batch_file.
  rewrite (write_pages_body_Done e pages f _ ""); [done| |done].
  intros i Hi. apply elem_of_py_range in Hi. apply py_index_Some. lia.
Qed.

(** Batches that start at different pages get different file names. *)
Lemma out_name_inj_start (a b a' b' : Z) :
  0 ≤ a → 0 ≤ a' → out_name a b = out_name a' b' → a = a'.
Proof.
  intros Ha Ha' H. unfold out_name in H.
  apply (inj (String.app "cpp-draft.p")) in H.
  apply (digits_split _ _ _ _ "-"%char) in H;
    [|done|by apply format_04d_digits; lia..].
  apply format_04d_inj in H; lia.
Qed.

Lemma batch_path_ne_start out (a b a' b' : Z) :
  0 ≤ a → 0 ≤ a' → a ≠ a' → batch_path out (a, b) ≠ batch_path out (a', b').
Proof.
  intros Ha Ha' Hne H. unfold batch_path in H. simpl in H.
  apply app_inv_head in H.
  assert (out_name a b = out_name a' b') as Hn by congruence.
  by apply out_name_inj_start in Hn.
Qed.

Lemma out_ne_child (out : path) (n : string) : out ++ [n] ≠ out.
Proof.
  intros H. apply (f_equal length) in H. rewrite length_app in H. simpl in H. lia.
Qed.

(** With a positive batch size the loop ends after one iteration per
    batch and leaves one file per batch. *)
Lemma cpp_loop_Done e pages out k fuel start (s : fs) :
  1 ≤ k → 0 ≤ start →
  (length (batches_from (Z.of_nat (length pages)) k start) ≤ fuel)%nat →
  s !! out = Some Dir →
  (∀ a b, start ≤ a → s !! batch_path out (a, b) = None) →
  cpp_loop e pages out k fuel start s
  = Done tt
      (write_batches e pages out
         (batches_from (Z.of_nat (length pages)) k start) s)
      (batch_log out (batches_from (Z.of_nat (length pages)) k start)).
Proof.
  set (total := Z.of_nat (length pages)).
  intros Hk. revert start s.
  induction fuel as [|fuel IH]; intros start s Hstart Hfuel Hout Hfresh.
  - destruct (Z.lt_ge_cases start total) as [Hlt|Hge].
    + rewrite batches_from_cons in Hfuel by lia. simpl in Hfuel. lia.
    + rewrite batches_from_nil by lia. simpl. fold total.
      by destruct (Z.ltb_spec start total); [lia|].
  - simpl. fold total.
    destruct (Z.ltb_spec start total) as [Hlt|Hge].
    + rewrite batches_from_cons in * by lia. simpl in Hfuel.
      unfold next_start in *.
      set (end_ := Z.min (total - 1) (start + k - 1)) in *.
      set (f := out ++ [out_name start end_]).
      assert (f = batch_path out (start, end_)) as Hf by done.
      assert (s !! f = None) as Hnone by (rewrite Hf; apply Hfresh; lia).
      assert (s !! parent f = Some Dir) as Hpar by (unfold f; by rewrite parent_snoc).
      unfold bind at 1. unfold say, print.
      unfold bind at 1. rewrite (open_w_fresh _ _ _ _ Hnone Hpar).
      unfold bind at 1.
      rewrite write_pages_Done; [|lia|lia|by rewrite lookup_insert_eq].
      rewrite insert_insert_eq.
      rewrite IH; [|lia|lia| |].
      * replace (name f) with (out_name start end_)
          by (unfold f; by rewrite name_snoc).
        simpl. by rewrite Hf.
      * rewrite lookup_insert_ne; [done|]. apply out_ne_child.
      * intros a b Ha. rewrite lookup_insert_ne; [apply Hfresh; lia|].
        rewrite Hf. apply batch_path_ne_start; lia.
    + by rewrite batches_from_nil by lia.
Qed.

(** With a batch size of zero or less the loop never reaches its exit:
    whatever the fuel, it is still running when the fuel is gone. *)
Lemma cpp_loop_diverges e pages out k fuel start (s : fs) :
  k ≤ 0 → start < Z.of_nat (length pages) →
  s !! out = Some Dir →
  (∀ n, is_dir s (out ++ [n]) = false) →
  cpp_loop e pages out k fuel start s = OutOfFuel.
Proof.
  set (total := Z.of_nat (length pages)).
  intros Hk. revert start s.
  induction fuel as [|fuel IH]; intros start s Hstart Hout Hnodir; simpl;
    fold total; destruct (Z.ltb_spec start total) as [_|?]; try lia; [done|].
  set (end_ := Z.min (total - 1) (start + k - 1)).
  set (f := out ++ [out_name start end_]).
  assert (∃ s1, open_w (now e) (create_mode e) f s = Done tt s1 []
                ∧ s1 !! out = Some Dir
                ∧ ∀ n, is_dir s1 (out ++ [n]) = false) as (s1 & Hopen & Hout1 & Hnodir1).
  { unfold open_w. specialize (Hnodir (out_name start end_)) as Hf.
    unfold is_dir in Hf. fold f in Hf.
    assert (∀ x, ∀ n, is_dir (<[f := File "" x]> s) (out ++ [n]) = false) as Hins.
    { intros x n. unfold is_dir. destruct (decide (out ++ [n] = f)) as [->|Hne].
      - by rewrite lookup_insert_eq.
      - rewrite lookup_insert_ne by done. apply Hnodir. }
    destruct (s !! f) as [[|c m]|] eqn:E; [done|..].
    - eexists. split; [done|]. split; [|apply Hins].
      rewrite lookup_insert_ne; [done|]. apply out_ne_child.
    - unfold f. rewrite parent_snoc, Hout. fold f.
      eexists. split; [done|]. split; [|apply Hins].
      rewrite lookup_insert_ne; [done|]. apply out_ne_child. }
  unfold bind at 1. unfold say, print.
  unfold bind at 1. rewrite Hopen.
  unfold bind at 1. unfold write_pages.
  rewrite py_range_nil by lia. unfold for_each. simpl. unfold ret.
  rewrite IH; [done|lia|done..].
Qed.

End CppLoop.

(* ===================================================================== *)
(** * paginate-pdf: the whole build *)
(* ===================================================================== *)

Module CppBuild.
Import Fs Spec Text Build PathFacts MonadFacts FsFacts Frame BuildFrame.
Import TextFacts CppFacts Partition CppLoop.
Local Open Scope fs_scope.

(** The raw input of a language is neither below nor above its output
    directory. *)
Lemma raw_out_apart root l q :
  under (raw_path root l) q →
  ¬ (q `prefix_of` out_path root l ∨ under (out_path root l) q).
Proof.
  intros Hq [H|H].
  - eapply (prefix_diverge (lang_dir root l) (tl (out_rel l))
              (tl (raw_rel l)) q (out_path root l)
              (raw_path root l) "docs" (hd "" (raw_rel l)));
      [|by destruct l..|done|done]. by destruct l.
  - eapply (under_diverge (lang_dir root l) (tl (out_rel l))
              (tl (raw_rel l)) q (out_path root l)
              (raw_path root l) "docs" (hd "" (raw_rel l)));
      [|by destruct l..|done|done]. by destruct l.
Qed.

Lemma reset_state_raw root l (s : fs) q :
  under (raw_path root l) q →
  reset_state (out_path root l) s !! q = s !! q.
Proof.
  intros Hq. pose proof (raw_out_apart root l q Hq) as Hap.
  rewrite lookup_reset_state. rewrite decide_False by tauto.
  destruct (s !! q); [done|]. rewrite decide_False by tauto. done.
Qed.

Lemma reset_state_out (p : path) (s : fs) : reset_state p s !! p = Some Dir.
Proof.
  rewrite lookup_reset_state. rewrite decide_True by apply under_refl.
  by rewrite decide_True.
Qed.

Lemma reset_state_empty (p : path) (s : fs) q :
  strictly_under p q → reset_state p s !! q = None.
Proof.
  intros [Hu Hne]. rewrite lookup_reset_state. rewrite decide_True by done.
  by rewrite decide_False.
Qed.

(** Up to its loop, paginate-pdf is straight-line code. *)
Lemma build_cpp_reaches_loop e root k fuel (s : fs) reader c m pages :
  pypdf e = Some reader → wf s → resettable s (out_path root Cpp) →
  s !! raw_path root Cpp = Some (File c m) → reader c = Some pages →
  build_cpp e root k fuel s =
    match cpp_loop e pages (out_path root Cpp) k fuel 0
            (reset_state (out_path root Cpp) s) with
    | Done _ s' o => Done tt s' (cpp_header (Z.of_nat (length pages)) k ++ o)
    | Raised e' s' o => Raised e' s' (cpp_header (Z.of_nat (length pages)) k ++ o)
    | OutOfFuel => OutOfFuel
    end.
Proof.
  intros Hpy Hwf Hres Hpdf Hparse. unfold build_cpp. rewrite Hpy.
  rewrite bind_gets. unfold exists_. rewrite Hpdf. cbn [negb].
  unfold bind at 1. unfold say, print.
  unfold bind at 1. rewrite reset_dir_Done by done.
  unfold bind at 1. unfold pdf_reader.
  rewrite reset_state_raw by apply under_refl. rewrite Hpdf, Hparse.
  unfold bind at 1.
  by destruct (cpp_loop _ _ _ _ _ _ _) as [[] ? ?| |].
Qed.

Lemma batch_start_nonneg total k i a b :
  1 ≤ k → batches total k !! i = Some (a, b) → 0 ≤ a.
Proof. intros Hk H. apply lookup_batches in H as (_ & -> & _). nia. Qed.

Lemma NoDup_batch_paths out total k :
  1 ≤ k → NoDup (batch_path out <$> batches total k).
Proof.
  intros Hk. apply NoDup_alt. intros i j q Hi Hj.
  rewrite list_lookup_fmap in Hi, Hj.
  destruct (batches total k !! i) as [[a b]|] eqn:Ei; [|done].
  destruct (batches total k !! j) as [[a' b']|] eqn:Ej; [|done].
  simpl in *. injection Hi as <-. injection Hj as Hj.
  destruct (decide (a = a')) as [Heq|Hne].
  - apply lookup_batches in Ei as (_ & -> & _).
    apply lookup_batches in Ej as (_ & -> & _). nia.
  - exfalso. symmetry in Hj. revert Hj. apply batch_path_ne_start; [..|done].
    + by eapply batch_start_nonneg.
    + by eapply batch_start_nonneg.
Qed.

Lemma lookup_write_batches_notin e pages out bs (s : fs) q :
  (∀ b, b ∈ bs → q ≠ batch_path out b) →
  write_batches e pages out bs s !! q = s !! q.
Proof.
  revert s. induction bs as [|b bs IH]; intros s Hq; [done|].
  simpl. rewrite IH by (intros b' Hb'; apply Hq; by right).
  rewrite lookup_insert_ne; [done|]. intros H. by apply (Hq b); [left|].
Qed.

Lemma lookup_write_batches_in e pages out bs (s : fs) b :
  NoDup (batch_path out <$> bs) → b ∈ bs →
  write_batches e pages out bs s !! batch_path out b = Some (batch_file e pages b).
Proof.
  revert s. induction bs as [|b0 bs IH]; intros s Hnd Hb.
  - by apply elem_of_nil in Hb.
  - simpl in *. apply NoDup_cons in Hnd as [Hnotin Hnd].
    destruct (decide (batch_path out b ∈ batch_path out <$> bs)) as [Hin|Hnin].
    + apply elem_of_cons in Hb as [->|Hb]; [done|]. by apply IH.
    + apply elem_of_cons in Hb as [->|Hb].
      * rewrite lookup_write_batches_notin; [by rewrite lookup_insert_eq|].
        intros b' Hb' Heq. apply Hnin. rewrite Heq.
        apply list_elem_of_fmap. by exists b'.
      * destruct Hnin. apply list_elem_of_fmap. by exists b.
Qed.

(** With a positive batch size and enough fuel paginate-pdf completes,
    and its final state is the reset state plus one file per batch. *)
Lemma build_cpp_Done e root k fuel (s : fs) reader c m pages :
  pypdf e = Some reader → wf s → resettable s (out_path root Cpp) →
  s !! raw_path root Cpp = Some (File c m) → reader c = Some pages →
  1 ≤ k →
  (Z.to_nat (ceil_div (Z.of_nat (length pages)) k) ≤ fuel)%nat →
  build_cpp e root k fuel s =
    Done tt
      (write_batches e pages (out_path root Cpp)
         (batches (Z.of_nat (length pages)) k)
         (reset_state (out_path root Cpp) s))
      (cpp_header (Z.of_nat (length pages)) k
         ++ batch_log (out_path root Cpp) (batches (Z.of_nat (length pages)) k)).
Proof.
  intros Hpy Hwf Hres Hpdf Hparse Hk Hfuel.
  rewrite (build_cpp_reaches_loop e root k fuel s reader c m pages) by done.
  rewrite cpp_loop_Done; [done|done|done| | |].
  - fold (batches (Z.of_nat (length pages)) k). by rewrite length_batches.
  - apply reset_state_out.
  - intros a b _. apply reset_state_empty. apply strictly_under_snoc.
Qed.

End CppBuild.

(* ===================================================================== *)
(** * paginate-pdf: the claims *)
(* ===================================================================== *)

Module CppClaims.
Import Fs Spec Text Build PathFacts MonadFacts FsFacts Frame BuildFrame.
Import TextFacts CppFacts Partition CppLoop CppBuild.
Local Open Scope fs_scope.

Lemma elem_of_rglob_all (s : fs) (p q : path) :
  is_dir s p = true →
  q ∈ rglob_all s p ↔ strictly_under p q ∧ is_Some (s !! q).
Proof.
  intros Hd. unfold rglob_all. rewrite Hd.
  rewrite list_elem_of_filter, elem_of_keys. done.
Qed.

Lemma NoDup_rglob_all (s : fs) (p : path) : NoDup (rglob_all s p).
Proof.
  unfold rglob_all. destruct (is_dir s p); [|constructor].
  apply NoDup_filter, NoDup_keys.
Qed.

Lemma rglob_all_not_dir (s : fs) (p : path) :
  is_dir s p = false → rglob_all s p = [].
Proof. unfold rglob_all. by intros ->. Qed.

(** The entries of the output directory after paginate-pdf are the batch
    files and nothing else. *)
Lemma cpp_output_entries e pages out total k (s : fs) :
  1 ≤ k →
  rglob_all (write_batches e pages out (batches total k) (reset_state out s)) out
  ≡ₚ batch_path out <$> batches total k.
Proof.
  intros Hk. set (s' := write_batches _ _ _ _ _).
  assert (s' !! out = Some Dir) as Hout.
  { unfold s'. rewrite lookup_write_batches_notin; [apply reset_state_out|].
    intros b _ H. symmetry in H. by apply out_ne_child in H. }
  apply NoDup_Permutation;
    [apply NoDup_rglob_all | by apply NoDup_batch_paths |].
  intros q. rewrite elem_of_rglob_all by by apply is_dir_Some.
  rewrite list_elem_of_fmap. split.
  - intros [Hq [x Hx]].
    destruct (decide (q ∈ batch_path out <$> batches total k)) as [Hin|Hnin].
    + by apply list_elem_of_fmap in Hin.
    + unfold s' in Hx. rewrite lookup_write_batches_notin in Hx.
      * by rewrite reset_state_empty in Hx.
      * intros b Hb ->. apply Hnin. apply list_elem_of_fmap. by exists b.
  - intros (b & -> & Hb). split; [apply strictly_under_snoc|].
    unfold s'. rewrite lookup_write_batches_in; [done| |done].
    by apply NoDup_batch_paths.
Qed.

(** C1.  For a draft of [T] pages and a batch size [k >= 1] (and fuel for
    [ceil(T/k)] iterations), paginate-pdf completes; the entries of the
    output directory are then exactly the files of the batches, one
    regular file per batch, [ceil(T/k)] in number; the batches cut the
    pages [1..T] into consecutive, non-overlapping ranges of [k] pages
    (the last may be shorter) whose union is [1..T]; and the file of the
    batch [(a, b)] (0-based, inclusive) is named with [a+1] and [b+1]
    zero-padded to at least four digits. *)
Theorem paginate_pdf_batches e root k fuel (s : fs) pages :
  cpp_input e root s pages → 1 ≤ k →
  (Z.to_nat (ceil_div (Z.of_nat (length pages)) k) ≤ fuel)%nat →
  ∃ s' o,
    build_cpp e root k fuel s = Done tt s' o
    ∧ rglob_all s' (out_path root Cpp)
        ≡ₚ batch_path (out_path root Cpp) <$> batches (Z.of_nat (length pages)) k
    ∧ (∀ b, b ∈ batches (Z.of_nat (length pages)) k →
         is_file s' (batch_path (out_path root Cpp) b) = true)
    ∧ Z.of_nat (length (rglob_all s' (out_path root Cpp)))
        = ceil_div (Z.of_nat (length pages)) k
    ∧ page_partition k (Z.of_nat (length pages))
        (batches (Z.of_nat (length pages)) k)
    ∧ (∀ a b, (a, b) ∈ batches (Z.of_nat (length pages)) k →
         batch_path (out_path root Cpp) (a, b)
         = out_path root Cpp
             ++ ["cpp-draft.p" +:+ zfill 4 (str_of_int (a + 1)) +:+ "-p"
                   +:+ zfill 4 (str_of_int (b + 1)) +:+ ".txt"]
         ∧ (4 ≤ String.length (zfill 4 (str_of_int (a + 1))))%nat
         ∧ (4 ≤ String.length (zfill 4 (str_of_int (b + 1))))%nat).
Proof.
  intros (Hwf & Hres & reader & c & m & Hpy & Hpdf & Hparse) Hk Hfuel.
  rewrite (build_cpp_Done e root k fuel s reader c m pages) by done.
  set (T := Z.of_nat (length pages)) in *.
  eexists _, _. split; [done|].
  pose proof (cpp_output_entries e pages (out_path root Cpp) T k s Hk) as Hperm.
  split; [done|]. split; [|split; [|split]].
  - intros b Hb. apply is_file_Some. eexists _, _.
    apply lookup_write_batches_in; [by apply NoDup_batch_paths|done].
  - rewrite Hperm, length_fmap, length_batches.
    assert (0 ≤ ceil_div T k) by (apply Z.div_pos; lia). lia.
  - apply batches_partition; lia.
  - intros a b Hab. apply list_elem_of_lookup in Hab as [i Hi].
    pose proof (batch_start_nonneg _ _ _ _ _ Hk Hi) as Ha.
    pose proof (batches_partition T k Hk ltac:(lia)) as (Hsz & _).
    destruct (Hsz i a b Hi) as [Hab _].
    split; [|split; apply zfill_length].
    unfold batch_path, out_name. simpl.
    by rewrite !format_04d_nonneg by lia.
Qed.

(** The page marker, character by character: two line feeds (the
    character of code 10), the marker line, two line feeds. *)
Lemma page_marker_line_feeds (i : Z) (rest : string) :
  page_marker i +:+ rest
  = String "010"%char (String "010"%char
      ("===== PAGE " +:+ str_of_int (i + 1) +:+ " ====="
         +:+ String "010"%char (String "010"%char rest))).
Proof.
  unfold page_marker, nl. simpl.
  by rewrite !str_app_assoc.
Qed.

Lemma render_pages_line_feeds (pages : list page) (idx : list Z) :
  render_pages pages idx
  = foldr (λ i acc,
             String "010"%char (String "010"%char
               ("===== PAGE " +:+ str_of_int (i + 1) +:+ " ====="
                  +:+ String "010"%char (String "010"%char
                        (page_text pages i +:+ acc)))))
          "" idx.
Proof.
  induction idx as [|i idx IH]; [done|].
  simpl. rewrite <- IH. apply page_marker_line_feeds.
Qed.

(** C6.  Under the same conditions, the file of every batch [(a, b)]
    holds, for the pages [a..b] in ascending order: two line feeds (the
    character of code 10, written ["010"%char]), which end the text
    before and leave a blank line; the line [===== PAGE n =====] with the
    1-based page number [n]; two line feeds, which end the marker line
    and leave a blank line; then the text extracted from the page.  The
    text is empty when extraction yields nothing.  The line feeds are
    written out in the statement, so that it speaks of the characters in
    the file and not of a constant of the script. *)
Theorem paginate_pdf_content e root k fuel (s : fs) pages :
  cpp_input e root s pages → 1 ≤ k →
  (Z.to_nat (ceil_div (Z.of_nat (length pages)) k) ≤ fuel)%nat →
  ∃ s' o,
    build_cpp e root k fuel s = Done tt s' o
    ∧ ∀ a b, (a, b) ∈ batches (Z.of_nat (length pages)) k →
        s' !! batch_path (out_path root Cpp) (a, b)
        = Some (File
            (foldr (λ i acc,
                      String "010"%char (String "010"%char
                        ("===== PAGE " +:+ str_of_int (i + 1) +:+ " ====="
                           +:+ String "010"%char (String "010"%char
                                 (page_text pages i +:+ acc)))))
                   "" ((λ j, a + Z.of_nat j) <$> seq 0 (Z.to_nat (b - a + 1))))
            (Meta (now e) (create_mode e)))
        ∧ ∀ i, a ≤ i ≤ b →
            ∃ pg, pages !! Z.to_nat i = Some pg
                  ∧ page_text pages i = default "" (extract_text pg)
                  ∧ (extract_text pg = None → page_text pages i = "").
Proof.
  intros (Hwf & Hres & reader & c & m & Hpy & Hpdf & Hparse) Hk Hfuel.
  rewrite (build_cpp_Done e root k fuel s reader c m pages) by done.
  set (T := Z.of_nat (length pages)) in *.
  eexists _, _. split; [done|].
  intros a b Hab. split.
  - rewrite lookup_write_batches_in; [|by apply NoDup_batch_paths|done].
    unfold batch_file. rewrite render_pages_line_feeds.
    unfold py_range. simpl.
    by replace (b + 1 - a) with (b - a + 1) by lia.
  - intros i Hi. apply list_elem_of_lookup in Hab as [j Hj].
    pose proof (batch_start_nonneg _ _ _ _ _ Hk Hj) as Ha.
    apply lookup_batches in Hj as (_ & _ & Hb).
    assert (0 ≤ i < T) as HiT by lia.
    destruct (lookup_lt_is_Some_2 pages (Z.to_nat i) ltac:(lia)) as [pg Hpg].
    exists pg. split; [done|].
    assert (page_text pages i = default "" (extract_text pg)) as Htxt.
    { unfold page_text, py_index. destruct (Z.leb_spec 0 i); [|lia].
      by rewrite Hpg. }
    split; [done|]. intros Hnone. by rewrite Htxt, Hnone.
Qed.

(** C8.  For a draft without pages paginate-pdf completes, whatever the
    batch size and the fuel, and leaves the freshly reset output
    directory empty. *)
Theorem paginate_pdf_empty e root k fuel (s : fs) :
  cpp_input e root s [] →
  ∃ s' o,
    build_cpp e root k fuel s = Done tt s' o
    ∧ s' !! out_path root Cpp = Some Dir
    ∧ rglob_all s' (out_path root Cpp) = []
    ∧ ∀ q, strictly_under (out_path root Cpp) q → s' !! q = None.
Proof.
  intros (Hwf & Hres & reader & c & m & Hpy & Hpdf & Hparse).
  rewrite (build_cpp_reaches_loop e root k fuel s reader c m []) by done.
  assert (cpp_loop e [] (out_path root Cpp) k fuel 0
            (reset_state (out_path root Cpp) s)
          = Done tt (reset_state (out_path root Cpp) s) []) as ->.
  { by destruct fuel. }
  eexists _, _. split; [done|]. split; [apply reset_state_out|].
  split; [|intros q Hq; by apply reset_state_empty].
  apply elem_of_nil_inv. intros q Hq.
  apply elem_of_rglob_all in Hq as [Hq [x Hx]];
    [|apply is_dir_Some, reset_state_out].
  by rewrite reset_state_empty in Hx.
Qed.

Lemma next_start_nonpos total k start :
  k ≤ 0 → start ≤ 0 → 0 < total → next_start total k start ≤ 0.
Proof. unfold next_start. lia. Qed.

(** C9.  With a batch size of zero or less and a draft of at least one
    page, paginate-pdf neither completes nor raises: for every amount of
    fuel the run is still inside the loop when the fuel is used up, and
    the loop variable [start], iterated from 0, stays below the page
    count forever. *)
Theorem paginate_pdf_diverges e root k fuel (s : fs) pages :
  cpp_input e root s pages → k ≤ 0 → (1 ≤ length pages)%nat →
  build_cpp e root k fuel s = OutOfFuel
  ∧ ∀ n, Nat.iter n (next_start (Z.of_nat (length pages)) k) 0
         < Z.of_nat (length pages).
Proof.
  intros (Hwf & Hres & reader & c & m & Hpy & Hpdf & Hparse) Hk HT. split.
  - rewrite (build_cpp_reaches_loop e root k fuel s reader c m pages) by done.
    rewrite cpp_loop_diverges; [done|done|lia|apply reset_state_out|].
    intros n. unfold is_dir.
    by rewrite reset_state_empty by apply strictly_under_snoc.
  - intros n.
    assert (Nat.iter n (next_start (Z.of_nat (length pages)) k) 0 ≤ 0); [|lia].
    induction n as [|n IH]; [done|]. simpl. apply next_start_nonpos; lia.
Qed.

End CppClaims.

(* ===================================================================== *)
(** * Missing prerequisites *)
(* ===================================================================== *)

Module Prerequisite.
Import Fs Spec Text Build PathFacts MonadFacts FsFacts Frame BuildFrame.
Local Open Scope fs_scope.

(** Every build is: check the raw input, announce, reset the output
    directory, populate it. *)
Lemma build_unfold e root k fuel l (s : fs) :
  (l = Cpp → is_Some (pypdf e)) →
  build e root k fuel l s =
    if exists_ s (raw_path root l)
    then bind (say (hello l))
           (λ _, bind (reset_dir (out_path root l))
                   (λ _, populate e root k fuel l)) s
    else Raised (SystemExit (missing_msg l)) s [].
Proof.
  intros Hpy. destruct l; simpl.
  - unfold build_python. rewrite bind_gets.
    by destruct (exists_ s (raw_path root Python)).
  - unfold build_javascript. rewrite bind_gets.
    by destruct (exists_ s (raw_path root Javascript)).
  - unfold build_swift. rewrite bind_gets.
    by destruct (exists_ s (raw_path root Swift)).
  - unfold build_cpp. destruct (Hpy eq_refl) as [reader ->].
    rewrite bind_gets.
    by destruct (exists_ s (raw_path root Cpp)).
Qed.

Lemma build_cpp_no_pypdf e root k fuel (s : fs) :
  pypdf e = None →
  build_cpp e root k fuel s = Raised (SystemExit missing_dependency_msg) s [].
Proof. unfold build_cpp. by intros ->. Qed.

(** When the path a build tests does not exist (and [pypdf] can be
    imported, for the cpp build), the build raises [SystemExit] with its
    missing-input message before it prints or changes anything. *)
Lemma missing_raw_path e root k fuel l (s : fs) :
  exists_ s (raw_path root l) = false →
  (l = Cpp → is_Some (pypdf e)) →
  build e root k fuel l s = Raised (SystemExit (missing_msg l)) s [].
Proof. intros Hraw Hpy. by rewrite build_unfold, Hraw. Qed.

Lemma missing_msg_hint (l : language) :
  Text.ends_with fetch_hint (missing_msg l) = true.
Proof. by destruct l. Qed.

End Prerequisite.

(* ===================================================================== *)
(** * Runs that differ only in file metadata *)
(* ===================================================================== *)

Module Sim.
Import Fs Spec Text Build PathFacts MonadFacts FsFacts.
Local Open Scope fs_scope.

Lemma contents_lookup (s1 s2 : fs) (p : path) :
  contents s1 = contents s2 → content_of <$> s1 !! p = content_of <$> s2 !! p.
Proof.
  intros H. apply (f_equal (λ m : gmap path (option string), m !! p)) in H.
  unfold contents in H. by rewrite !lookup_fmap in H.
Qed.

Lemma contents_insert (s : fs) (p : path) (x : node) :
  contents (<[p := x]> s) = <[p := content_of x]> (contents s).
Proof. unfold contents. by rewrite fmap_insert. Qed.

Lemma contents_insert_sim (s1 s2 : fs) (p : path) c m1 m2 :
  contents s1 = contents s2 →
  contents (<[p := File c m1]> s1) = contents (<[p := File c m2]> s2).
Proof. intros H. by rewrite !contents_insert, H. Qed.

Lemma sim_refl_eq {A : Type} (m : M A) :
  (∀ s1 s2, contents s1 = contents s2 → sim_outcome (m s1) (m s2)) → sim m m.
Proof. done. Qed.

Lemma sim_ret {A : Type} (a : A) : sim (ret a) (ret a).
Proof. by intros s1 s2 H. Qed.

Lemma sim_raise {A : Type} e : sim (raise (A := A) e) (raise e).
Proof. by intros s1 s2 H. Qed.

Lemma sim_print line : sim (print line) (print line).
Proof. by intros s1 s2 H. Qed.

Lemma sim_bind {A B : Type} (m1 m2 : M A) (k1 k2 : A → M B) :
  sim m1 m2 → (∀ a, sim (k1 a) (k2 a)) → sim (bind m1 k1) (bind m2 k2).
Proof.
  intros Hm Hk s1 s2 H. specialize (Hm s1 s2 H). unfold bind.
  destruct (m1 s1) as [a s1' o1| |], (m2 s2) as [b s2' o2| |]; try done.
  destruct Hm as (Ha & Hs & Ho). subst a o1. specialize (Hk b s1' s2' Hs).
  destruct (k1 b s1') as [a' s1'' o1'| |], (k2 b s2') as [b' s2'' o2'| |];
    try done.
  - destruct Hk as (Ha & ? & Ho). by subst.
  - destruct Hk as (Ha & ? & Ho). by subst.
Qed.

Lemma sim_for_each {A : Type} (l : list A) (b1 b2 : A → M unit) :
  (∀ x, sim (b1 x) (b2 x)) → sim (for_each l b1) (for_each l b2).
Proof.
  intros Hb. unfold for_each. induction l as [|x l IH]; simpl.
  - apply sim_ret.
  - apply sim_bind; [apply Hb | intros []; apply IH].
Qed.

Lemma sim_open_w now1 mode1 now2 mode2 (p : path) :
  sim (open_w now1 mode1 p) (open_w now2 mode2 p).
Proof.
  intros s1 s2 H. unfold open_w.
  pose proof (contents_lookup s1 s2 p H) as Hp.
  pose proof (contents_lookup s1 s2 (parent p) H) as Hpar.
  destruct (s1 !! p) as [[|c1 m1]|], (s2 !! p) as [[|c2 m2]|];
    simplify_eq/=; try done.
  - split; [done|]. split; [|done]. by apply contents_insert_sim.
  - destruct (s1 !! parent p) as [[|c1 m1]|], (s2 !! parent p) as [[|c2 m2]|];
      simplify_eq/=; try done.
    split; [done|]. split; [|done]. by apply contents_insert_sim.
Qed.

Lemma sim_f_write now1 now2 (p : path) data :
  sim (f_write now1 p data) (f_write now2 p data).
Proof.
  intros s1 s2 H. unfold f_write.
  pose proof (contents_lookup s1 s2 p H) as Hp.
  destruct (s1 !! p) as [[|c1 m1]|], (s2 !! p) as [[|c2 m2]|];
    simplify_eq/=; try done.
  split; [done|]. split; [|done]. by apply contents_insert_sim.
Qed.

Lemma sim_pdf_reader parse (pdf : path) :
  sim (pdf_reader parse pdf) (pdf_reader parse pdf).
Proof.
  intros s1 s2 H. unfold pdf_reader.
  pose proof (contents_lookup s1 s2 pdf H) as Hp.
  destruct (s1 !! pdf) as [[|c1 m1]|], (s2 !! pdf) as [[|c2 m2]|];
    simplify_eq/=; try done.
  by destruct (parse c2).
Qed.

Lemma sim_write_pages e1 e2 pages f start end_ :
  sim (write_pages e1 pages f start end_) (write_pages e2 pages f start end_).
Proof.
  unfold write_pages. apply sim_for_each. intros i.
  destruct (py_index pages i); [|apply sim_raise].
  apply sim_bind; [apply sim_f_write | intros _; apply sim_f_write].
Qed.

Lemma sim_cpp_loop e1 e2 pages out k fuel start :
  sim (cpp_loop e1 pages out k fuel start) (cpp_loop e2 pages out k fuel start).
Proof.
  revert start. induction fuel as [|fuel IH]; intros start; simpl.
  - destruct (_ <? _); [by intros s1 s2 H | apply sim_ret].
  - destruct (_ <? _); [|apply sim_ret].
    apply sim_bind; [apply sim_print|]. intros _.
    apply sim_bind; [apply sim_open_w|]. intros _.
    apply sim_bind; [apply sim_write_pages|]. intros _. apply IH.
Qed.

(** The clock and the creation mode do not influence what a build
    writes, only the metadata of the files it creates. *)
Lemma sim_populate e1 e2 root k fuel l :
  pypdf e2 = pypdf e1 → (l = Cpp → is_Some (pypdf e1)) →
  ∀ s, sim_outcome (populate e1 root k fuel l s) (populate e2 root k fuel l s).
Proof.
  intros Hpy Hsome s. destruct l; simpl.
  1-3: by destruct (bind _ _ s) as [[] ? ?| |].
  rewrite Hpy. destruct (Hsome eq_refl) as [reader ->].
  apply sim_bind; [apply sim_pdf_reader| |done]. intros pages.
  apply sim_bind; [apply sim_print|]. intros _. apply sim_cpp_loop.
Qed.

End Sim.

(* ===================================================================== *)
(** * Idempotence of the builds *)
(* ===================================================================== *)

Module Idempotence.
Import Fs Spec Text Build PathFacts MonadFacts FsFacts Frame BuildFrame.
Import CppBuild Prerequisite Sim.
Local Open Scope fs_scope.

Lemma strictly_under_child_app (out : path) (x : string) (rel : path) :
  strictly_under out ((out ++ [x]) ++ rel).
Proof.
  rewrite <- app_assoc. apply strictly_under_app. by exists ([x] ++ rel).
Qed.

(** Once the output directory exists, populating it changes nothing but
    what lies strictly below it. *)
Lemma within_populate e root k fuel l :
  steps (within (out_path root l)) (populate e root k fuel l).
Proof.
  set (out := out_path root l).
  assert (PreOrder (within out)) as HR by apply _.
  destruct l; simpl.
  - apply steps_bind; [done| |].
    + apply steps_copy_tree; [done|..].
      * intros rel. apply within_ensure_dir, under_app.
      * intros rel n p. apply within_copy2. rewrite <- app_assoc.
        apply strictly_under_app_snoc.
    + intros _. apply steps_bind; [done|by apply steps_gets|].
      intros n. by apply steps_say.
  - apply steps_bind; [done|apply within_copy2, strictly_under_snoc|]. intros _.
    apply steps_bind; [done|apply within_stat_size|].
    intros n. by apply steps_say.
  - apply steps_bind; [done| |].
    + apply steps_copy_matching_files; [done|..].
      * intros rel. apply within_ensure_dir, parent_under.
      * intros rel p. apply within_copy2, strictly_under_child_app.
    + intros copied. apply steps_bind; [done|by apply steps_gets|].
      intros lic. apply steps_bind; [done| |intros _; by apply steps_say].
      destruct lic; [apply within_copy2, strictly_under_snoc | by apply steps_ret].
  - destruct (pypdf e) as [reader|]; [|by apply steps_ret].
    apply steps_bind; [done|by apply steps_pdf_reader|]. intros pages.
    apply steps_bind; [done|by apply steps_say|]. intros _.
    apply steps_cpp_loop; [done|..].
    + intros n. apply within_open_w, strictly_under_snoc.
    + intros n data. apply within_f_write, strictly_under_snoc.
Qed.

Lemma reset_state_prefixes (p : path) (s : fs) q :
  q `prefix_of` p → is_Some (reset_state p s !! q).
Proof.
  intros Hq. rewrite lookup_reset_state.
  case_decide as Hu.
  - rewrite decide_True; [done|]. by apply (anti_symm prefix).
  - destruct (s !! q); [done|]. by rewrite decide_True.
Qed.

Lemma reset_dir_Done_dir (s : fs) (p : path) :
  s !! p = Some Dir → resettable s p →
  reset_dir p s = Done tt (reset_state p s) [].
Proof.
  intros Hp Hres. unfold reset_dir. rewrite bind_gets.
  unfold exists_. rewrite Hp.
  eapply (bind_Done _ _ _ tt _ []); [unfold rmtree; by rewrite Hp|].
  apply ensure_dir_Done.
  intros q Hq. unfold is_file. rewrite lookup_rmtree.
  case_decide; [done|]. by apply Hres.
Qed.

(** What a completed build tells about its run. *)
Lemma build_Done_inv e root k fuel l (s s1 : fs) o1 :
  wf s → build e root k fuel l s = Done tt s1 o1 →
  (l = Cpp → is_Some (pypdf e))
  ∧ exists_ s (raw_path root l) = true
  ∧ resettable s (out_path root l)
  ∧ ∃ o, populate e root k fuel l (reset_state (out_path root l) s)
           = Done tt s1 o
         ∧ o1 = ("[kb] " +:+ hello l) :: o.
Proof.
  intros Hwf H.
  assert (l = Cpp → is_Some (pypdf e)) as Hpy.
  { intros ->. destruct (pypdf e) eqn:E; [done|].
    simpl in H. by rewrite build_cpp_no_pypdf in H. }
  split; [done|]. rewrite build_unfold in H by done.
  destruct (exists_ s (raw_path root l)); [|done]. split; [done|].
  apply bind_Done_inv in H as ([] & s0 & o0 & o' & Hsay & H & ->).
  injection Hsay as <- <-.
  apply bind_Done_inv in H as ([] & sr & o_r & o & Hreset & H & ->).
  apply reset_dir_Done_inv in Hreset as (-> & -> & Hres); [|done].
  split; [done|]. by exists o.
Qed.

Lemma build_from_reset e root k fuel l (s : fs) :
  (l = Cpp → is_Some (pypdf e)) →
  exists_ s (raw_path root l) = true →
  reset_dir (out_path root l) s
    = Done tt (reset_state (out_path root l) s) [] →
  build e root k fuel l s =
    match populate e root k fuel l (reset_state (out_path root l) s) with
    | Done _ s' o => Done tt s' (("[kb] " +:+ hello l) :: o)
    | Raised e' s' o => Raised e' s' (("[kb] " +:+ hello l) :: o)
    | OutOfFuel => OutOfFuel
    end.
Proof.
  intros Hpy Hraw Hreset. rewrite build_unfold, Hraw by done.
  unfold bind at 1. unfold say, print. unfold bind at 1. rewrite Hreset.
  by destruct (populate _ _ _ _ _ _) as [[] ? ?| |].
Qed.

Lemma dir_contents_eq (s1 s2 : fs) (d : path) :
  contents s1 = contents s2 → dir_contents s1 d = dir_contents s2 d.
Proof. unfold dir_contents. by intros ->. Qed.

(** C2.  Let a build complete from a well-formed state [s], whatever the
    output directory holds in [s], and give [s1].  Running the same
    build again from [s1] (the clock may have moved on: [e2] need only
    have the same [pypdf]) completes too, and the contents of the output
    directory after the second run are those after the first.  Moreover
    the first run itself does not depend on what the output directory
    held: from any well-formed state [s0] that agrees with [s] outside
    the output directory, and whose output path is not a regular file,
    the build completes with the very same state and output. *)
Theorem build_idempotent e1 e2 root k fuel l (s s1 : fs) o1 :
  wf s → pypdf e2 = pypdf e1 →
  build e1 root k fuel l s = Done tt s1 o1 →
  (∃ s2 o2,
     build e2 root k fuel l s1 = Done tt s2 o2
     ∧ dir_contents s2 (out_path root l) = dir_contents s1 (out_path root l)
     ∧ contents s2 = contents s1)
  ∧ (∀ s0, wf s0 →
       (∀ q, ¬ under (out_path root l) q → s0 !! q = s !! q) →
       is_file s0 (out_path root l) = false →
       build e1 root k fuel l s0 = Done tt s1 o1).
Proof.
  intros Hwf Hpy Hrun.
  destruct (build_Done_inv _ _ _ _ _ _ _ _ Hwf Hrun)
    as (Hsome & Hraw & Hres & o & Hpop & ->).
  set (out := out_path root l) in *. set (sr := reset_state out s) in *.
  pose proof (within_populate e1 root k fuel l sr s1) as Hin.
  rewrite Hpop in Hin. specialize (Hin eq_refl (reset_state_prefixes out s)).
  fold out in Hin.
  split.
  - assert (reset_state out s1 = sr) as Hsr1.
    { apply reset_state_idemp. intros q Hq. by apply Hin. }
    assert (s1 !! out = Some Dir) as Hout1.
    { rewrite Hin; [apply reset_state_out|]. intros [_ Hne]. done. }
    assert (resettable s1 out) as Hres1.
    { intros q Hq. unfold is_file.
      rewrite Hin by by apply not_strictly_under_prefix.
      unfold sr. rewrite lookup_reset_state.
      case_decide as Hu.
      - rewrite decide_True; [done|]. by apply (anti_symm prefix).
      - specialize (Hres q Hq). unfold is_file in Hres.
        destruct (s !! q) as [[|c m]|]; try done. by rewrite decide_True. }
    assert (exists_ s1 (raw_path root l) = true) as Hraw1.
    { unfold exists_ in *. rewrite Hin.
      - unfold sr, out. by rewrite reset_state_raw by apply under_refl.
      - intros [Hu _]. eapply raw_out_apart; [apply under_refl|]. by right. }
    rewrite build_from_reset; [|by rewrite Hpy|done|].
    2:{ fold out. rewrite reset_dir_Done_dir by done. done. }
    fold out. rewrite Hsr1.
    pose proof (sim_populate e1 e2 root k fuel l Hpy Hsome sr) as Hsim.
    rewrite Hpop in Hsim.
    destruct (populate e2 root k fuel l sr) as [[] s2 o2| |]; [|done..].
    destruct Hsim as (_ & Hc & <-).
    eexists _, _. split; [done|]. split; [by apply dir_contents_eq|done].
  - intros s0 Hwf0 Hagree Hnf.
    assert (resettable s0 out) as Hres0.
    { intros q Hq. destruct (decide (q = out)) as [->|Hne]; [done|].
      unfold is_file. rewrite Hagree; [by apply Hres|].
      intros Hu. apply Hne. by apply (anti_symm prefix). }
    assert (reset_state out s0 = sr) as Hsr0.
    { apply map_eq. intros q. unfold sr. rewrite !lookup_reset_state.
      case_decide; [done|]. by rewrite Hagree. }
    rewrite build_from_reset; [|done| |].
    + fold out. by rewrite Hsr0, Hpop.
    + unfold exists_ in *. rewrite Hagree; [done|].
      intros Hu. eapply raw_out_apart; [apply under_refl|]. by right.
    + fold out. by apply reset_dir_Done.
Qed.

End Idempotence.

(* ===================================================================== *)
(** * The copy loops *)
(* ===================================================================== *)

Module CopyFacts.
Import Fs Spec Text Build PathFacts MonadFacts FsFacts Frame.
Local Open Scope fs_scope.

(** A loop whose body always completes silently, keeps an invariant [I],
    only ever adds entries, and establishes for its item a fact [Q] that
    later additions cannot undo. *)
Lemma fold_each_inv {A B : Type} (I : fs → Prop) (Q : A → fs → Prop)
    (g : A → B → B) (l : list A) (body : A → B → M B) :
  (∀ x b s, x ∈ l → I s →
     ∃ s', body x b s = Done (g x b) s' [] ∧ I s' ∧ s ⊆ s' ∧ Q x s') →
  (∀ x s s', Q x s → s ⊆ s' → Q x s') →
  ∀ b s, I s →
    ∃ s', fold_each l b body s = Done (foldl (λ b x, g x b) b l) s' []
          ∧ I s' ∧ s ⊆ s' ∧ ∀ x, x ∈ l → Q x s'.
Proof.
  intros Hbody Hstable. induction l as [|x l IH]; intros b s HI.
  - exists s. split; [done|]. split; [done|]. split; [done|].
    intros x Hx. by apply elem_of_nil in Hx.
  - destruct (Hbody x b s ltac:(left) HI) as (s1 & Hx & HI1 & Hsub1 & HQ1).
    destruct IH with (b := g x b) (s := s1) as (s2 & Hl & HI2 & Hsub2 & HQ2).
    { intros y b' s' Hy. apply Hbody. by right. }
    { done. }
    exists s2. simpl. split; [|split; [done|split; [by trans s1|]]].
    + unfold bind. by rewrite Hx, Hl.
    + intros y Hy. apply elem_of_cons in Hy as [->|Hy]; [|by apply HQ2].
      by eapply Hstable.
Qed.

Lemma for_each_inv {A : Type} (I : fs → Prop) (Q : A → fs → Prop)
    (l : list A) (body : A → M unit) :
  (∀ x s, x ∈ l → I s →
     ∃ s', body x s = Done tt s' [] ∧ I s' ∧ s ⊆ s' ∧ Q x s') →
  (∀ x s s', Q x s → s ⊆ s' → Q x s') →
  ∀ s, I s →
    ∃ s', for_each l body s = Done tt s' []
          ∧ I s' ∧ s ⊆ s' ∧ ∀ x, x ∈ l → Q x s'.
Proof.
  intros Hbody Hstable s HI.
  destruct (fold_each_inv I Q (λ _ _, tt) l (λ x _, body x)) with (b := tt) (s := s)
    as (s' & Hl & H); [|done|done|].
  { intros x [] s0 Hx Hs0. by apply Hbody. }
  exists s'. split; [|done]. unfold for_each. rewrite Hl. f_equal.
  by destruct (foldl _ _ _).
Qed.

Lemma foldl_count {A : Type} (P : A → Prop) `{!∀ x, Decision (P x)}
    (l : list A) (n : nat) :
  foldl (λ b x, if decide (P x) then S b else b) n l
  = (n + length (filter P l))%nat.
Proof.
  revert n. induction l as [|x l IH]; intros n; simpl; [lia|].
  rewrite IH, filter_cons. case_decide; simpl; lia.
Qed.

Lemma elem_of_file_names (s : fs) (d : path) (n : string) :
  n ∈ file_names s d ↔ is_file s (d ++ [n]) = true.
Proof.
  unfold file_names. rewrite list_elem_of_omap. split.
  - intros (q & Hq & H). destruct (relative_to q d) as [[|n' [|? ?]]|] eqn:E; try done.
    apply relative_to_Some in E as ->.
    destruct (is_file s (d ++ [n'])) eqn:Ef; [|done]. by injection H as <-.
  - intros Hf. exists (d ++ [n]). split.
    + apply elem_of_keys. apply is_file_Some in Hf as (c & m & ->). done.
    + by rewrite relative_to_app, Hf.
Qed.

Lemma elem_of_walk (s : fs) (src d : path) (files : list string) :
  (d, files) ∈ walk s src ↔
  is_dir s src = true ∧ under src d ∧ is_dir s d = true
  ∧ files = file_names s d.
Proof.
  unfold walk. destruct (is_dir s src) eqn:Hsrc.
  - rewrite list_elem_of_fmap. split.
    + intros (q & [= -> ->] & Hq). apply list_elem_of_filter in Hq as [[? ?] _].
      done.
    + intros (_ & Hu & Hd & ->). exists d. split; [done|].
      apply list_elem_of_filter. split; [done|].
      apply elem_of_keys. apply is_dir_Some in Hd as ->. done.
  - split; [by intros ?%elem_of_nil | by intros [? _]].
Qed.

(** ** The mirror invariant

    While files are copied from below [src] to below [dst], the state
    [cur] differs from the initial state [s] only below [dst], and what
    it holds below [dst] is a copy of what [s] holds at the same place
    below [src]. *)
Section mirror.
Context (s : fs) (src dst : path).
Hypothesis Hwf : wf s.
Hypothesis Hsrc : s !! src = Some Dir.
Hypothesis Hapart1 : ¬ under src dst.
Hypothesis Hapart2 : ¬ under dst src.
Hypothesis Hdst_anc : ∀ q, q `prefix_of` dst → q ≠ dst → s !! q = Some Dir.
Hypothesis Hdst_nf : is_file s dst = false.
Hypothesis Hdst_empty : ∀ q, strictly_under dst q → s !! q = None.

Local Abbreviation mirror := (Spec.mirror s src dst).

Lemma not_under_dst_src rel : ¬ under dst (src ++ rel).
Proof.
  intros Hu.
  destruct (prefix_weak_total dst src (src ++ rel) Hu (under_app src rel));
    [by apply Hapart2 | by apply Hapart1].
Qed.

Lemma mirror_init : mirror s.
Proof.
  split; [done|]. intros rel x Hx.
  destruct rel as [|n rel].
  - rewrite app_nil_r in *. rewrite Hsrc.
    unfold is_file in Hdst_nf. rewrite Hx in Hdst_nf. by destruct x.
  - rewrite Hdst_empty in Hx; [done|].
    apply strictly_under_app. by exists (n :: rel).
Qed.

Lemma mirror_src cur rel : mirror cur → cur !! (src ++ rel) = s !! (src ++ rel).
Proof. intros [H1 _]. apply H1, not_under_dst_src. Qed.

Lemma mirror_prefix cur rel q :
  mirror cur → is_Some (s !! (src ++ rel)) → q `prefix_of` dst ++ rel →
  q ≠ dst ++ rel → cur !! q = None ∨ cur !! q = Some Dir.
Proof.
  intros [H1 H2] Hrel Hq Hne.
  destruct (prefix_app_cases _ _ _ Hq) as [Hq'|Hq'].
  - destruct (decide (q = dst)) as [->|Hne'].
    + destruct (cur !! dst) as [x|] eqn:Ex; [|by left]. right.
      rewrite <- (app_nil_r dst) in Ex. apply H2 in Ex.
      rewrite app_nil_r in Ex. congruence.
    + right. rewrite H1; [by apply Hdst_anc|].
      intros Hu. apply Hne'. by apply (anti_symm prefix).
  - apply strictly_under_app in Hq' as (r & Hr & ->).
    destruct (cur !! (dst ++ r)) as [x|] eqn:Ex; [|by left]. right.
    apply H2 in Ex. apply prefix_app_inv in Hq.
    rewrite (wf_prefix_dir s (src ++ r) (src ++ rel)) in Ex; try done.
    + by apply prefix_app.
    + intros Heq. apply app_inv_head in Heq. by subst r.
Qed.

(** A directory of the source can be created at its place below [dst]. *)
Lemma mirror_ensure_dir cur rel :
  mirror cur → s !! (src ++ rel) = Some Dir →
  ∃ cur', ensure_dir (dst ++ rel) cur = Done tt cur' []
          ∧ mirror cur' ∧ cur ⊆ cur' ∧ cur' !! (dst ++ rel) = Some Dir
          ∧ cur' !! dst = Some Dir
          ∧ ∀ q c m, cur' !! q = Some (File c m) → cur !! q = Some (File c m).
Proof.
  intros Hm Hd. pose proof Hm as [H1 H2].
  exists (cur ∪ dir_chain (dst ++ rel)).
  assert (∀ q, q `prefix_of` dst ++ rel → cur !! q = None ∨ cur !! q = Some Dir)
    as Hpre.
  { intros q Hq. destruct (decide (q = dst ++ rel)) as [->|Hne].
    - destruct (cur !! (dst ++ rel)) as [x|] eqn:Ex; [|by left]. right.
      apply H2 in Ex. congruence.
    - by apply (mirror_prefix cur rel). }
  split; [|split; [split|split; [|split; [|split]]]].
  - apply ensure_dir_Done. intros q Hq. unfold is_file.
    by destruct (Hpre q Hq) as [-> | ->].
  - intros q Hq. rewrite lookup_ensure.
    destruct (cur !! q) as [x|] eqn:Ex; [by rewrite <- H1, Ex|].
    case_decide as Hp; [|by rewrite <- H1, Ex].
    destruct (prefix_app_cases _ _ _ Hp) as [Hq'|[Hq' _]]; [|done].
    rewrite H1 in Ex by done. rewrite Hdst_anc in Ex; [done|done|].
    intros ->. by destruct Hq.
  - intros r x. rewrite lookup_ensure.
    destruct (cur !! (dst ++ r)) as [y|] eqn:Ey.
    + intros [= <-]. by apply H2.
    + case_decide as Hp; [|done]. intros [= <-].
      apply prefix_app_inv in Hp.
      destruct (decide (r = rel)) as [->|Hne]; [done|].
      apply (wf_prefix_dir s _ (src ++ rel)); try done.
      * by apply prefix_app.
      * intros Heq. by apply app_inv_head in Heq.
  - apply map_union_subseteq_l.
  - rewrite lookup_ensure.
    destruct (Hpre (dst ++ rel) (reflexivity _)) as [-> | ->]; [|done].
    by rewrite decide_True.
  - rewrite lookup_ensure.
    destruct (Hpre dst (under_app dst rel)) as [-> | ->]; [|done].
    rewrite decide_True; [done|apply under_app].
  - intros q c m. rewrite lookup_ensure.
    destruct (cur !! q); [done|]. by case_decide.
Qed.

(** A regular file of the source can be copied to its place below
    [dst], once the directory it goes into is there. *)
Lemma mirror_copy2 cur rel n c m :
  mirror cur → s !! (src ++ rel ++ [n]) = Some (File c m) →
  cur !! (dst ++ rel) = Some Dir →
  ∃ cur', copy2 (src ++ rel ++ [n]) (dst ++ rel ++ [n]) cur = Done tt cur' []
          ∧ mirror cur' ∧ cur ⊆ cur'
          ∧ cur' !! (dst ++ rel ++ [n]) = Some (File c m)
          ∧ ∀ q, q ≠ dst ++ rel ++ [n] → cur' !! q = cur !! q.
Proof.
  intros Hm Hf Hparent. pose proof Hm as [H1 H2].
  exists (<[dst ++ rel ++ [n] := File c m]> cur).
  assert (cur !! (dst ++ rel ++ [n]) = None
          ∨ cur !! (dst ++ rel ++ [n]) = Some (File c m)) as Ht.
  { destruct (cur !! (dst ++ rel ++ [n])) as [x|] eqn:Ex; [|by left]. right.
    apply H2 in Ex. congruence. }
  split; [|split; [split|split; [|split]]].
  - unfold copy2. rewrite (mirror_src cur (rel ++ [n]) Hm), Hf.
    unfold is_dir.
    assert (dst ++ rel ++ [n] ≠ src ++ rel ++ [n]) as Hne.
    { intros Heq. apply (not_under_dst_src (rel ++ [n])).
      rewrite <- Heq. apply under_app. }
    assert (parent (dst ++ rel ++ [n]) = dst ++ rel) as Hpar
      by (rewrite app_assoc; apply parent_snoc).
    destruct Ht as [Ht|Ht]; rewrite Ht; rewrite decide_False by done;
      by rewrite Ht, Hpar, Hparent.
  - intros q Hq. rewrite lookup_insert_ne; [by apply H1|].
    intros <-. apply Hq, under_app.
  - intros r x. destruct (decide (r = rel ++ [n])) as [->|Hne].
    + rewrite lookup_insert_eq. by intros [= <-].
    + rewrite lookup_insert_ne; [apply H2|].
      intros Heq. by apply app_inv_head in Heq.
  - destruct Ht as [Ht|Ht].
    + by apply insert_subseteq.
    + rewrite <- (insert_id cur _ _ Ht) at 1. done.
  - by rewrite lookup_insert_eq.
  - intros q Hq. by rewrite lookup_insert_ne.
Qed.
(** [copy_tree] from a directory into an empty or missing place
    completes and leaves there an exact copy of the source tree. *)
Lemma copy_tree_mirror :
  ∃ s', copy_tree src dst s = Done tt s' []
        ∧ (∀ rel, s' !! (dst ++ rel) = s !! (src ++ rel))
        ∧ (∀ q, ¬ under dst q → s' !! q = s !! q).
Proof.
  unfold copy_tree. rewrite bind_gets.
  set (Q := λ (x : path * list string) (cur : fs),
         ∀ rel, x.1 = src ++ rel →
           cur !! (dst ++ rel) = Some Dir
           ∧ ∀ n, n ∈ x.2 →
               ∃ c m, s !! (src ++ rel ++ [n]) = Some (File c m)
                      ∧ cur !! (dst ++ rel ++ [n]) = Some (File c m)).
  match goal with |- context [for_each _ ?b _] => set (body := b) end.
  destruct (for_each_inv mirror Q (walk s src) body)
    with (s := s) as (s' & Hrun & Hm & _ & HQ);
    [| |apply mirror_init|].
  - intros [d files] cur Hx Hcur.
    apply elem_of_walk in Hx as (_ & [rel ->] & Hd & ->).
    apply is_dir_Some in Hd. unfold body. rewrite relative_to_app.
    destruct (mirror_ensure_dir cur rel Hcur Hd)
      as (cur1 & Hens & Hm1 & Hsub1 & Hdir1 & _).
    set (I' := λ c : fs, mirror c ∧ c !! (dst ++ rel) = Some Dir).
    set (Q' := λ (n : string) (c : fs),
           ∃ c0 m, s !! (src ++ rel ++ [n]) = Some (File c0 m)
                   ∧ c !! (dst ++ rel ++ [n]) = Some (File c0 m)).
    match goal with |- context [for_each _ ?b] => set (inner := b) end.
    destruct (for_each_inv I' Q' (file_names s (src ++ rel)) inner)
      with (s := cur1) as (cur2 & Hfiles & [Hm2 Hdir2] & Hsub2 & HQ2).
    + intros n c Hn [Hmc Hdc].
      apply elem_of_file_names, is_file_Some in Hn as (c0 & m & Hn).
      rewrite <- app_assoc in Hn.
      destruct (mirror_copy2 c rel n c0 m Hmc Hn Hdc)
        as (c' & Hcp & Hmc' & Hsub & Hlk & _).
      exists c'. unfold inner. rewrite <- !app_assoc. split; [done|].
      split; [split; [done|by eapply lookup_weaken]|].
      split; [done|]. by exists c0, m.
    + intros n c c' (c0 & m & Hs & Hc) Hsub. exists c0, m.
      split; [done|]. by eapply lookup_weaken.
    + done.
    + exists cur2. split; [|split; [done|split; [by trans cur1|]]].
      * unfold bind. by rewrite Hens, Hfiles.
      * intros rel' Heq. simpl in Heq. apply app_inv_head in Heq as <-.
        split; [done|]. intros n Hn. by apply HQ2.
  - intros [d files] c c' HQc Hsub rel Heq.
    destruct (HQc rel Heq) as [Hd Hf]. split; [by eapply lookup_weaken|].
    intros n Hn. destruct (Hf n Hn) as (c0 & m & Hs & Hc).
    exists c0, m. split; [done|]. by eapply lookup_weaken.
  - exists s'. split; [done|]. destruct Hm as [H1 H2]. split; [|done].
    intros rel. destruct (s !! (src ++ rel)) as [[|c m]|] eqn:E.
    + destruct (HQ (src ++ rel, file_names s (src ++ rel))) with (rel := rel)
        as [Hd _]; [|done|done].
      apply elem_of_walk. split; [by apply is_dir_Some|].
      split; [apply under_app|]. split; [by apply is_dir_Some|done].
    + destruct (path_snoc_cases rel) as [->|(rel' & n & ->)].
      { rewrite app_nil_r in E. congruence. }
      assert (s !! (src ++ rel') = Some Dir) as Hd.
      { apply (wf_prefix_dir s _ (src ++ rel' ++ [n])); [done|by rewrite E| |].
        - apply prefix_app, prefix_app_r. done.
        - intros Heq. apply app_inv_head in Heq.
          apply (f_equal length) in Heq. rewrite length_app in Heq.
          simpl in Heq. lia. }
      destruct (HQ (src ++ rel', file_names s (src ++ rel'))) with (rel := rel')
        as [_ Hf]; [|done|].
      { apply elem_of_walk. split; [by apply is_dir_Some|].
        split; [apply under_app|]. split; [by apply is_dir_Some|done]. }
      destruct (Hf n) as (c0 & m0 & Hs & Hc).
      { apply elem_of_file_names, is_file_Some. exists c, m.
        by rewrite <- app_assoc. }
      congruence.
    + destruct (s' !! (dst ++ rel)) as [x|] eqn:Ex; [|done].
      apply H2 in Ex. congruence.
Qed.
Lemma elem_of_rglob_src (p : path) :
  p ∈ rglob_all s src ↔ ∃ rel, rel ≠ [] ∧ p = src ++ rel ∧ is_Some (s !! p).
Proof.
  unfold rglob_all, is_dir. rewrite Hsrc.
  rewrite list_elem_of_filter, elem_of_keys, strictly_under_app. split.
  - intros [(rel & Hrel & Hp) Hs]. by exists rel.
  - intros (rel & Hrel & Hp & Hs). split; [by exists rel|done].
Qed.

(** [copy_matching_files] into an empty or missing place completes,
    copies exactly the selected files, each to its relative path, and
    returns their number. *)
Lemma copy_matching_mirror (suffixes : list string) :
  ∃ s', copy_matching_files src dst suffixes s
        = Done (length (filter (matching s suffixes) (rglob_all s src))) s' []
        ∧ mirror s'
        ∧ (∀ rel c m,
             s' !! (dst ++ rel) = Some (File c m) ↔
             s !! (src ++ rel) = Some (File c m)
             ∧ matching s suffixes (src ++ rel))
        ∧ ((∃ p, p ∈ rglob_all s src ∧ matching s suffixes p) →
           s' !! dst = Some Dir).
Proof.
  unfold copy_matching_files. rewrite bind_gets.
  set (I := λ cur : fs,
         mirror cur
         ∧ ∀ rel c m, cur !! (dst ++ rel) = Some (File c m) →
                      matching s suffixes (src ++ rel)).
  set (Q := λ (p : path) (cur : fs),
         matching s suffixes p →
         cur !! dst = Some Dir
         ∧ ∀ rel, p = src ++ rel →
             ∃ c m, s !! p = Some (File c m)
                    ∧ cur !! (dst ++ rel) = Some (File c m)).
  set (g := λ (p : path) (count : nat),
         if decide (matching s suffixes p) then S count else count).
  match goal with |- context [fold_each _ _ ?b _] => set (body := b) end.
  destruct (fold_each_inv I Q g (rglob_all s src) body)
    with (b := 0%nat) (s := s) as (s' & Hrun & [Hm Hfiles] & _ & HQ).
  - intros p count cur Hp [Hcur Hcf].
    apply elem_of_rglob_src in Hp as (rel & Hrel & -> & Hex).
    unfold body, g. rewrite bind_gets.
    assert (is_file cur (src ++ rel) = is_file s (src ++ rel)) as ->
      by (unfold is_file; by rewrite (mirror_src cur rel Hcur)).
    destruct (is_file s (src ++ rel)) eqn:Hisf; simpl.
    2:{ exists cur. rewrite decide_False by (intros [? _]; congruence).
        split; [done|]. split; [done|]. split; [done|].
        intros [? _]; congruence. }
    case_bool_decide as Hsuf; simpl.
    2:{ exists cur. rewrite decide_False by (by intros [_ ?]).
        split; [done|]. split; [done|]. split; [done|]. by intros [_ ?]. }
    rewrite decide_True by done. rewrite relative_to_app.
    destruct (path_snoc_cases rel) as [->|(rel' & n & ->)]; [done|].
    apply is_file_Some in Hisf as (c & m & Hf).
    assert (s !! (src ++ rel') = Some Dir) as Hd.
    { apply (wf_prefix_dir s _ (src ++ rel' ++ [n])); [done|by rewrite Hf| |].
      - apply prefix_app, prefix_app_r. done.
      - intros Heq. apply app_inv_head in Heq.
        apply (f_equal length) in Heq. rewrite length_app in Heq.
        simpl in Heq. lia. }
    destruct (mirror_ensure_dir cur rel' Hcur Hd)
      as (cur1 & Hens & Hm1 & Hsub1 & Hdir1 & Hdst1 & Hold1).
    destruct (mirror_copy2 cur1 rel' n c m Hm1 Hf Hdir1)
      as (cur2 & Hcp & Hm2 & Hsub2 & Hlk2 & Hold2).
    exists cur2. split; [|split; [split|split]].
    + unfold bind.
      replace (parent (dst ++ rel' ++ [n])) with (dst ++ rel')
        by (by rewrite app_assoc, parent_snoc).
      by rewrite Hens, Hcp.
    + done.
    + intros r c0 m0 Hr. destruct (decide (r = rel' ++ [n])) as [->|Hne].
      * split; [by apply is_file_Some; eauto|done].
      * rewrite Hold2 in Hr by (intros Heq; by apply app_inv_head in Heq).
        apply Hold1 in Hr. by eapply Hcf.
    + by trans cur1.
    + intros _. split; [by eapply lookup_weaken|].
      intros r Heq. apply app_inv_head in Heq as <-. by exists c, m.
  - intros p c c' HQc Hsub Hmatch. destruct (HQc Hmatch) as [Hd Hf].
    split; [by eapply lookup_weaken|].
    intros rel Heq. destruct (Hf rel Heq) as (c0 & m & Hs & Hc).
    exists c0, m. split; [done|]. by eapply lookup_weaken.
  - split; [apply mirror_init|]. intros rel c m Hx.
    destruct rel as [|n rel].
    + rewrite app_nil_r in Hx. unfold is_file in Hdst_nf. by rewrite Hx in Hdst_nf.
    + rewrite Hdst_empty in Hx; [done|].
      apply strictly_under_app. by exists (n :: rel).
  - exists s'. split; [|split; [done|split]].
    + rewrite Hrun. f_equal. unfold g.
      by rewrite (foldl_count (matching s suffixes)).
    + intros rel c m. split.
      * intros Hx. split; [|by eapply Hfiles].
        destruct Hm as [_ H2]. by apply H2.
      * intros [Hf Hmatch].
        destruct (HQ (src ++ rel)) as [_ Hcopy]; [|done|].
        { apply elem_of_rglob_src. exists rel. split; [|by rewrite Hf].
          intros ->. rewrite app_nil_r in Hf. congruence. }
        destruct (Hcopy rel eq_refl) as (c0 & m0 & Hs & Hc). congruence.
    + intros (p & Hp & Hmatch). by destruct (HQ p Hp Hmatch).
Qed.
End mirror.

End CopyFacts.

(* ===================================================================== *)
(** * copy-verbatim, copy-filtered and the swift build *)
(* ===================================================================== *)

Module CopyClaims.
Import Fs Spec Text Build PathFacts MonadFacts FsFacts Frame BuildFrame.
Import CppBuild Prerequisite Idempotence CopyFacts CppClaims.
Local Open Scope fs_scope.

Lemma reset_state_prefix_dir (p : path) (s : fs) q :
  resettable s p → q `prefix_of` p → reset_state p s !! q = Some Dir.
Proof.
  intros Hres Hq. rewrite lookup_reset_state.
  case_decide as Hu.
  - rewrite decide_True; [done|]. by apply (anti_symm prefix).
  - specialize (Hres q Hq). unfold is_file in Hres.
    destruct (s !! q) as [[|c m]|]; try done. by rewrite decide_True.
Qed.

Lemma wf_reset_state (p : path) (s : fs) :
  wf s → resettable s p → wf (reset_state p s).
Proof.
  intros Hwf Hres q n x Hx. rewrite lookup_reset_state in Hx.
  case_decide as Hu.
  - case_decide as Heq; [|done]. apply reset_state_prefix_dir; [done|].
    rewrite <- Heq. by apply prefix_app_r.
  - assert (¬ under p q) as Hnu.
    { intros Hq. apply Hu. by apply prefix_app_r. }
    destruct (s !! (q ++ [n])) as [y|] eqn:Ey.
    + apply Hwf in Ey. rewrite lookup_reset_state.
      rewrite decide_False by done. by rewrite Ey.
    + case_decide as Hp; [|done]. apply reset_state_prefix_dir; [done|].
      by eapply prefix_app_l.
Qed.

(** The state in which a build finds its freshly reset output directory
    satisfies what the copy loops ask of their destination. *)
Lemma reset_state_dst root l (s : fs) :
  wf s → resettable s (out_path root l) →
  let sr := reset_state (out_path root l) s in
  wf sr
  ∧ (∀ q, under (raw_path root l) q → sr !! q = s !! q)
  ∧ (∀ q, q `prefix_of` out_path root l → sr !! q = Some Dir)
  ∧ (∀ q, strictly_under (out_path root l) q → sr !! q = None).
Proof.
  intros Hwf Hres sr. split; [by apply wf_reset_state|].
  split; [intros q Hq; by apply reset_state_raw|].
  split; [intros q Hq; by apply reset_state_prefix_dir|].
  intros q Hq. by apply reset_state_empty.
Qed.

(** C5.  [copy_tree] from an existing directory [src] into a place [dst]
    that is apart from [src] and empty or missing (its ancestors being
    directories) completes and makes the tree below [dst] equal to the
    tree below [src]: every regular file is there at the same relative
    path with the same content, modification time and mode, every
    directory is there, nothing else is, and nothing outside [dst]
    changes.  In particular the python build, run from a well-formed
    state whose raw input is a directory, completes and leaves in its
    output directory exactly the raw tree. *)
Theorem copy_tree_full_mirror :
  (∀ (s : fs) (src dst : path),
     wf s → s !! src = Some Dir →
     ¬ under src dst → ¬ under dst src →
     (∀ q, q `prefix_of` dst → q ≠ dst → s !! q = Some Dir) →
     is_file s dst = false →
     (∀ q, strictly_under dst q → s !! q = None) →
     ∃ s', copy_tree src dst s = Done tt s' []
           ∧ (∀ rel c m, s !! (src ++ rel) = Some (File c m) →
                s' !! (dst ++ rel) = Some (File c m))
           ∧ (∀ rel, s' !! (dst ++ rel) = s !! (src ++ rel))
           ∧ (∀ q, ¬ under dst q → s' !! q = s !! q))
  ∧ (∀ root (s : fs),
     wf s → s !! raw_path root Python = Some Dir →
     resettable s (out_path root Python) →
     ∃ s' o, build_python root s = Done tt s' o
             ∧ (∀ rel c m, s !! (raw_path root Python ++ rel) = Some (File c m) →
                  s' !! (out_path root Python ++ rel) = Some (File c m))
             ∧ (∀ rel, s' !! (out_path root Python ++ rel)
                       = s !! (raw_path root Python ++ rel))).
Proof.
  split.
  - intros s src dst Hwf Hsrc Ha1 Ha2 Hanc Hnf Hempty.
    destruct (copy_tree_mirror s src dst Hwf Hsrc Ha1 Ha2 Hanc Hnf Hempty)
      as (s' & Hrun & Hmir & Hframe).
    exists s'. split; [done|]. split; [|done].
    intros rel c m Hf. by rewrite Hmir.
  - intros root s Hwf Hraw Hres.
    destruct (reset_state_dst root Python s Hwf Hres)
      as (Hwfr & Hrawr & Hpre & Hempty).
    set (raw := raw_path root Python) in *.
    set (out := out_path root Python) in *.
    destruct (copy_tree_mirror (reset_state out s) raw out)
      as (s' & Hrun & Hmir & Hframe); try done.
    + rewrite Hrawr; [done|apply under_refl].
    + intros Hu. eapply (raw_out_apart root Python); [done|]. by left.
    + intros Hu. eapply (raw_out_apart root Python); [apply under_refl|]. by right.
    + intros q Hq _. by apply Hpre.
    + unfold is_file. by rewrite Hpre.
    + assert (∀ rel, s' !! (out ++ rel) = s !! (raw ++ rel)) as Hfinal.
      { intros rel. rewrite Hmir. apply Hrawr, under_app. }
      unfold build_python. fold raw out. rewrite bind_gets.
      unfold exists_. rewrite Hraw. cbn [negb].
      unfold bind at 1. unfold say, print.
      unfold bind at 1. rewrite reset_dir_Done by done.
      unfold bind at 1. rewrite Hrun.
      rewrite bind_gets.
      eexists _, _. split; [done|]. split; [|done].
      intros rel c m Hf. by rewrite Hfinal.
Qed.

End CopyClaims.

Module FilterClaims.
Import Fs Spec Text Build PathFacts MonadFacts FsFacts Frame BuildFrame.
Import CppBuild Prerequisite Idempotence CopyFacts CppClaims CopyClaims.
Local Open Scope fs_scope.

Lemma lower_ascii_idemp (c : ascii) : lower_ascii (lower_ascii c) = lower_ascii c.
Proof.
  destruct c as [[] [] [] [] [] [] [] []]; reflexivity.
Qed.

Lemma lower_idemp (x : string) : lower (lower x) = lower x.
Proof.
  induction x as [|c x IH]; [done|]. simpl. by rewrite lower_ascii_idemp, IH.
Qed.




End FilterClaims.

Module SwiftClaims.
Import Fs Spec Text Build PathFacts MonadFacts FsFacts Frame BuildFrame.
Import CppBuild Prerequisite Idempotence CopyFacts CppClaims CopyClaims.
Import FilterClaims.
Local Open Scope fs_scope.

Lemma copy_matching_not_dir (s : fs) (src dst : path) suffixes :
  is_dir s src = false →
  copy_matching_files src dst suffixes s = Done 0%nat s [].
Proof.
  intros Hd. unfold copy_matching_files. rewrite bind_gets.
  by rewrite rglob_all_not_dir.
Qed.

(** Selected files are counted by what lies below the source, whatever
    the rest of the state holds. *)
Lemma matching_count_ext (s s' : fs) (src : path) suffixes :
  (∀ q, under src q → s' !! q = s !! q) →
  length (filter (matching s' suffixes) (rglob_all s' src))
  = length (filter (matching s suffixes) (rglob_all s src)).
Proof.
  intros Heq. apply Permutation_length, NoDup_Permutation;
    [apply NoDup_filter, NoDup_rglob_all..|].
  assert (is_dir s' src = is_dir s src) as Hd
    by (unfold is_dir; by rewrite Heq by apply under_refl).
  intros p. rewrite !list_elem_of_filter. unfold matching, is_file.
  destruct (is_dir s src) eqn:Hds.
  - rewrite !elem_of_rglob_all by done. split.
    + intros [Hm [Hu Hs]]. destruct Hu as [Hu Hne].
      rewrite Heq in Hm, Hs by done. done.
    + intros [Hm [Hu Hs]]. destruct Hu as [Hu Hne].
      rewrite <- Heq in Hm, Hs by done. done.
  - rewrite !rglob_all_not_dir by done. split; by intros [_ ?%elem_of_nil].
Qed.

Lemma suffix_of_license : suffix_of "LICENSE.txt" = ".txt".
Proof. reflexivity. Qed.

Lemma license_not_matching (s : fs) (q : path) :
  name q = "LICENSE.txt" → ¬ matching s [".md"] q.
Proof.
  intros Hn [_ Hsuf]. rewrite Hn in Hsuf.
  apply list_elem_of_singleton in Hsuf. done.
Qed.

Lemma siblings_apart (p : path) (a b : string) (q : path) :
  a ≠ b → under (p ++ [a]) q → ¬ under (p ++ [b]) q.
Proof.
  intros Hab H1 H2.
  by eapply (under_diverge p [] [] q (p ++ [a]) (p ++ [b]) a b).
Qed.

(** C10.  Let the swift build run from a well-formed state in which the
    raw directory exists and [LICENSE.txt] in it is not a directory.  The
    build completes.  If [LICENSE.txt] is a regular file it is afterwards
    at the top level of the output directory with the same content and
    metadata; if it does not exist the output directory has no such
    entry.  The number printed as [md_files] is the number of regular
    files below [TSPL.docc] whose lower-cased extension is [.md]; the
    license is not among the paths counted, no path named [LICENSE.txt]
    is ever selected by the filter, and no regular file named
    [LICENSE.txt] appears below [TSPL.docc] in the output. *)
Theorem swift_license root (s : fs) :
  let raw := raw_path root Swift in
  let out := out_path root Swift in
  let docc := raw ++ ["TSPL.docc"] in
  let lic := raw ++ ["LICENSE.txt"] in
  wf s → exists_ s raw = true → resettable s out → is_dir s lic = false →
  ∃ s' n,
    build_swift root s
      = Done tt s' ["[kb] " +:+ hello Swift;
                    "[kb] swift: md_files=" +:+ str_of_int (Z.of_nat n)]
    ∧ (∀ c m, s !! lic = Some (File c m) →
         s' !! (out ++ ["LICENSE.txt"]) = Some (File c m))
    ∧ (s !! lic = None → s' !! (out ++ ["LICENSE.txt"]) = None)
    ∧ n = length (filter (matching s [".md"]) (rglob_all s docc))
    ∧ (lic ∉ rglob_all s docc)
    ∧ (∀ q, name q = "LICENSE.txt" → ¬ matching s [".md"] q)
    ∧ (∀ rel, is_file s' ((out ++ ["TSPL.docc"]) ++ rel ++ ["LICENSE.txt"]) = false).
Proof.
  intros raw out docc lic Hwf Hraw Hres Hlicnd.
  destruct (reset_state_dst root Swift s Hwf Hres)
    as (Hwfr & Hrawr & Hpre & Hempty).
  fold raw out in Hwfr, Hrawr, Hpre, Hempty.
  set (sr := reset_state out s) in *. set (dst := out ++ ["TSPL.docc"]).
  assert (∀ q, under raw q → ¬ under out q) as Hro.
  { intros q Hq Hu. eapply (raw_out_apart root Swift); [done|]. by right. }
  assert (∀ q, under docc q → sr !! q = s !! q) as Hdoccr.
  { intros q Hq. apply Hrawr. eapply under_trans; [apply under_app|done]. }
  (* the filtered copy *)
  assert (∃ sc, copy_matching_files docc dst [".md"] sr
                = Done (length (filter (matching s [".md"]) (rglob_all s docc))) sc []
              ∧ (∀ q, ¬ under dst q → sc !! q = sr !! q)
              ∧ (∀ rel c m, sc !! (dst ++ rel) = Some (File c m) →
                   matching sr [".md"] (docc ++ rel)))
    as (sc & Hcopy & Hframe & Hsel).
  { destruct (is_dir sr docc) eqn:Hd.
    - destruct (copy_matching_mirror sr docc dst) with (suffixes := [".md"])
        as (sc & Hrun & [Hfr _] & Hiff & _); try done.
      + by apply is_dir_Some.
      + intros Hu. apply (Hro dst).
        * eapply under_trans; [apply under_app|done].
        * apply under_app.
      + intros Hu. apply (Hro docc); [apply under_app|].
        eapply under_trans; [apply under_app|done].
      + intros q Hq Hne. apply Hpre.
        destruct (prefix_app_cases _ _ _ Hq) as [|Hs]; [done|].
        apply strictly_under_app in Hs as (r & Hr & ->).
        apply prefix_app_inv in Hq.
        destruct r as [|x [|y r]]; [done| |].
        * apply prefix_cons_inv_1 in Hq as Hx. by subst.
        * apply prefix_cons_inv_2, prefix_nil_inv in Hq. done.
      + unfold is_file. rewrite Hempty; [done|apply strictly_under_snoc].
      + intros q [Hq _]. apply Hempty. split.
        * eapply under_trans; [apply under_app|done].
        * intros ->. by apply prefix_snoc_not in Hq.
      + exists sc. split; [|split; [done|]].
        * rewrite Hrun. f_equal. by apply matching_count_ext.
        * intros rel c m Hx. by apply Hiff in Hx as [_ ?].
    - exists sr. split; [|split; [done|]].
      + rewrite copy_matching_not_dir by done. f_equal.
        rewrite <- (matching_count_ext s sr docc [".md"] Hdoccr).
        by rewrite rglob_all_not_dir.
      + intros rel c m Hx. rewrite Hempty in Hx; [done|].
        unfold dst. rewrite <- app_assoc. apply strictly_under_app.
        by exists (["TSPL.docc"] ++ rel). }
  (* the license *)
  assert (¬ under dst lic) as Hlic_dst.
  { intros Hu. apply (Hro lic); [apply under_app|].
    eapply under_trans; [apply under_app|done]. }
  assert (sc !! lic = s !! lic) as Hlic.
  { rewrite Hframe by done. apply Hrawr, under_app. }
  assert (¬ under dst (out ++ ["LICENSE.txt"])) as Htgt_dst.
  { apply (siblings_apart out "LICENSE.txt" "TSPL.docc"); [done|apply under_refl]. }
  assert (sc !! (out ++ ["LICENSE.txt"]) = None) as Htgt.
  { rewrite Hframe by done. apply Hempty, strictly_under_snoc. }
  assert (sc !! out = Some Dir) as Hout.
  { rewrite Hframe; [by apply Hpre|]. apply prefix_snoc_not. }
  assert (∃ s', (if exists_ sc lic
                 then copy2 lic (out ++ ["LICENSE.txt"])
                 else ret tt) sc = Done tt s' []
                ∧ (∀ c m, s !! lic = Some (File c m) →
                     s' !! (out ++ ["LICENSE.txt"]) = Some (File c m))
                ∧ (s !! lic = None → s' !! (out ++ ["LICENSE.txt"]) = None)
                ∧ ∀ q, q ≠ out ++ ["LICENSE.txt"] → s' !! q = sc !! q)
    as (s' & Hstep & Hcopied & Habsent & Hrest).
  { unfold exists_. rewrite Hlic. unfold is_dir in Hlicnd.
    destruct (s !! lic) as [[|c m]|] eqn:El; [done|..].
    - unfold copy2, is_dir. rewrite Hlic, Htgt. rewrite decide_False.
      2:{ intros Heq. apply (Hro lic); [apply under_app|].
          rewrite <- Heq. apply under_app. }
      rewrite Htgt, parent_snoc, Hout. eexists. split; [done|].
      split; [|split; [done|]].
      + intros c0 m0 [= -> ->]. by rewrite lookup_insert_eq.
      + intros q Hq. by rewrite lookup_insert_ne.
    - exists sc. split; [done|]. split; [done|]. split; [done|done]. }
  exists s', (length (filter (matching s [".md"]) (rglob_all s docc))).
  split; [|split; [done|split; [done|split; [done|split; [|split]]]]].
  - unfold build_swift. fold raw out docc lic dst. rewrite bind_gets, Hraw.
    cbn [negb]. unfold bind at 1. unfold say, print.
    unfold bind at 1. rewrite reset_dir_Done by done. fold sr.
    unfold bind at 1. rewrite Hcopy. rewrite bind_gets.
    unfold bind at 1. rewrite Hstep. done.
  - intros Hin. destruct (is_dir s docc) eqn:Hd;
      [|by rewrite rglob_all_not_dir in Hin by done; apply elem_of_nil in Hin].
    apply elem_of_rglob_all in Hin as [[Hu _] _]; [|done].
    revert Hu. apply (siblings_apart raw "LICENSE.txt" "TSPL.docc"); [done|].
    apply under_refl.
  - apply license_not_matching.
  - intros rel. destruct (is_file s' _) eqn:Hf; [|done].
    apply is_file_Some in Hf as (c & m & Hf).
    rewrite Hrest in Hf.
    + apply Hsel in Hf. exfalso. revert Hf. apply license_not_matching.
      by rewrite !app_assoc, name_snoc.
    + intros Heq. apply Htgt_dst. rewrite <- Heq. apply under_app.
Qed.

End SwiftClaims.

(* ===================================================================== *)
(** * The builds keep the file system well formed *)
(* ===================================================================== *)

Module WellFormed.
Import Fs Spec Text Build PathFacts MonadFacts FsFacts Frame BuildFrame.
Local Open Scope fs_scope.

Global Instance keeps_wf_preorder : PreOrder keeps_wf.
Proof.
  split.
  - by intros s Hs.
  - intros s1 s2 s3 H12 H23 H1. by apply H23, H12.
Qed.

Lemma wf_insert_file (s : fs) (p : path) c m :
  wf s → s !! parent p = Some Dir → p ≠ [] → s !! p ≠ Some Dir →
  wf (<[p := File c m]> s).
Proof.
  intros Hwf Hpar Hne Hnd q n x Hx.
  assert (q ≠ p) as Hqp.
  { intros ->. destruct (decide (p ++ [n] = p)) as [Heq|Hne'].
    - apply (f_equal length) in Heq. rewrite length_app in Heq. simpl in Heq. lia.
    - rewrite lookup_insert_ne in Hx by done. apply Hwf in Hx. done. }
  rewrite lookup_insert_ne by done.
  destruct (decide (p = q ++ [n])) as [->|Hne'].
  - by rewrite parent_snoc in Hpar.
  - rewrite lookup_insert_ne in Hx by done. by eapply Hwf.
Qed.

Lemma keeps_wf_ensure_dir p : steps keeps_wf (ensure_dir p).
Proof.
  intros s s' H Hwf. unfold ensure_dir in H.
  destruct (first_file_prefix s p) eqn:E.
  - by case_decide; injection H as <-.
  - injection H as <-.
    assert (∀ q, q `prefix_of` p → (s ∪ dir_chain p) !! q = Some Dir) as Hpre.
    { intros q Hq. rewrite lookup_ensure.
      pose proof (proj1 (first_file_prefix_None s p) E q Hq) as Hnf.
      unfold is_file in Hnf. destruct (s !! q) as [[|c m]|]; try done.
      by rewrite decide_True. }
    intros q n x. rewrite lookup_ensure.
    destruct (s !! (q ++ [n])) as [y|] eqn:Ey.
    + intros _. apply Hwf in Ey. by rewrite lookup_ensure, Ey.
    + case_decide as Hp; [|done]. intros _. apply Hpre. by eapply prefix_app_l.
Qed.

Lemma keeps_wf_rmtree p : steps keeps_wf (rmtree p).
Proof.
  intros s s' H Hwf. unfold rmtree in H.
  destruct (s !! p) as [[|c m]|]; injection H as <-; [|done..].
  intros q n x. rewrite !lookup_rmtree.
  case_decide as Hu; [done|]. intros Hx. apply Hwf in Hx.
  rewrite decide_False; [done|]. intros Hq. apply Hu. by apply prefix_app_r.
Qed.

Lemma keeps_wf_reset_dir p : steps keeps_wf (reset_dir p).
Proof.
  unfold reset_dir. apply steps_bind; [apply _|apply steps_gets, _|]. intros ex.
  apply steps_bind; [apply _| |intros _; apply keeps_wf_ensure_dir].
  destruct ex; [apply keeps_wf_rmtree | apply steps_ret, _].
Qed.

Lemma keeps_wf_copy2 src dst : steps keeps_wf (copy2 src dst).
Proof.
  intros s s' H Hwf. unfold copy2 in H.
  destruct (s !! src) as [[|c m]|]; [by injection H as <-| |by injection H as <-].
  set (target := if is_dir s dst then dst ++ [name src] else dst) in *.
  case_decide; [by injection H as <-|].
  destruct (s !! target) as [[|c' m']|] eqn:Et; [by injection H as <-|..];
    (destruct (s !! parent target) as [[|c'' m'']|] eqn:Ep;
       [|by injection H as <-..]);
    injection H as <-; (apply wf_insert_file; [done|done| |by rewrite Et]).
  - intros Hnil. rewrite Hnil in Et, Ep. simpl in Ep. congruence.
  - intros Hnil. rewrite Hnil in Et, Ep. simpl in Ep. congruence.
Qed.

Lemma keeps_wf_open_w now mode p : steps keeps_wf (open_w now mode p).
Proof.
  intros s s' H Hwf. unfold open_w in H.
  destruct (s !! p) as [[|c m]|] eqn:Ep.
  - by injection H as <-.
  - injection H as <-. intros q n x Hx.
    destruct (decide (q = p)) as [->|Hqp].
    + destruct (decide (p ++ [n] = p)) as [Heq|Hne].
      * apply (f_equal length) in Heq. rewrite length_app in Heq. simpl in Heq. lia.
      * rewrite lookup_insert_ne in Hx by done. apply Hwf in Hx. congruence.
    + rewrite lookup_insert_ne by done.
      destruct (decide (p = q ++ [n])) as [->|Hne].
      * by eapply Hwf.
      * rewrite lookup_insert_ne in Hx by done. by eapply Hwf.
  - destruct (s !! parent p) as [[|c m]|] eqn:Epar; [|by injection H as <-..].
    injection H as <-. apply wf_insert_file; [done|done| |by rewrite Ep].
    intros ->. simpl in Epar. congruence.
Qed.

Lemma keeps_wf_f_write now p data : steps keeps_wf (f_write now p data).
Proof.
  intros s s' H Hwf. unfold f_write in H.
  destruct (s !! p) as [[|c m]|] eqn:Ep; [by injection H as <-| |by injection H as <-].
  injection H as <-. intros q n x Hx.
  destruct (decide (q = p)) as [->|Hqp].
  - destruct (decide (p ++ [n] = p)) as [Heq|Hne].
    + apply (f_equal length) in Heq. rewrite length_app in Heq. simpl in Heq. lia.
    + rewrite lookup_insert_ne in Hx by done. apply Hwf in Hx. congruence.
  - rewrite lookup_insert_ne by done.
    destruct (decide (p = q ++ [n])) as [->|Hne].
    + by eapply Hwf.
    + rewrite lookup_insert_ne in Hx by done. by eapply Hwf.
Qed.

Lemma keeps_wf_stat_size p : steps keeps_wf (stat_size p).
Proof. intros s s' H. by apply stat_size_final in H as ->. Qed.

(** Every build, and [main], leaves a well-formed file system well
    formed, however it ends. *)
Lemma keeps_wf_build e root k fuel l : steps keeps_wf (build e root k fuel l).
Proof.
  assert (PreOrder keeps_wf) as HR by apply _.
  destruct l; simpl.
  - unfold build_python. apply steps_bind; [done|by apply steps_gets|].
    intros ex. destruct (negb ex); [by apply steps_raise|].
    apply steps_bind; [done|by apply steps_say|]. intros _.
    apply steps_bind; [done|apply keeps_wf_reset_dir|]. intros _.
    apply steps_bind; [done| |].
    + apply steps_copy_tree; [done|..].
      * intros rel. apply keeps_wf_ensure_dir.
      * intros rel n p. apply keeps_wf_copy2.
    + intros _. apply steps_bind; [done|by apply steps_gets|].
      intros n. by apply steps_say.
  - unfold build_javascript. apply steps_bind; [done|by apply steps_gets|].
    intros ex. destruct (negb ex); [by apply steps_raise|].
    apply steps_bind; [done|by apply steps_say|]. intros _.
    apply steps_bind; [done|apply keeps_wf_reset_dir|]. intros _.
    apply steps_bind; [done|apply keeps_wf_copy2|]. intros _.
    apply steps_bind; [done|apply keeps_wf_stat_size|].
    intros n. by apply steps_say.
  - unfold build_swift. apply steps_bind; [done|by apply steps_gets|].
    intros ex. destruct (negb ex); [by apply steps_raise|].
    apply steps_bind; [done|by apply steps_say|]. intros _.
    apply steps_bind; [done|apply keeps_wf_reset_dir|]. intros _.
    apply steps_bind; [done| |].
    + apply steps_copy_matching_files; [done|..].
      * intros rel. apply keeps_wf_ensure_dir.
      * intros rel p. apply keeps_wf_copy2.
    + intros copied. apply steps_bind; [done|by apply steps_gets|].
      intros lic. apply steps_bind; [done| |intros _; by apply steps_say].
      destruct lic; [apply keeps_wf_copy2 | by apply steps_ret].
  - unfold build_cpp. destruct (pypdf e) as [reader|]; [|by apply steps_raise].
    apply steps_bind; [done|by apply steps_gets|].
    intros ex. destruct (negb ex); [by apply steps_raise|].
    apply steps_bind; [done|by apply steps_say|]. intros _.
    apply steps_bind; [done|apply keeps_wf_reset_dir|]. intros _.
    apply steps_bind; [done|by apply steps_pdf_reader|]. intros pages.
    apply steps_bind; [done|by apply steps_say|]. intros _.
    apply steps_cpp_loop; [done|..].
    + intros n. apply keeps_wf_open_w.
    + intros n data. apply keeps_wf_f_write.
Qed.

Lemma keeps_wf_main e root k fuel : steps keeps_wf (main e root k fuel).
Proof.
  assert (PreOrder keeps_wf) as HR by apply _.
  unfold main. apply steps_bind; [done| |].
  { case_decide; [by apply steps_say | by apply steps_ret]. }
  intros _. apply steps_bind; [done|apply (keeps_wf_build e root k fuel Python)|].
  intros _. apply steps_bind; [done|apply (keeps_wf_build e root k fuel Javascript)|].
  intros _. apply steps_bind; [done|apply (keeps_wf_build e root k fuel Swift)|].
  intros _. apply steps_bind; [done|apply (keeps_wf_build e root k fuel Cpp)|].
  intros _. by apply steps_say.
Qed.

End WellFormed.

(* ===================================================================== *)
(** * [ensure_dir] and [reset_dir] *)
(* ===================================================================== *)

Module Directories.
Import Fs Spec Text Build PathFacts MonadFacts FsFacts Frame BuildFrame.
Import CopyClaims WellFormed.
Local Open Scope fs_scope.

Lemma wf_prefix_dir_or_self (s : fs) (q p : path) :
  wf s → s !! p = Some Dir → q `prefix_of` p → s !! q = Some Dir.
Proof.
  intros Hwf Hp Hq. destruct (decide (q = p)) as [->|Hne]; [done|].
  apply (wf_prefix_dir s q p); [done|by rewrite Hp|done|done].
Qed.

Lemma not_resettable (s : fs) (p : path) :
  ¬ resettable s p → ∃ r, first_file_prefix s p = Some r.
Proof.
  intros Hn. destruct (first_file_prefix s p) as [r|] eqn:E; [by exists r|].
  destruct Hn. unfold resettable. by apply first_file_prefix_None.
Qed.

Lemma ensure_dir_again (s : fs) (p : path) :
  resettable s p → ensure_dir p (s ∪ dir_chain p) = Done tt (s ∪ dir_chain p) [].
Proof.
  intros Hres. rewrite ensure_dir_Done.
  - f_equal. apply map_eq. intros q. rewrite !lookup_ensure.
    destruct (s !! q); [done|]. by case_decide.
  - intros q Hq. unfold is_file. rewrite lookup_ensure.
    specialize (Hres q Hq). unfold is_file in Hres.
    destruct (s !! q) as [[|c m]|]; [done|done|]. by case_decide.
Qed.

(** In a well-formed state [reset_dir] fails exactly when its path or an
    ancestor of it is a regular file, and it fails before it changes
    anything. *)
Lemma reset_dir_Raised (s : fs) (p : path) :
  wf s → ¬ resettable s p →
  reset_dir p s = Raised (NotADirectoryError p) s [].
Proof.
  intros Hwf Hn. apply not_resettable in Hn as [r Hr].
  pose proof (first_file_prefix_Some s p r Hr) as [Hpre Hfile].
  apply is_file_Some in Hfile as (c & m & Hfile).
  unfold reset_dir. rewrite bind_gets. unfold exists_.
  destruct (decide (r = p)) as [->|Hne].
  - rewrite Hfile. unfold bind, rmtree. by rewrite Hfile.
  - rewrite (wf_under_file s r p c m) by done.
    rewrite bind_ret. unfold ensure_dir. rewrite Hr. by rewrite decide_False.
Qed.

Lemma reset_dir_final (s s' : fs) (p : path) :
  wf s → final (reset_dir p s) = Some s' →
  (resettable s p ∧ s' = reset_state p s) ∨ (¬ resettable s p ∧ s' = s).
Proof.
  intros Hwf H.
  destruct (first_file_prefix s p) as [r|] eqn:E.
  - right. assert (¬ resettable s p) as Hn.
    { intros Hres. unfold resettable in Hres.
      rewrite <- first_file_prefix_None in Hres. congruence. }
    split; [done|]. rewrite reset_dir_Raised in H by done. by injection H.
  - left. rewrite first_file_prefix_None in E. split; [done|].
    rewrite reset_dir_Done in H by done. by injection H.
Qed.

(** X1.  [ensure_dir p] completes exactly when neither [p] nor an
    ancestor of [p] is a regular file.  It then prints nothing, leaves
    [p] and every ancestor of [p] a directory, keeps every entry that
    existed as it was, adds nothing but ancestors of [p], and calling it
    again changes nothing.  Otherwise it raises and the file system is as
    before. *)
Theorem ensure_dir_creates_chain (s : fs) (p : path) :
  (resettable s p →
   ∃ s', ensure_dir p s = Done tt s' []
         ∧ (∀ q, q `prefix_of` p → s' !! q = Some Dir)
         ∧ s ⊆ s'
         ∧ (∀ q, ¬ q `prefix_of` p → s' !! q = s !! q)
         ∧ ensure_dir p s' = Done tt s' [])
  ∧ (¬ resettable s p → ∃ e, ensure_dir p s = Raised e s []).
Proof.
  split.
  - intros Hres. exists (s ∪ dir_chain p).
    split; [by apply ensure_dir_Done|].
    split; [|split; [apply map_union_subseteq_l|split]].
    + intros q Hq. rewrite lookup_ensure. specialize (Hres q Hq).
      unfold is_file in Hres. destruct (s !! q) as [[|c m]|]; [done|done|].
      by rewrite decide_True.
    + intros q Hq. rewrite lookup_ensure. destruct (s !! q); [done|].
      by rewrite decide_False.
    + by apply ensure_dir_again.
  - intros Hn. apply not_resettable in Hn as [r Hr].
    unfold ensure_dir. rewrite Hr. case_decide; by eexists.
Qed.

(** X2.  In a well-formed file system where neither [p] nor an ancestor
    of [p] is a regular file, [reset_dir p] completes without printing:
    afterwards [p] is a directory with nothing below it, the ancestors
    of [p] are directories, every entry that is not below [p] is as it
    was, nothing but missing ancestors of [p] has been created, and the
    file system is well formed. *)
Theorem reset_dir_leaves_empty_dir (s : fs) (p : path) :
  wf s → resettable s p →
  ∃ s', reset_dir p s = Done tt s' []
        ∧ s' !! p = Some Dir
        ∧ (∀ q, strictly_under p q → s' !! q = None)
        ∧ (∀ q, q `prefix_of` p → s' !! q = Some Dir)
        ∧ (∀ q x, ¬ under p q → s !! q = Some x → s' !! q = Some x)
        ∧ (∀ q, ¬ under p q → ¬ q `prefix_of` p → s' !! q = s !! q)
        ∧ wf s'.
Proof.
  intros Hwf Hres. exists (reset_state p s).
  split; [by apply reset_dir_Done|].
  split; [apply CppBuild.reset_state_out|].
  split; [intros q Hq; by apply CppBuild.reset_state_empty|].
  split; [intros q Hq; by apply reset_state_prefix_dir|].
  split; [|split; [|by apply wf_reset_state]].
  - intros q x Hq Hx. rewrite lookup_reset_state.
    rewrite decide_False by done. by rewrite Hx.
  - intros q Hq Hpre. rewrite lookup_reset_state.
    rewrite decide_False by done. destruct (s !! q); [done|].
    by rewrite decide_False.
Qed.

Lemma reset_dir_blocked (s : fs) (p q : path) :
  wf s → q `prefix_of` p → is_file s q = true →
  reset_dir p s = Raised (NotADirectoryError p) s [].
Proof.
  intros Hwf Hq Hf. apply reset_dir_Raised; [done|].
  intros Hres. specialize (Hres q Hq). congruence.
Qed.

(** X3.  In a well-formed file system where [p] or an ancestor of [p]
    is a regular file, [reset_dir p] raises [NotADirectoryError] (from
    [rmtree] when [p] itself is the file, from [mkdir] otherwise) and
    nothing has been removed, created or printed. *)
Theorem reset_dir_blocked_by_file (s : fs) (p q : path) :
  wf s → q `prefix_of` p → is_file s q = true →
  reset_dir p s = Raised (NotADirectoryError p) s [].
Proof. apply reset_dir_blocked. Qed.

(** X4.  Resetting twice is resetting once: when [reset_dir p] has
    completed from a well-formed file system, running it again completes
    and leaves the file system exactly as the first run left it. *)
Theorem reset_dir_idempotent (s s1 : fs) (p : path) (o : list string) :
  wf s → reset_dir p s = Done tt s1 o →
  reset_dir p s1 = Done tt s1 [].
Proof.
  intros Hwf H. apply reset_dir_Done_inv in H as (-> & -> & Hres); [|done].
  rewrite reset_dir_Done.
  - f_equal. by apply reset_state_idemp.
  - by apply wf_reset_state.
  - intros q Hq. unfold is_file. by rewrite reset_state_prefix_dir.
Qed.

End Directories.

(* ===================================================================== *)
(** * What the builds leave alone *)
(* ===================================================================== *)

Module Confinement.
Import Fs Spec Text Build PathFacts MonadFacts FsFacts Frame BuildFrame.
Import CopyClaims WellFormed Directories.
Local Open Scope fs_scope.

(** The builds in terms of the primitives they apply to their output
    directory: a relation that every such primitive respects is respected
    by the build. *)
Section build_steps.
Context (R : relation fs) {R_preorder : PreOrder R}.
Context (e : env) (root : path) (k : Z) (fuel : nat) (l : language).
Hypothesis Hreset : steps R (reset_dir (out_path root l)).
Hypothesis Hensure : ∀ p, under (out_path root l) p → steps R (ensure_dir p).
Hypothesis Hcopy :
  ∀ src dst, strictly_under (out_path root l) dst → steps R (copy2 src dst).
Hypothesis Hopen :
  ∀ now mode p, strictly_under (out_path root l) p → steps R (open_w now mode p).
Hypothesis Hwrite :
  ∀ now p data, strictly_under (out_path root l) p → steps R (f_write now p data).

Lemma steps_stat_size p : steps R (stat_size p).
Proof. intros s s' H. by apply stat_size_final in H as ->. Qed.

Lemma steps_build : steps R (build e root k fuel l).
Proof.
  destruct l; simpl.
  - unfold build_python. apply steps_bind; [done|by apply steps_gets|].
    intros ex. destruct (negb ex); [by apply steps_raise|].
    apply steps_bind; [done|by apply steps_say|]. intros _.
    apply steps_bind; [done|apply Hreset|]. intros _.
    apply steps_bind; [done| |].
    + apply steps_copy_tree; [done|..].
      * intros rel. apply Hensure, under_app.
      * intros rel n p. apply Hcopy. rewrite <- app_assoc.
        apply strictly_under_app_snoc.
    + intros _. apply steps_bind; [done|by apply steps_gets|].
      intros n. by apply steps_say.
  - unfold build_javascript. apply steps_bind; [done|by apply steps_gets|].
    intros ex. destruct (negb ex); [by apply steps_raise|].
    apply steps_bind; [done|by apply steps_say|]. intros _.
    apply steps_bind; [done|apply Hreset|]. intros _.
    apply steps_bind; [done|apply Hcopy, strictly_under_snoc|]. intros _.
    apply steps_bind; [done|apply steps_stat_size|].
    intros n. by apply steps_say.
  - unfold build_swift. apply steps_bind; [done|by apply steps_gets|].
    intros ex. destruct (negb ex); [by apply steps_raise|].
    apply steps_bind; [done|by apply steps_say|]. intros _.
    apply steps_bind; [done|apply Hreset|]. intros _.
    apply steps_bind; [done| |].
    + apply steps_copy_matching_files; [done|..].
      * intros rel. apply Hensure, parent_under.
      * intros rel p. apply Hcopy, Idempotence.strictly_under_child_app.
    + intros copied. apply steps_bind; [done|by apply steps_gets|].
      intros lic. apply steps_bind; [done| |intros _; by apply steps_say].
      destruct lic; [apply Hcopy, strictly_under_snoc | by apply steps_ret].
  - unfold build_cpp. destruct (pypdf e) as [reader|]; [|by apply steps_raise].
    apply steps_bind; [done|by apply steps_gets|].
    intros ex. destruct (negb ex); [by apply steps_raise|].
    apply steps_bind; [done|by apply steps_say|]. intros _.
    apply steps_bind; [done|apply Hreset|]. intros _.
    apply steps_bind; [done|by apply steps_pdf_reader|]. intros pages.
    apply steps_bind; [done|by apply steps_say|]. intros _.
    apply steps_cpp_loop; [done|..].
    + intros n. apply Hopen, strictly_under_snoc.
    + intros n data. apply Hwrite, strictly_under_snoc.
Qed.
End build_steps.

Global Instance confined_preorder outs : PreOrder (confined outs).
Proof.
  split.
  - intros s Hwf. split; [done|]. intros q _. by left.
  - intros s1 s2 s3 H12 H23 Hwf1.
    destruct (H12 Hwf1) as [Hwf2 H12']. destruct (H23 Hwf2) as [Hwf3 H23'].
    split; [done|]. intros q Hq.
    destruct (H12' q Hq) as [E12|(N1 & D2 & Hp)];
      destruct (H23' q Hq) as [E23|(N2 & D3 & Hp')].
    + left. congruence.
    + right. split; [congruence|done].
    + right. split; [done|]. split; [congruence|done].
    + congruence.
Qed.

Lemma confined_unchanged outs (s s' : fs) :
  (wf s → wf s') →
  (∀ q, (∀ out, out ∈ outs → ¬ strictly_under out q) → s' !! q = s !! q) →
  confined outs s s'.
Proof. intros Hwf H Hs. split; [by apply Hwf|]. intros q Hq. left. by apply H. Qed.

Lemma confined_ensure_dir outs out p :
  out ∈ outs → under out p → steps (confined outs) (ensure_dir p).
Proof.
  intros Hout Hp s s' H Hwf.
  split; [by apply (keeps_wf_ensure_dir p s s' H)|]. intros q Hq.
  destruct (ensure_dir_final s s' p H q) as [|(Hn & Hpre & Hd)]; [by left|right].
  split; [done|]. split; [done|]. exists out. split; [done|].
  destruct (prefix_weak_total _ _ _ Hpre Hp) as [|Hu]; [done|].
  destruct (decide (q = out)) as [->|Hne]; [done|].
  destruct (Hq out Hout). by split.
Qed.

Lemma confined_reset_dir outs out :
  out ∈ outs → steps (confined outs) (reset_dir out).
Proof.
  intros Hout s s' H Hwf.
  destruct (reset_dir_final s s' out Hwf H) as [[Hres ->]|[_ ->]].
  - split; [by apply wf_reset_state|]. intros q Hq.
    rewrite lookup_reset_state. case_decide as Hu.
    + assert (q = out) as ->.
      { destruct (decide (q = out)); [done|]. destruct (Hq out Hout). by split. }
      rewrite decide_True by done.
      specialize (Hres out (reflexivity _)). unfold is_file in Hres.
      destruct (s !! out) as [[|c m]|]; [by left|done|].
      right. split; [done|]. split; [done|]. by exists out.
    + destruct (s !! q); [by left|]. case_decide; [|by left].
      right. split; [done|]. split; [done|]. by exists out.
  - split; [done|]. intros q _. by left.
Qed.

Lemma confined_copy2 outs out src dst :
  out ∈ outs → strictly_under out dst → steps (confined outs) (copy2 src dst).
Proof.
  intros Hout Hdst s s' H Hwf.
  split; [by apply (keeps_wf_copy2 src dst s s' H)|]. intros q Hq.
  destruct (copy2_final s s' src dst H q) as [|[->| ->]]; [by left|..].
  - by destruct (Hq out Hout).
  - destruct (Hq out Hout). destruct Hdst as [Hu Hne]. split.
    + by apply prefix_app_r.
    + intros Heq. apply Hne. apply (anti_symm prefix); [|done].
      rewrite <- Heq. by apply prefix_app_r.
Qed.

Lemma confined_open_w outs out now mode p :
  out ∈ outs → strictly_under out p → steps (confined outs) (open_w now mode p).
Proof.
  intros Hout Hp s s' H Hwf.
  split; [by apply (keeps_wf_open_w now mode p s s' H)|]. intros q Hq.
  destruct (open_w_final s s' now mode p H q) as [| ->]; [by left|].
  by destruct (Hq out Hout).
Qed.

Lemma confined_f_write outs out now p data :
  out ∈ outs → strictly_under out p → steps (confined outs) (f_write now p data).
Proof.
  intros Hout Hp s s' H Hwf.
  split; [by apply (keeps_wf_f_write now p data s s' H)|]. intros q Hq.
  destruct (f_write_final s s' now p data H q) as [| ->]; [by left|].
  by destruct (Hq out Hout).
Qed.

Lemma confined_build outs e root k fuel l :
  out_path root l ∈ outs → steps (confined outs) (build e root k fuel l).
Proof.
  intros Hout. apply steps_build; [apply _|..].
  - by apply confined_reset_dir.
  - intros p. by apply confined_ensure_dir.
  - intros src dst. by apply confined_copy2.
  - intros now mode p. by apply confined_open_w.
  - intros now p data. by apply confined_f_write.
Qed.

Lemma confined_main e root k fuel :
  steps (confined (out_path root <$> all_languages)) (main e root k fuel).
Proof.
  set (outs := out_path root <$> all_languages).
  assert (PreOrder (confined outs)) as HR by apply _.
  assert (∀ l, steps (confined outs) (build e root k fuel l)) as Hb.
  { intros l. apply confined_build. apply list_elem_of_fmap. exists l.
    split; [done|]. destruct l; set_solver. }
  unfold main. apply steps_bind; [done| |].
  { case_decide; [by apply steps_say | by apply steps_ret]. }
  intros _. apply steps_bind; [done|apply (Hb Python)|].
  intros _. apply steps_bind; [done|apply (Hb Javascript)|].
  intros _. apply steps_bind; [done|apply (Hb Swift)|].
  intros _. apply steps_bind; [done|apply (Hb Cpp)|].
  intros _. by apply steps_say.
Qed.

(** The raw input of a language is neither below nor above the output
    directory of any language. *)
Lemma raw_apart_from_outs root l l' q :
  under (raw_path root l') q →
  ¬ (q `prefix_of` out_path root l ∨ under (out_path root l) q).
Proof.
  intros Hq. destruct (decide (l = l')) as [->|Hne].
  - by apply CppBuild.raw_out_apart.
  - intros [H|H].
    + eapply (prefix_diverge _ _ _ q _ _ (lang_name l) (lang_name l'));
        [|apply out_path_split|apply raw_path_split|done|done].
      intros E. by apply lang_name_inj in E.
    + eapply (under_diverge _ _ _ q _ _ (lang_name l) (lang_name l'));
        [|apply out_path_split|apply raw_path_split|done|done].
      intros E. by apply lang_name_inj in E.
Qed.

(** X5.  However a build ends (completion or exception), from a
    well-formed file system it leaves a well-formed file system in which
    every path that is not strictly below the build's output directory is
    as it was, or is the output directory or one of its ancestors, was
    missing and is now a directory.  No regular file outside the output
    directory is created, changed or removed. *)
Theorem build_confined_to_output e root k fuel l (s s' : fs) :
  wf s → final (build e root k fuel l s) = Some s' →
  wf s'
  ∧ ∀ q, ¬ strictly_under (out_path root l) q →
      s' !! q = s !! q
      ∨ (s !! q = None ∧ s' !! q = Some Dir ∧ q `prefix_of` out_path root l).
Proof.
  intros Hwf H.
  destruct (confined_build [out_path root l] e root k fuel l
              ltac:(by left) s s' H Hwf) as [Hwf' Hc].
  split; [done|]. intros q Hq.
  destruct (Hc q) as [|(Hn & Hd & out & Hout & Hp)]; [|by left|].
  - intros out Hout. by apply list_elem_of_singleton in Hout as ->.
  - apply list_elem_of_singleton in Hout as ->. by right.
Qed.

(** X6.  However [main] ends, from a well-formed file system it leaves
    a well-formed one in which the raw inputs of all four languages are
    untouched, and the regular files outside the four output directories
    are exactly those that were there, unchanged. *)
Theorem main_preserves_inputs e root k fuel (s s' : fs) :
  wf s → final (main e root k fuel s) = Some s' →
  wf s'
  ∧ (∀ l q, under (raw_path root l) q → s' !! q = s !! q)
  ∧ (∀ q c m, (∀ l, ¬ strictly_under (out_path root l) q) →
       s' !! q = Some (File c m) ↔ s !! q = Some (File c m)).
Proof.
  intros Hwf H.
  destruct (confined_main e root k fuel s s' H Hwf) as [Hwf' Hc].
  assert (∀ q, (∀ l, ¬ strictly_under (out_path root l) q) →
            ∀ out, out ∈ out_path root <$> all_languages →
                   ¬ strictly_under out q) as Hall.
  { intros q Hq out Hout. apply list_elem_of_fmap in Hout as (l & -> & _).
    apply Hq. }
  split; [done|]. split.
  - intros l q Hq.
    destruct (Hc q) as [|(_ & _ & out & Hout & Hp)]; [|done|].
    + apply Hall. intros l0 [Hu _].
      apply (raw_apart_from_outs root l0 l q Hq). by right.
    + apply list_elem_of_fmap in Hout as (l0 & -> & _).
      destruct (raw_apart_from_outs root l0 l q Hq). by left.
  - intros q c m Hq.
    destruct (Hc q (Hall q Hq)) as [->|(Hn & Hd & _)]; [done|].
    rewrite Hn, Hd. split; intros; congruence.
Qed.

End Confinement.

(* ===================================================================== *)
(** * The javascript and python builds *)
(* ===================================================================== *)

Module SingleFile.
Import Fs Spec Text Build PathFacts MonadFacts FsFacts Frame BuildFrame.
Import CppBuild CopyFacts CppClaims CopyClaims.
Local Open Scope fs_scope.

(** The javascript build, run where its input is a regular file. *)
Lemma build_javascript_Done root (s : fs) c m :
  wf s → s !! raw_path root Javascript = Some (File c m) →
  resettable s (out_path root Javascript) →
  build_javascript root s =
    Done tt
      (<[out_path root Javascript ++ ["ecma262.txt"] := File c m]>
         (reset_state (out_path root Javascript) s))
      ["[kb] " +:+ hello Javascript;
       "[kb] javascript: bytes=" +:+ str_of_int (Z.of_nat (String.length c))].
Proof.
  intros Hwf Hraw Hres.
  set (raw := raw_path root Javascript) in *.
  set (out := out_path root Javascript) in *.
  set (sr := reset_state out s).
  assert (sr !! raw = Some (File c m)) as Hrawr.
  { unfold sr, raw, out. rewrite reset_state_raw by apply under_refl. done. }
  assert (sr !! (out ++ ["ecma262.txt"]) = None) as Htgt
    by apply reset_state_empty, strictly_under_snoc.
  unfold build_javascript. fold raw out. rewrite bind_gets.
  unfold exists_. rewrite Hraw. cbn [negb].
  unfold bind at 1. unfold say, print.
  unfold bind at 1. rewrite reset_dir_Done by done. fold sr.
  unfold bind at 1. unfold copy2, is_dir. rewrite Hrawr, Htgt.
  rewrite decide_False.
  2:{ intros Heq. apply (raw_out_apart root Javascript raw); [apply under_refl|].
      right. fold out raw. rewrite <- Heq. apply under_app. }
  rewrite Htgt, parent_snoc. unfold sr at 1. rewrite reset_state_out.
  unfold bind at 1. unfold stat_size. rewrite lookup_insert_eq. done.
Qed.

(** X7.  The javascript build, run from a well-formed file system in
    which [ecma262.txt] is a regular file and the output directory can be
    reset, completes.  It prints its progress line and the size in bytes
    of the file; afterwards the output directory holds [ecma262.txt] with
    the content, modification time and mode of the raw file and nothing
    else, and the raw file is untouched. *)
Theorem build_javascript_copies_one_file root (s : fs) c m :
  let raw := raw_path root Javascript in
  let out := out_path root Javascript in
  wf s → s !! raw = Some (File c m) → resettable s out →
  ∃ s',
    build_javascript root s
      = Done tt s'
          ["[kb] javascript: copy ecma262.txt -> docs/ecma-262/";
           "[kb] javascript: bytes=" +:+ str_of_int (Z.of_nat (String.length c))]
    ∧ s' !! out = Some Dir
    ∧ s' !! (out ++ ["ecma262.txt"]) = Some (File c m)
    ∧ (∀ q, strictly_under out q → q ≠ out ++ ["ecma262.txt"] → s' !! q = None)
    ∧ s' !! raw = Some (File c m).
Proof.
  intros raw out Hwf Hraw Hres. eexists. split.
  { by apply build_javascript_Done. }
  fold out. split; [|split; [|split]].
  - rewrite lookup_insert_ne by apply CppLoop.out_ne_child.
    apply reset_state_out.
  - by rewrite lookup_insert_eq.
  - intros q Hq Hne. rewrite lookup_insert_ne by done.
    by apply reset_state_empty.
  - rewrite lookup_insert_ne.
    + unfold out, raw. rewrite reset_state_raw by apply under_refl. done.
    + intros Heq. apply (raw_out_apart root Javascript raw); [apply under_refl|].
      right. fold out. rewrite <- Heq. apply under_app.
Qed.

(** X8.  When a directory stands where [ecma262.txt] should be, the
    javascript build passes its existence check, resets its output
    directory and only then fails, in [copy2], with [IsADirectoryError]:
    the previous output is gone and the output directory is left
    empty. *)
Theorem build_javascript_directory_input root (s : fs) :
  let raw := raw_path root Javascript in
  let out := out_path root Javascript in
  wf s → s !! raw = Some Dir → resettable s out →
  ∃ s',
    build_javascript root s
      = Raised (IsADirectoryError raw) s'
          ["[kb] javascript: copy ecma262.txt -> docs/ecma-262/"]
    ∧ s' !! out = Some Dir
    ∧ (∀ q, strictly_under out q → s' !! q = None).
Proof.
  intros raw out Hwf Hraw Hres. exists (reset_state out s). split.
  - unfold build_javascript. fold raw out. rewrite bind_gets.
    unfold exists_. rewrite Hraw. cbn [negb].
    unfold bind at 1. unfold say, print.
    unfold bind at 1. rewrite reset_dir_Done by done.
    unfold bind at 1. unfold copy2.
    unfold raw, out. rewrite reset_state_raw by apply under_refl.
    fold raw. by rewrite Hraw.
  - split; [apply reset_state_out|]. intros q Hq. by apply reset_state_empty.
Qed.

(** ** The python build: the reported count *)

(** The entries below two directories that hold the same tree are
    counted alike by name. *)
Lemma mirrored_count (s s' : fs) (src dst : path) (P : string → bool) :
  s !! src = Some Dir →
  (∀ rel, s' !! (dst ++ rel) = s !! (src ++ rel)) →
  length (filter (λ q, P (name q) = true) (rglob_all s' dst))
  = length (filter (λ q, P (name q) = true) (rglob_all s src)).
Proof.
  intros Hsrc Hmir.
  assert (is_dir s' dst = true) as Hd.
  { apply is_dir_Some. specialize (Hmir []). rewrite !app_nil_r in Hmir.
    by rewrite Hmir. }
  set (f := λ p : path, dst ++ default [] (relative_to p src)).
  rewrite <- (length_fmap f (filter _ (rglob_all s src))).
  apply Permutation_length, NoDup_Permutation.
  - apply NoDup_filter, NoDup_rglob_all.
  - apply NoDup_fmap_2_strong; [|apply NoDup_filter, NoDup_rglob_all].
    intros p p' Hp Hp' Heq.
    apply list_elem_of_filter in Hp as [_ Hp].
    apply list_elem_of_filter in Hp' as [_ Hp'].
    apply (elem_of_rglob_src s src Hsrc) in Hp as (rel & _ & -> & _).
    apply (elem_of_rglob_src s src Hsrc) in Hp' as (rel' & _ & -> & _).
    unfold f in Heq. rewrite !relative_to_app in Heq. simpl in Heq.
    apply app_inv_head in Heq. by subst.
  - intros q. rewrite list_elem_of_fmap. split.
    + intros Hq. apply list_elem_of_filter in Hq as [Hn Hq].
      apply elem_of_rglob_all in Hq as [Hq Hs]; [|done].
      apply strictly_under_app in Hq as (rel & Hrel & ->).
      exists (src ++ rel). split.
      * unfold f. by rewrite relative_to_app.
      * apply list_elem_of_filter. split.
        -- by rewrite name_app in * by done.
        -- apply (elem_of_rglob_src s src Hsrc). exists rel.
           by rewrite <- Hmir.
    + intros (p & -> & Hp). apply list_elem_of_filter in Hp as [Hn Hp].
      apply (elem_of_rglob_src s src Hsrc) in Hp as (rel & Hrel & -> & Hs).
      unfold f. rewrite relative_to_app. simpl.
      apply list_elem_of_filter. split.
      * by rewrite name_app in * by done.
      * apply elem_of_rglob_all; [done|]. split; [|by rewrite Hmir].
        apply strictly_under_app. by exists rel.
Qed.

(** The python build, run where its input is a directory. *)
Lemma build_python_Done root (s : fs) :
  wf s → s !! raw_path root Python = Some Dir →
  resettable s (out_path root Python) →
  ∃ s',
    build_python root s
      = Done tt s'
          ["[kb] " +:+ hello Python;
           "[kb] python: files="
             +:+ str_of_int (Z.of_nat (length
                   (rglob_ending s (raw_path root Python) ".txt")))]
    ∧ (∀ rel, s' !! (out_path root Python ++ rel)
              = s !! (raw_path root Python ++ rel)).
Proof.
  intros Hwf Hraw Hres.
  destruct (reset_state_dst root Python s Hwf Hres)
    as (Hwfr & Hrawr & Hpre & Hempty).
  set (raw := raw_path root Python) in *.
  set (out := out_path root Python) in *.
  destruct (copy_tree_mirror (reset_state out s) raw out)
    as (s' & Hrun & Hmir & Hframe); try done.
  - rewrite Hrawr; [done|apply under_refl].
  - intros Hu. eapply (raw_out_apart root Python); [done|]. by left.
  - intros Hu. eapply (raw_out_apart root Python); [apply under_refl|]. by right.
  - intros q Hq _. by apply Hpre.
  - unfold is_file. by rewrite Hpre.
  - assert (∀ rel, s' !! (out ++ rel) = s !! (raw ++ rel)) as Hfinal.
    { intros rel. rewrite Hmir. apply Hrawr, under_app. }
    exists s'. split; [|done].
    unfold build_python. fold raw out. rewrite bind_gets.
    unfold exists_. rewrite Hraw. cbn [negb].
    unfold bind at 1. unfold say, print.
    unfold bind at 1. rewrite reset_dir_Done by done.
    unfold bind at 1. rewrite Hrun.
    rewrite bind_gets. unfold rglob_ending.
    by rewrite (mirrored_count s s' raw out (ends_with ".txt") Hraw Hfinal).
Qed.

(** X9.  The python build reports, as [files=], the number of entries
    below the raw directory whose name ends with [.txt]: [rglob] yields
    directories as well as regular files, and compares names as they
    are written. *)
Theorem build_python_reports_txt_entries root (s : fs) :
  let raw := raw_path root Python in
  wf s → s !! raw = Some Dir → resettable s (out_path root Python) →
  ∃ s',
    build_python root s
      = Done tt s'
          ["[kb] python: copy raw text archive -> docs/python-docs-text/";
           "[kb] python: files="
             +:+ str_of_int (Z.of_nat (length
                   (filter (λ q, ends_with ".txt" (name q) = true)
                      (filter (strictly_under raw) (keys s)))))].
Proof.
  intros raw Hwf Hraw Hres.
  destruct (build_python_Done root s Hwf Hraw Hres) as (s' & Hrun & _).
  exists s'. rewrite Hrun. unfold rglob_ending, rglob_all, is_dir.
  fold raw. by rewrite Hraw.
Qed.

(** [copy_tree] does nothing when there is no directory to walk. *)
Lemma copy_tree_not_dir (s : fs) (src dst : path) :
  is_dir s src = false → copy_tree src dst s = Done tt s [].
Proof.
  intros Hd. unfold copy_tree. rewrite bind_gets. unfold walk. by rewrite Hd.
Qed.

(** X10.  [copy_tree] from a path that is missing or is a regular file
    completes without doing anything: [os.walk] swallows the scan error,
    so not even the destination is created.  Hence the python build, run
    where a regular file stands in place of the raw directory, passes the
    existence check and completes with an empty output directory,
    reporting [files=0]. *)
Theorem copy_tree_nothing_to_walk :
  (∀ (s : fs) (src dst : path),
     is_dir s src = false → copy_tree src dst s = Done tt s [])
  ∧ (∀ root (s : fs) c m,
       let out := out_path root Python in
       wf s → s !! raw_path root Python = Some (File c m) →
       resettable s out →
       ∃ s',
         build_python root s
           = Done tt s'
               ["[kb] python: copy raw text archive -> docs/python-docs-text/";
                "[kb] python: files=0"]
         ∧ s' !! out = Some Dir
         ∧ (∀ q, strictly_under out q → s' !! q = None)).
Proof.
  split; [apply copy_tree_not_dir|].
  intros root s c m out Hwf Hraw Hres.
  set (raw := raw_path root Python) in *.
  set (sr := reset_state out s).
  assert (sr !! raw = Some (File c m)) as Hrawr.
  { unfold sr, raw, out. rewrite reset_state_raw by apply under_refl. done. }
  assert (rglob_all sr out = []) as Hnone.
  { apply elem_of_nil_inv. intros q Hq.
    apply elem_of_rglob_all in Hq as [Hq [x Hx]].
    - unfold sr in Hx. rewrite reset_state_empty in Hx; done.
    - apply is_dir_Some, reset_state_out. }
  exists sr. split; [|split; [apply reset_state_out|]].
  - unfold build_python. fold raw out. rewrite bind_gets.
    unfold exists_. rewrite Hraw. cbn [negb].
    unfold bind at 1. unfold say, print.
    unfold bind at 1. rewrite reset_dir_Done by done. fold sr.
    unfold bind at 1. rewrite copy_tree_not_dir.
    2:{ unfold is_dir. by rewrite Hrawr. }
    rewrite bind_gets. unfold rglob_ending. by rewrite Hnone.
  - intros q Hq. by apply reset_state_empty.
Qed.

End SingleFile.

(* ===================================================================== *)
(** * copy-filtered: directories and extensions *)
(* ===================================================================== *)

Module Filtered.
Import Fs Spec Text Build PathFacts MonadFacts FsFacts Frame BuildFrame.
Import CppBuild CopyFacts CppClaims CopyClaims FilterClaims SwiftClaims.
Import WellFormed.
Local Open Scope fs_scope.

Global Instance preserves_preorder (I : fs → Prop) : PreOrder (preserves I).
Proof.
  split.
  - by intros s Hs.
  - intros s1 s2 s3 H12 H23 H1. by apply H23, H12.
Qed.

(** What [copy2] writes is a regular file, at or directly below its
    destination. *)
Lemma copy2_final_file (s s' : fs) (src dst : path) :
  final (copy2 src dst s) = Some s' →
  ∀ q, s' !! q = s !! q ∨ (under dst q ∧ is_file s' q = true).
Proof.
  unfold copy2. intros H q.
  destruct (s !! src) as [[|c m]|]; [by injection H as <-; left| |by injection H as <-; left].
  set (target := if is_dir s dst then dst ++ [name src] else dst) in *.
  assert (under dst target) as Ht.
  { unfold target. destruct (is_dir s dst); [apply under_app|apply under_refl]. }
  case_decide; [by injection H as <-; left|].
  destruct (s !! target) as [[|c' m']|];
    [by injection H as <-; left|..];
    (destruct (s !! parent target) as [[|c'' m'']|];
       [|by injection H as <-; left..]);
    injection H as <-;
    (destruct (decide (q = target)) as [->|Hne];
       [right; split; [done|]; unfold is_file; by rewrite lookup_insert_eq
       |left; by rewrite lookup_insert_ne]).
Qed.

Lemma keeps_wf_copy_matching_files src dst suffixes :
  steps keeps_wf (copy_matching_files src dst suffixes).
Proof.
  apply steps_copy_matching_files; [apply _|..].
  - intros rel. apply keeps_wf_ensure_dir.
  - intros rel p. apply keeps_wf_copy2.
Qed.

(** The copy loops never remove an entry. *)
Lemma stays_ensure_dir (q p : path) :
  steps (preserves (λ cur, is_Some (cur !! q))) (ensure_dir p).
Proof.
  intros cur cur' Hfin Hq.
  destruct (ensure_dir_final cur cur' p Hfin q) as [->|(_ & _ & ->)]; [done|eauto].
Qed.

Lemma stays_copy2 (q src dst : path) :
  steps (preserves (λ cur, is_Some (cur !! q))) (copy2 src dst).
Proof.
  intros cur cur' Hfin Hq.
  destruct (copy2_final_file cur cur' src dst Hfin q) as [->|[_ Hf]]; [done|].
  apply is_file_Some in Hf as (c & m & ->). eauto.
Qed.

Lemma stays_copy_matching_files (q src dst : path) suffixes :
  steps (preserves (λ cur, is_Some (cur !! q)))
    (copy_matching_files src dst suffixes).
Proof.
  apply steps_copy_matching_files; [apply _|..].
  - intros rel. apply stays_ensure_dir.
  - intros rel p. apply stays_copy2.
Qed.

Section directories.
Context (s : fs) (src dst : path) (suffixes : list string).
Hypothesis Hwf : wf s.
Hypothesis Hsrc : s !! src = Some Dir.
Hypothesis Hapart1 : ¬ under src dst.
Hypothesis Hapart2 : ¬ under dst src.
Hypothesis Hdst_anc : ∀ q, q `prefix_of` dst → q ≠ dst → s !! q = Some Dir.
Hypothesis Hdst_nf : is_file s dst = false.
Hypothesis Hdst_empty : ∀ q, strictly_under dst q → s !! q = None.

Local Abbreviation justified := (dirs_justified s src dst suffixes).

Lemma justified_ensure_dir rel :
  rel ≠ [] → matching s suffixes (src ++ rel) →
  steps (preserves justified) (ensure_dir (parent (dst ++ rel))).
Proof.
  intros Hrel Hm cur cur' Hfin [Hfr HJ].
  rewrite parent_app in Hfin by done.
  pose proof (ensure_dir_final cur cur' _ Hfin) as Hch. split.
  - intros q Hq. destruct (Hch q) as [->|(Hn & Hpre & _)]; [by apply Hfr|].
    destruct (prefix_weak_total _ _ _ Hpre (under_app dst (parent rel)))
      as [Hqd|Hdq]; [|done].
    rewrite Hfr in Hn by done. rewrite Hdst_anc in Hn; [done|done|].
    intros ->. by apply Hq.
  - intros rel0 Hd. destruct (Hch (dst ++ rel0)) as [Heq|(_ & Hpre & _)].
    + apply HJ. by rewrite <- Heq.
    + right. apply prefix_app_inv in Hpre as [r1 Hr1].
      exists (r1 ++ [name rel]). split; [by destruct r1|].
      assert (rel = parent rel ++ [name rel]) as Hsplit.
      { unfold parent, name. by apply app_removelast_last. }
      assert (rel0 ++ r1 ++ [name rel] = rel) as ->; [|done].
      by rewrite app_assoc, <- Hr1.
Qed.

Lemma justified_copy2 p rel :
  steps (preserves justified) (copy2 p (dst ++ rel)).
Proof.
  intros cur cur' Hfin [Hfr HJ].
  pose proof (copy2_final_file cur cur' _ _ Hfin) as Hch. split.
  - intros q Hq. destruct (Hch q) as [->|[Hu _]]; [by apply Hfr|].
    destruct Hq. eapply under_trans; [apply under_app|done].
  - intros rel0 Hd. destruct (Hch (dst ++ rel0)) as [Heq|[_ Hf]].
    + apply HJ. by rewrite <- Heq.
    + unfold is_file in Hf. by rewrite Hd in Hf.
Qed.

Lemma justified_copy_matching_files :
  steps (preserves justified) (copy_matching_files src dst suffixes).
Proof.
  assert (PreOrder (preserves justified)) as HR by apply _.
  unfold copy_matching_files.
  apply steps_bind; [done|by apply steps_gets|]. intros paths.
  apply steps_fold_each; [done|]. intros p count _.
  intros cur cur' Hfin HI. rewrite bind_gets in Hfin.
  destruct (is_file cur p) eqn:Hf; cbn [negb] in Hfin;
    [|by injection Hfin as <-].
  destruct (bool_decide _) eqn:Hs; cbn [negb] in Hfin;
    [|by injection Hfin as <-].
  apply bool_decide_eq_true in Hs.
  destruct (relative_to p src) as [rel|] eqn:Hr; [|by injection Hfin as <-].
  apply relative_to_Some in Hr as ->.
  assert (cur !! (src ++ rel) = s !! (src ++ rel)) as Hsame.
  { destruct HI as [Hfr _]. apply Hfr.
    by apply (not_under_dst_src src dst Hapart1 Hapart2). }
  assert (matching s suffixes (src ++ rel)) as Hm.
  { split; [|done]. unfold is_file in *. by rewrite <- Hsame. }
  assert (rel ≠ []) as Hrel.
  { intros ->. destruct Hm as [Hm _]. unfold is_file in Hm.
    rewrite app_nil_r, Hsrc in Hm. done. }
  assert (steps (preserves justified)
            (ensure_dir (parent (dst ++ rel)) ;;
             copy2 (src ++ rel) (dst ++ rel) ;; ret (S count))) as Hst.
  { apply steps_bind; [done|by apply justified_ensure_dir|]. intros _.
    apply steps_bind; [done|apply justified_copy2|]. intros _.
    by apply steps_ret. }
  exact (Hst cur cur' Hfin HI).
Qed.

(** After the filtered copy, the directories below the destination are
    those that lie above a copied file. *)
Lemma copy_matching_dirs (n : nat) (s' : fs) :
  copy_matching_files src dst suffixes s = Done n s' [] →
  (∀ rel c m,
     s' !! (dst ++ rel) = Some (File c m) ↔
     s !! (src ++ rel) = Some (File c m) ∧ matching s suffixes (src ++ rel)) →
  ∀ rel, s !! (dst ++ rel) = None →
    s' !! (dst ++ rel) = Some Dir ↔
    ∃ rel', rel' ≠ [] ∧ matching s suffixes (src ++ rel ++ rel').
Proof.
  intros Hrun Hiff rel Hrel.
  assert (justified s') as [_ HJ].
  { apply (justified_copy_matching_files s s'); [by rewrite Hrun|].
    split; [done|]. intros rel0 Hd. by left. }
  assert (wf s') as Hwf'.
  { apply (keeps_wf_copy_matching_files src dst suffixes s s');
      [by rewrite Hrun|done]. }
  split.
  - intros Hd. destruct (HJ rel Hd) as [Hs|]; [congruence|done].
  - intros (rel' & Hrel' & Hm). pose proof Hm as [Hf _].
    apply is_file_Some in Hf as (c & m & Hf).
    assert (s' !! (dst ++ rel ++ rel') = Some (File c m)) as Hc.
    { by apply Hiff. }
    apply (wf_prefix_dir s' (dst ++ rel) (dst ++ rel ++ rel')); [done|by rewrite Hc| |].
    + apply prefix_app, prefix_app_r. done.
    + intros Heq. apply app_inv_head in Heq.
      rewrite <- (app_nil_r rel) in Heq at 1. by apply app_inv_head in Heq.
Qed.
End directories.

(** X11.  [copy_matching_files] from an existing directory into a place
    that is apart from it and empty or missing completes and creates no
    empty directory: a directory exists below the destination exactly
    above the places of the selected files, so every directory it
    creates holds, at some depth, a copied regular file.  The destination
    itself exists afterwards exactly when it existed before or some file
    was selected. *)
Theorem copy_filtered_no_empty_directory (s : fs) (src dst : path)
    (suffixes : list string) :
  wf s → s !! src = Some Dir →
  ¬ under src dst → ¬ under dst src →
  (∀ q, q `prefix_of` dst → q ≠ dst → s !! q = Some Dir) →
  is_file s dst = false →
  (∀ q, strictly_under dst q → s !! q = None) →
  ∃ n s',
    copy_matching_files src dst suffixes s = Done n s' []
    ∧ (∀ rel, rel ≠ [] →
         s' !! (dst ++ rel) = Some Dir ↔
         ∃ rel', rel' ≠ [] ∧ matching s suffixes (src ++ rel ++ rel'))
    ∧ (∀ rel, rel ≠ [] → s' !! (dst ++ rel) = Some Dir →
         ∃ rel', rel' ≠ [] ∧ is_file s' (dst ++ rel ++ rel') = true)
    ∧ (is_Some (s' !! dst) ↔
       is_Some (s !! dst) ∨ ∃ p, p ∈ rglob_all s src ∧ matching s suffixes p).
Proof.
  intros Hwf Hsrc Ha1 Ha2 Hanc Hnf Hempty.
  destruct (copy_matching_mirror s src dst Hwf Hsrc Ha1 Ha2 Hanc Hnf Hempty suffixes)
    as (s' & Hrun & [Hframe Hmir] & Hiff & Hdst).
  assert (∀ rel c m,
            s' !! (dst ++ rel) = Some (File c m) ↔
            s !! (src ++ rel) = Some (File c m)
            ∧ matching s suffixes (src ++ rel)) as Hiff' by done.
  assert (∀ rel, rel ≠ [] →
            s' !! (dst ++ rel) = Some Dir ↔
            ∃ rel', rel' ≠ [] ∧ matching s suffixes (src ++ rel ++ rel'))
    as Hdirs.
  { intros rel Hrel.
    apply (copy_matching_dirs s src dst suffixes Hwf Hsrc Ha1 Ha2 Hanc
             _ s' Hrun Hiff').
    apply Hempty, strictly_under_app. by exists rel. }
  eexists _, s'. split; [done|]. split; [done|]. split.
  - intros rel Hrel Hd. apply Hdirs in Hd as (rel' & Hrel' & Hm); [|done].
    exists rel'. split; [done|]. pose proof Hm as [Hf _].
    apply is_file_Some in Hf as (c & m & Hf). apply is_file_Some.
    exists c, m. by apply Hiff'.
  - split.
    + intros [x Hx]. destruct (s !! dst) as [y|] eqn:Ey; [left; eauto|right].
      assert (justified_dst : dirs_justified s src dst suffixes s').
      { apply (justified_copy_matching_files s src dst suffixes Hsrc Ha1 Ha2
                 Hanc s s'); [by rewrite Hrun|].
        split; [done|]. intros rel0 Hd. by left. }
      destruct justified_dst as [_ HJ].
      rewrite <- (app_nil_r dst) in Hx. pose proof Hx as Hx'.
      apply Hmir in Hx'. rewrite app_nil_r in Hx'.
      assert (x = Dir) as -> by congruence.
      destruct (HJ [] Hx) as [Hs|(rel' & Hrel' & Hm)].
      * rewrite app_nil_r in Hs. congruence.
      * simpl in Hm. exists (src ++ rel'). split; [|done].
        apply (elem_of_rglob_src s src Hsrc). exists rel'.
        split; [done|]. split; [done|]. destruct Hm as [Hf _].
        apply is_file_Some in Hf as (c & m & Hf). by rewrite Hf.
    + intros [[y Hy]|Hex].
      * apply (stays_copy_matching_files dst src dst suffixes s s');
          [by rewrite Hrun|by rewrite Hy].
      * rewrite Hdst by done. eauto.
Qed.

End Filtered.

(* ===================================================================== *)
(** * File names: extensions and batch names *)
(* ===================================================================== *)

Module Names.
Import Fs Spec Text Build TextFacts CppLoop.

Lemma rfind_dot_Some (n : string) (i : nat) :
  rfind_dot n = Some i →
  ∃ stem rest, n = stem +:+ String "." rest
               ∧ String.length stem = i
               ∧ drop_str i n = String "." rest.
Proof.
  revert i. induction n as [|c n IH]; intros i; simpl; [done|].
  destruct (rfind_dot n) as [j|] eqn:E.
  - intros [= <-]. destruct (IH j eq_refl) as (stem & rest & -> & Hl & Hd).
    exists (String c stem), rest. simpl. by rewrite Hl.
  - case_decide as Hc; [|done]. intros [= <-]. subst c.
    by exists "", n.
Qed.

Lemma rfind_dot_app (stem rest : string) :
  rfind_dot rest = None →
  rfind_dot (stem +:+ String "." rest) = Some (String.length stem).
Proof.
  intros Hr. induction stem as [|c stem IH]; simpl.
  - by rewrite Hr.
  - by rewrite IH.
Qed.

Lemma drop_str_app (stem x : string) :
  drop_str (String.length stem) (stem +:+ x) = x.
Proof. induction stem as [|c stem IH]; simpl; [by destruct x|done]. Qed.

Lemma lower_ascii_dot (c : ascii) : lower_ascii c = "."%char → c = "."%char.
Proof. destruct c as [[] [] [] [] [] [] [] []]; by intros [=]. Qed.

Lemma lower_ascii_not_dot (c d : ascii) :
  lower_ascii c = d → d ≠ "."%char → c ≠ "."%char.
Proof. intros <- Hd ->. by apply Hd. Qed.

(** X12.  The file names the swift build selects: the lower-cased
    [Path.suffix] of a name is [.md] exactly when the name is a non-empty
    stem followed by a dot and the letters m and d in either case.  A
    hidden file called [.md] has no extension and is not selected, nor is
    [notes.md.bak]. *)
Theorem md_extension (n : string) :
  lower (suffix_of n) = ".md" ↔
  ∃ stem c1 c2,
    stem ≠ "" ∧ n = stem +:+ String "." (String c1 (String c2 ""))
    ∧ lower_ascii c1 = "m"%char ∧ lower_ascii c2 = "d"%char.
Proof.
  split.
  - unfold suffix_of. destruct (rfind_dot n) as [i|] eqn:E; [|done].
    case_decide as Hi; [|done].
    destruct (rfind_dot_Some n i E) as (stem & rest & -> & Hl & ->).
    simpl. intros H.
    assert (lower rest = "md") as Hrest by (by injection H). clear H.
    destruct rest as [|c1 [|c2 [|c3 rest]]]; simpl in Hrest; try done.
    injection Hrest as H1 H2.
    exists stem, c1, c2. split; [|done].
    intros ->. simpl in Hl. lia.
  - intros (stem & c1 & c2 & Hstem & -> & H1 & H2).
    unfold suffix_of. rewrite rfind_dot_app.
    + rewrite decide_True.
      * rewrite drop_str_app. cbn [lower]. by rewrite H1, H2.
      * rewrite str_length_app. simpl. destruct stem; [done|]. simpl. lia.
    + simpl. rewrite decide_False.
      * by rewrite decide_False by (by eapply lower_ascii_not_dot).
      * by eapply lower_ascii_not_dot.
Qed.

(** X13.  The name of a batch file determines its page range, and the
    page numbers can be read back from it: for 0-based pages [a] and [b]
    that are not negative the name is [cpp-draft.p], the digits of [a+1],
    [-p], the digits of [b+1] and [.txt], each number written with at
    least four digits and parsing back to itself; two ranges with the
    same name are the same range. *)
Theorem out_name_determines_range (a b : Z) :
  0 ≤ a → 0 ≤ b →
  (∃ x y,
     out_name a b = "cpp-draft.p" +:+ x +:+ "-p" +:+ y +:+ ".txt"
     ∧ all_digits x = true ∧ all_digits y = true
     ∧ (4 ≤ String.length x)%nat ∧ (4 ≤ String.length y)%nat
     ∧ parse_N x = Some (Z.to_N (a + 1))
     ∧ parse_N y = Some (Z.to_N (b + 1)))
  ∧ (∀ a' b', 0 ≤ a' → 0 ≤ b' →
       out_name a b = out_name a' b' → a = a' ∧ b = b').
Proof.
  intros Ha Hb. split.
  - exists (format_04d (a + 1)), (format_04d (b + 1)).
    split; [done|].
    split; [apply format_04d_digits; lia|].
    split; [apply format_04d_digits; lia|].
    rewrite !format_04d_nonneg by lia.
    split; [apply zfill_length|]. split; [apply zfill_length|].
    unfold zfill, str_of_int.
    destruct (Z.ltb_spec (a + 1) 0); [lia|].
    destruct (Z.ltb_spec (b + 1) 0); [lia|].
    by rewrite !parse_zeros, !parse_str_of_N.
  - intros a' b' Ha' Hb' H.
    assert (a = a') as <- by (by eapply out_name_inj_start).
    split; [done|]. unfold out_name in H.
    apply (inj (String.app "cpp-draft.p")) in H.
    apply (inj (String.app (format_04d (a + 1)))) in H.
    apply (inj (String.app "-p")) in H.
    apply (digits_split _ _ _ _ "."%char) in H;
      [|done|by apply format_04d_digits; lia..].
    apply format_04d_inj in H; lia.
Qed.

(** ** Sorting batch files by name *)

Lemma str_ltb_trans (x y z : string) :
  str_ltb x y = true → str_ltb y z = true → str_ltb x z = true.
Proof.
  revert y z. induction x as [|a x IH]; intros [|b y] [|c z]; simpl; try done.
  destruct (N.ltb_spec (N_of_ascii a) (N_of_ascii b)) as [Hab|Hab];
    destruct (N.ltb_spec (N_of_ascii b) (N_of_ascii c)) as [Hbc|Hbc];
    destruct (N.ltb_spec (N_of_ascii a) (N_of_ascii c)) as [Hac|Hac];
    try done; try lia;
    destruct (N.eqb_spec (N_of_ascii a) (N_of_ascii b)) as [Eab|Eab];
    destruct (N.eqb_spec (N_of_ascii b) (N_of_ascii c)) as [Ebc|Ebc];
    destruct (N.eqb_spec (N_of_ascii a) (N_of_ascii c)) as [Eac|Eac];
    try done; try lia.
  apply IH.
Qed.

Lemma str_ltb_app (x y r r' : string) :
  String.length x = String.length y → str_ltb x y = true →
  str_ltb (x +:+ r) (y +:+ r') = true.
Proof.
  revert y. induction x as [|a x IH]; intros [|b y]; simpl; try done.
  intros [= Hl]. destruct (_ <? _)%N; [done|].
  destruct (_ =? _)%N; [|done]. by apply IH.
Qed.

Lemma str_ltb_prefix (p x y : string) :
  str_ltb (p +:+ x) (p +:+ y) = str_ltb x y.
Proof.
  induction p as [|a p IH]; [done|]. simpl.
  by rewrite N.ltb_irrefl, N.eqb_refl.
Qed.

Lemma sorted_steps_spec (n : nat) (z i : Z) :
  sorted_steps n z = true → z ≤ i < z + Z.of_nat n → sorted_step i = true.
Proof.
  revert z. induction n as [|n IH]; intros z H Hi; [lia|].
  simpl in H. apply andb_true_iff in H as [Hz Hn].
  destruct (decide (i = z)) as [->|Hne]; [done|].
  apply (IH (z + 1)); [done|lia].
Qed.

(** By evaluation, for the 9999 pairs of consecutive page numbers. *)
Lemma format_04d_consecutive : sorted_steps (Z.to_nat 9999) 0 = true.
Proof. vm_cast_no_check (@eq_refl bool true). Qed.

Lemma format_04d_step (x : Z) :
  0 ≤ x < 9999 →
  str_ltb (format_04d x) (format_04d (x + 1)) = true
  ∧ String.length (format_04d x) = 4%nat
  ∧ String.length (format_04d (x + 1)) = 4%nat.
Proof.
  intros Hx.
  pose proof (sorted_steps_spec _ 0 x format_04d_consecutive ltac:(lia)) as H.
  unfold sorted_step in H.
  apply andb_true_iff in H as [H H3]. apply andb_true_iff in H as [H1 H2].
  apply Nat.eqb_eq in H2. apply Nat.eqb_eq in H3. done.
Qed.

Lemma format_04d_lt (x y : Z) :
  0 ≤ x → x < y → y ≤ 9999 →
  str_ltb (format_04d x) (format_04d y) = true
  ∧ String.length (format_04d x) = 4%nat
  ∧ String.length (format_04d y) = 4%nat.
Proof.
  intros Hx Hxy Hy.
  assert (∃ d : nat, y = x + 1 + Z.of_nat d) as [d ->].
  { exists (Z.to_nat (y - x - 1)). lia. }
  clear Hxy. induction d as [|d IH].
  - rewrite Z.add_0_r in *. apply format_04d_step. lia.
  - destruct IH as (Hlt & Hl1 & Hl2); [lia|].
    destruct (format_04d_step (x + 1 + Z.of_nat d)) as (Hlt' & _ & Hl3); [lia|].
    replace (x + 1 + Z.of_nat (S d)) with (x + 1 + Z.of_nat d + 1) by lia.
    split; [by eapply str_ltb_trans|done].
Qed.

(** X14.  Batch files sort by name in page order, as long as the page
    numbers have at most four digits: for batches starting at 0-based
    pages [a < a'] with [a' + 1 <= 9999], the name of the first comes
    before the name of the second in byte-wise lexicographic order.  The
    bound is sharp: the name for page 10000 sorts before the name for
    page 9999. *)
Theorem out_names_sort_in_page_order (a b a' b' : Z) :
  0 ≤ a → a < a' → a' + 1 ≤ 9999 →
  str_ltb (out_name a b) (out_name a' b') = true
  ∧ str_ltb (out_name 9999 9999) (out_name 9998 9998) = true.
Proof.
  intros Ha Haa Ha'. split; [|done].
  destruct (format_04d_lt (a + 1) (a' + 1)) as (Hlt & Hl1 & Hl2); [lia..|].
  unfold out_name. rewrite str_ltb_prefix. apply str_ltb_app; [congruence|done].
Qed.

End Names.

(* ===================================================================== *)
(** * paginate-pdf: progress lines and unreadable drafts *)
(* ===================================================================== *)

Module CppReport.
Import Fs Spec Text Build PathFacts MonadFacts FsFacts Frame BuildFrame.
Import TextFacts CppFacts Partition CppLoop CppBuild.
Local Open Scope fs_scope.

(** X15.  The progress lines of paginate-pdf: with a positive batch
    size (and fuel for the loop) the build prints its opening line, then
    the page count and the batch size, then one [write] line per batch
    file in page order, and nothing else; that is [ceil(T/k) + 2]
    lines. *)
Theorem paginate_pdf_progress_lines e root k fuel (s : fs) pages :
  let T := Z.of_nat (length pages) in
  cpp_input e root s pages → 1 ≤ k →
  (Z.to_nat (ceil_div T k) ≤ fuel)%nat →
  ∃ s' o,
    build_cpp e root k fuel s = Done tt s' o
    ∧ o = ["[kb] cpp: extract pdf -> docs/cpp-working-draft-pdf/ (split by pages)";
           "[kb] cpp: pages=" +:+ str_of_int T +:+ ", pages_per_file="
             +:+ str_of_int k]
          ++ ((λ b, "[kb] cpp: write " +:+ out_name b.1 b.2) <$> batches T k)
    ∧ Z.of_nat (length o) = ceil_div T k + 2.
Proof.
  intros T (Hwf & Hres & reader & c & m & Hpy & Hpdf & Hparse) Hk Hfuel.
  eexists _, _. split.
  { by apply (build_cpp_Done e root k fuel s reader c m pages). }
  split; [done|].
  unfold batch_log. rewrite length_app, length_fmap. fold T.
  rewrite length_batches. simpl.
  assert (0 ≤ ceil_div T k).
  { unfold ceil_div. apply Z.div_pos; lia. }
  lia.
Qed.

(** X16.  When [PdfReader] rejects the draft, paginate-pdf fails only
    after it has reset its output directory: the exception leaves the
    directory empty, so the batch files of an earlier run are gone, and
    only the opening progress line has been printed.  The draft itself is
    untouched. *)
Theorem paginate_pdf_unreadable e root k fuel (s : fs) reader c m :
  let out := out_path root Cpp in
  wf s → resettable s out →
  pypdf e = Some reader → s !! raw_path root Cpp = Some (File c m) →
  reader c = None →
  ∃ s',
    build_cpp e root k fuel s
      = Raised PdfReadError s'
          ["[kb] cpp: extract pdf -> docs/cpp-working-draft-pdf/ (split by pages)"]
    ∧ s' !! out = Some Dir
    ∧ (∀ q, strictly_under out q → s' !! q = None)
    ∧ s' !! raw_path root Cpp = Some (File c m).
Proof.
  intros out Hwf Hres Hpy Hpdf Hparse. exists (reset_state out s).
  split; [|split; [apply reset_state_out|split]].
  - unfold build_cpp. rewrite Hpy. rewrite bind_gets.
    unfold exists_. rewrite Hpdf. cbn [negb].
    unfold bind at 1. unfold say, print.
    unfold bind at 1. rewrite reset_dir_Done by done.
    unfold bind at 1. unfold pdf_reader.
    rewrite reset_state_raw by apply under_refl. by rewrite Hpdf, Hparse.
  - intros q Hq. by apply reset_state_empty.
  - unfold out. by rewrite reset_state_raw by apply under_refl.
Qed.

End CppReport.

(* ===================================================================== *)
(** * The swift build: the whole output directory *)
(* ===================================================================== *)

Module SwiftOutput.
Import Fs Spec Text Build PathFacts MonadFacts FsFacts Frame BuildFrame.
Import CppBuild CopyFacts CppClaims CopyClaims FilterClaims SwiftClaims.
Import WellFormed Filtered.
Local Open Scope fs_scope.

Lemma matching_md (s : fs) (p : path) :
  matching s [".md"] p ↔
  is_file s p = true ∧ lower (suffix_of (name p)) = ".md".
Proof. unfold matching. by rewrite list_elem_of_singleton. Qed.

(** Nothing is selected where [TSPL.docc] is not a directory. *)
Lemma no_match_without_docc (s : fs) (raw rel : path) :
  wf s → is_dir s (raw ++ ["TSPL.docc"]) = false →
  ¬ matching s [".md"] ((raw ++ ["TSPL.docc"]) ++ rel).
Proof.
  intros Hwf Hd [Hf Hsuf]. apply list_elem_of_singleton in Hsuf.
  destruct rel as [|x rel].
  - rewrite app_nil_r, name_snoc in Hsuf. done.
  - apply is_file_Some in Hf as (c & m & Hf).
    assert (s !! (raw ++ ["TSPL.docc"]) = Some Dir) as Hdir.
    { apply (wf_prefix_dir s _ ((raw ++ ["TSPL.docc"]) ++ x :: rel));
        [done|by rewrite Hf|apply prefix_app_r; done|].
      intros Heq. rewrite <- (app_nil_r (raw ++ ["TSPL.docc"])) in Heq at 1.
      by apply app_inv_head in Heq. }
    unfold is_dir in Hd. by rewrite Hdir in Hd.
Qed.

(** The swift build, run where its raw directory exists and the license
    is not a directory. *)
Lemma build_swift_Done root (s : fs) :
  wf s → exists_ s (raw_path root Swift) = true →
  resettable s (out_path root Swift) →
  is_dir s (raw_path root Swift ++ ["LICENSE.txt"]) = false →
  ∃ s',
    build_swift root s
      = Done tt s'
          ["[kb] " +:+ hello Swift;
           "[kb] swift: md_files="
             +:+ str_of_int (Z.of_nat (length
                   (filter (matching s [".md"])
                      (rglob_all s (raw_path root Swift ++ ["TSPL.docc"])))))]
    ∧ swift_output root s s'.
Proof.
  intros Hwf Hraw Hres Hlicnd.
  destruct (reset_state_dst root Swift s Hwf Hres)
    as (Hwfr & Hrawr & Hpre & Hempty).
  set (raw := raw_path root Swift) in *.
  set (out := out_path root Swift) in *.
  set (docc := raw ++ ["TSPL.docc"]). set (lic := raw ++ ["LICENSE.txt"]) in *.
  set (sr := reset_state out s) in *. set (dst := out ++ ["TSPL.docc"]).
  assert (∀ q, under raw q → ¬ under out q) as Hro.
  { intros q Hq Hu. eapply (raw_out_apart root Swift); [done|]. by right. }
  assert (∀ q, under docc q → sr !! q = s !! q) as Hdoccr.
  { intros q Hq. apply Hrawr. eapply under_trans; [apply under_app|done]. }
  assert (∀ rel, matching sr [".md"] (docc ++ rel) ↔ matching s [".md"] (docc ++ rel))
    as Hmatch.
  { intros rel. unfold matching, is_file. by rewrite Hdoccr by apply under_app. }
  (* the filtered copy *)
  assert (∃ sc, copy_matching_files docc dst [".md"] sr
                = Done (length (filter (matching s [".md"]) (rglob_all s docc))) sc []
              ∧ (∀ q, ¬ under dst q → sc !! q = sr !! q)
              ∧ (∀ rel c m, sc !! (dst ++ rel) = Some (File c m) ↔
                   s !! (docc ++ rel) = Some (File c m)
                   ∧ matching s [".md"] (docc ++ rel))
              ∧ (∀ rel, sc !! (dst ++ rel) = Some Dir ↔
                   ∃ rel', rel' ≠ [] ∧ matching s [".md"] (docc ++ rel ++ rel')))
    as (sc & Hcopy & Hframe & Hfiles & Hdirs).
  { destruct (is_dir sr docc) eqn:Hd.
    - assert (sr !! docc = Some Dir) as Hsrc by (by apply is_dir_Some).
      assert (¬ under docc dst) as Ha1.
      { intros Hu. apply (Hro dst).
        - eapply under_trans; [apply under_app|done].
        - apply under_app. }
      assert (¬ under dst docc) as Ha2.
      { intros Hu. apply (Hro docc); [apply under_app|].
        eapply under_trans; [apply under_app|done]. }
      assert (∀ q, q `prefix_of` dst → q ≠ dst → sr !! q = Some Dir) as Hanc.
      { intros q Hq Hne. apply Hpre.
        destruct (prefix_app_cases _ _ _ Hq) as [|Hs]; [done|].
        apply strictly_under_app in Hs as (r & Hr & ->).
        apply prefix_app_inv in Hq.
        destruct r as [|x [|y r]]; [done| |].
        - apply prefix_cons_inv_1 in Hq as Hx. by subst.
        - apply prefix_cons_inv_2, prefix_nil_inv in Hq. done. }
      assert (∀ rel, sr !! (dst ++ rel) = None) as Hnone.
      { intros rel. apply Hempty. unfold dst. rewrite <- app_assoc.
        apply strictly_under_app. by exists (["TSPL.docc"] ++ rel). }
      destruct (copy_matching_mirror sr docc dst) with (suffixes := [".md"])
        as (sc & Hrun & [Hfr _] & Hiff & _); try done.
      + unfold is_file. specialize (Hnone []). rewrite app_nil_r in Hnone.
        by rewrite Hnone.
      + intros q [[r ->] _]. apply Hnone.
      + exists sc. split; [|split; [done|split]].
        * rewrite Hrun. f_equal. by apply matching_count_ext.
        * intros rel c m. rewrite Hiff, Hmatch.
          by rewrite Hdoccr by apply under_app.
        * intros rel.
          rewrite (copy_matching_dirs sr docc dst [".md"] Hwfr Hsrc Ha1 Ha2 Hanc
                     _ sc Hrun Hiff rel (Hnone rel)).
          split; intros (rel' & Hrel' & Hm); exists rel'; (split; [done|]);
            by apply Hmatch.
    - assert (is_dir s docc = false) as Hds.
      { unfold is_dir in *. by rewrite <- (Hdoccr docc) by apply under_refl. }
      assert (∀ rel, sr !! (dst ++ rel) = None) as Hnone.
      { intros rel. apply Hempty. unfold dst. rewrite <- app_assoc.
        apply strictly_under_app. by exists (["TSPL.docc"] ++ rel). }
      exists sr. split; [|split; [done|split]].
      + rewrite copy_matching_not_dir by done. f_equal.
        by rewrite rglob_all_not_dir.
      + intros rel c m. rewrite Hnone. split; [done|]. intros [_ Hm].
        by destruct (no_match_without_docc s raw rel Hwf Hds).
      + intros rel. rewrite Hnone. split; [done|].
        intros (rel' & _ & Hm).
        by destruct (no_match_without_docc s raw (rel ++ rel') Hwf Hds). }
  (* the license *)
  assert (¬ under dst lic) as Hlic_dst.
  { intros Hu. apply (Hro lic); [apply under_app|].
    eapply under_trans; [apply under_app|done]. }
  assert (sc !! lic = s !! lic) as Hlic.
  { rewrite Hframe by done. apply Hrawr, under_app. }
  assert (¬ under dst (out ++ ["LICENSE.txt"])) as Htgt_dst.
  { apply (siblings_apart out "LICENSE.txt" "TSPL.docc"); [done|apply under_refl]. }
  assert (sc !! (out ++ ["LICENSE.txt"]) = None) as Htgt.
  { rewrite Hframe by done. apply Hempty, strictly_under_snoc. }
  assert (sc !! out = Some Dir) as Hout.
  { rewrite Hframe; [by apply Hpre|]. apply prefix_snoc_not. }
  assert (∃ s', (if exists_ sc lic
                 then copy2 lic (out ++ ["LICENSE.txt"])
                 else ret tt) sc = Done tt s' []
                ∧ s' !! (out ++ ["LICENSE.txt"]) = s !! lic
                ∧ ∀ q, q ≠ out ++ ["LICENSE.txt"] → s' !! q = sc !! q)
    as (s' & Hstep & Hcopied & Hrest).
  { unfold exists_. rewrite Hlic. unfold is_dir in Hlicnd.
    destruct (s !! lic) as [[|c m]|] eqn:El; [done|..].
    - unfold copy2, is_dir. rewrite Hlic, Htgt. rewrite decide_False.
      2:{ intros Heq. apply (Hro lic); [apply under_app|].
          rewrite <- Heq. apply under_app. }
      rewrite Htgt, parent_snoc, Hout. eexists. split; [done|].
      split; [by rewrite lookup_insert_eq|].
      intros q Hq. by rewrite lookup_insert_ne.
    - exists sc. split; [done|]. split; [done|done]. }
  assert (∀ rel, dst ++ rel ≠ out ++ ["LICENSE.txt"]) as Hdst_ne.
  { intros rel Heq. apply Htgt_dst. rewrite <- Heq. apply under_app. }
  exists s'. split.
  { unfold build_swift. fold raw out docc lic dst. rewrite bind_gets, Hraw.
    cbn [negb]. unfold bind at 1. unfold say, print.
    unfold bind at 1. rewrite reset_dir_Done by done. fold sr.
    unfold bind at 1. rewrite Hcopy. rewrite bind_gets.
    unfold bind at 1. rewrite Hstep. done. }
  unfold swift_output. fold raw out docc lic dst.
  split; [|split; [done|split; [|split]]].
  - rewrite Hrest; [done|]. intros Heq. symmetry in Heq.
    by apply CppLoop.out_ne_child in Heq.
  - intros rel c m. rewrite Hrest by done. rewrite Hfiles, matching_md.
    split; [by intros [? [_ ?]]|]. intros [Hf ?]. split; [done|].
    split; [|done]. apply is_file_Some. eauto.
  - intros rel. rewrite Hrest by done. rewrite Hdirs. split.
    + intros (rel' & Hrel' & Hm). apply matching_md in Hm as [Hf Hsuf].
      apply is_file_Some in Hf as (c & m & Hf). by exists rel', c, m.
    + intros (rel' & c & m & Hrel' & Hf & Hsuf). exists rel'. split; [done|].
      apply matching_md. split; [|done]. apply is_file_Some. eauto.
  - intros q Hq Hnd Hne. rewrite Hrest by done. rewrite Hframe by done.
    by apply Hempty.
Qed.

(** The description [swift_output] leaves no choice below the output
    directory. *)
Lemma swift_output_unique root (s s1 s2 : fs) (q : path) :
  swift_output root s s1 → swift_output root s s2 →
  under (out_path root Swift) q → s2 !! q = s1 !! q.
Proof.
  intros (Ho1 & Hl1 & Hf1 & Hd1 & Hn1) (Ho2 & Hl2 & Hf2 & Hd2 & Hn2) Hq.
  destruct (decide (q = out_path root Swift)) as [->|Hne]; [congruence|].
  destruct (decide (q = out_path root Swift ++ ["LICENSE.txt"])) as [->|Hnl];
    [congruence|].
  destruct (decide (under (out_path root Swift ++ ["TSPL.docc"]) q)) as [[rel ->]|Hnd].
  - set (q := (out_path root Swift ++ ["TSPL.docc"]) ++ rel).
    destruct (s1 !! q) as [[|c m]|] eqn:E1.
    + apply Hd1 in E1. by apply Hd2.
    + apply Hf1 in E1. by apply Hf2.
    + destruct (s2 !! q) as [[|c m]|] eqn:E2; [| |done].
      * apply Hd2 in E2. apply Hd1 in E2. unfold q in *. congruence.
      * apply Hf2 in E2. apply Hf1 in E2. unfold q in *. congruence.
  - rewrite Hn1, Hn2; done.
Qed.

(** The description depends on the raw input only. *)
Lemma swift_output_ext root (s t s' : fs) :
  (∀ q, under (raw_path root Swift) q → t !! q = s !! q) →
  swift_output root t s' → swift_output root s s'.
Proof.
  intros Heq (Ho & Hl & Hf & Hd & Hn).
  assert (∀ rel, t !! ((raw_path root Swift ++ ["TSPL.docc"]) ++ rel)
                 = s !! ((raw_path root Swift ++ ["TSPL.docc"]) ++ rel)) as Hdocc.
  { intros rel. apply Heq. rewrite <- app_assoc. apply under_app. }
  split; [done|]. split; [by rewrite Hl, Heq by apply under_app|].
  split; [|split; [|done]].
  - intros rel c m. by rewrite Hf, Hdocc.
  - intros rel. rewrite Hd. split; intros (rel' & c & m & ? & Hx & ?);
      exists rel', c, m; (split; [done|]); (split; [|done]).
    + by rewrite <- Hdocc.
    + by rewrite Hdocc.
Qed.

(** X17.  The whole output of the swift build.  Run from a well-formed
    file system in which the raw directory exists and its [LICENSE.txt]
    is not a directory, the build completes, and its output directory
    holds: [LICENSE.txt] exactly when the raw directory has it, with the
    same content and metadata; below [TSPL.docc] the regular files of
    the raw [TSPL.docc] whose lower-cased extension is [.md], at the same
    relative paths with the same content and metadata, and exactly the
    directories that lead to such a file; and no other entry.  No other
    file of the book repository is copied, whatever its extension, and
    no empty directory is created. *)
Theorem build_swift_whole_output root (s : fs) :
  let raw := raw_path root Swift in
  let out := out_path root Swift in
  let docc := raw ++ ["TSPL.docc"] in
  let dst := out ++ ["TSPL.docc"] in
  wf s → exists_ s raw = true → resettable s out →
  is_dir s (raw ++ ["LICENSE.txt"]) = false →
  ∃ s' o,
    build_swift root s = Done tt s' o
    ∧ s' !! out = Some Dir
    ∧ s' !! (out ++ ["LICENSE.txt"]) = s !! (raw ++ ["LICENSE.txt"])
    ∧ (∀ rel c m,
         s' !! (dst ++ rel) = Some (File c m) ↔
         s !! (docc ++ rel) = Some (File c m)
         ∧ lower (suffix_of (name (docc ++ rel))) = ".md")
    ∧ (∀ rel,
         s' !! (dst ++ rel) = Some Dir ↔
         ∃ rel' c m, rel' ≠ []
           ∧ s !! (docc ++ rel ++ rel') = Some (File c m)
           ∧ lower (suffix_of (name (docc ++ rel ++ rel'))) = ".md")
    ∧ (∀ n rest x, s' !! (out ++ n :: rest) = Some x →
         n = "TSPL.docc" ∨ (n = "LICENSE.txt" ∧ rest = [])).
Proof.
  intros raw out docc dst Hwf Hraw Hres Hlic.
  destruct (build_swift_Done root s Hwf Hraw Hres Hlic)
    as (s' & Hrun & Ho & Hl & Hf & Hd & Hn).
  eexists s', _. split; [done|]. split; [done|]. split; [done|].
  split; [done|]. split; [done|].
  intros n rest x Hx.
  destruct (decide (n = "TSPL.docc")) as [->|Hnd]; [by left|right].
  destruct (decide (out ++ n :: rest = out ++ ["LICENSE.txt"])) as [Heq|Hne].
  { apply app_inv_head in Heq. by injection Heq as -> ->. }
  rewrite Hn in Hx; [done| | |done].
  - apply strictly_under_app. by exists (n :: rest).
  - intros [r Hr]. fold out in Hr. rewrite <- app_assoc in Hr.
    apply app_inv_head in Hr. simpl in Hr. injection Hr as -> _. done.
Qed.

End SwiftOutput.

(* ===================================================================== *)
(** * The four builds together *)
(* ===================================================================== *)

Module Together.
Import Fs Spec Text Build PathFacts MonadFacts FsFacts Frame BuildFrame.
Import CppBuild CopyFacts CppClaims CopyClaims FilterClaims SwiftClaims.
Import WellFormed Directories Confinement SingleFile Filtered SwiftOutput Driver.
Local Open Scope fs_scope.

Lemma reset_state_under (p : path) (s t : fs) (q : path) :
  under p q → reset_state p t !! q = reset_state p s !! q.
Proof. intros Hq. rewrite !lookup_reset_state. by rewrite !(decide_True _ _ Hq). Qed.

Lemma write_batches_ext e pages out bs (s t : fs) (q : path) :
  t !! q = s !! q →
  write_batches e pages out bs t !! q = write_batches e pages out bs s !! q.
Proof.
  revert s t. induction bs as [|b bs IH]; intros s t Hq; [done|].
  simpl. apply IH. destruct (decide (batch_path out b = q)) as [->|Hne].
  - by rewrite !lookup_insert_eq.
  - by rewrite !lookup_insert_ne.
Qed.

(** A build whose raw input is in shape produces its output directory
    and its progress lines from that input alone. *)
Lemma build_local e root k fuel l (s t : fs) :
  wf s → wf t →
  resettable s (out_path root l) → resettable t (out_path root l) →
  ready e root k fuel l s →
  (∀ q, under (raw_path root l) q → t !! q = s !! q) →
  ∃ s' t' o,
    build e root k fuel l s = Done tt s' o
    ∧ build e root k fuel l t = Done tt t' o
    ∧ ∀ q, under (out_path root l) q → t' !! q = s' !! q.
Proof.
  intros Hwfs Hwft Hress Hrest Hready Heq. destruct l; simpl in *.
  - assert (t !! raw_path root Python = Some Dir) as Hrawt.
    { rewrite Heq; [done|apply under_refl]. }
    destruct (build_python_Done root s Hwfs Hready Hress) as (s' & Hs & Hms).
    destruct (build_python_Done root t Hwft Hrawt Hrest) as (t' & Ht & Hmt).
    assert (length (rglob_ending t (raw_path root Python) ".txt")
            = length (rglob_ending s (raw_path root Python) ".txt")) as Hcount.
    { unfold rglob_ending.
      apply (mirrored_count s t _ _ (ends_with ".txt") Hready).
      intros rel. apply Heq, under_app. }
    rewrite Hcount in Ht.
    eexists s', t', _. split; [done|]. split; [done|].
    intros q [rel ->]. rewrite Hms, Hmt. apply Heq, under_app.
  - apply is_file_Some in Hready as (c & m & Hraw).
    assert (t !! raw_path root Javascript = Some (File c m)) as Hrawt.
    { rewrite Heq; [done|apply under_refl]. }
    eexists _, _, _.
    split; [by apply build_javascript_Done|].
    split; [by apply build_javascript_Done|].
    intros q Hq.
    destruct (decide (out_path root Javascript ++ ["ecma262.txt"] = q)) as [<-|Hne].
    + by rewrite !lookup_insert_eq.
    + rewrite !lookup_insert_ne by done. by apply reset_state_under.
  - destruct Hready as [Hraw Hlic].
    assert (exists_ t (raw_path root Swift) = true) as Hrawt.
    { unfold exists_ in *. by rewrite Heq by apply under_refl. }
    assert (is_dir t (raw_path root Swift ++ ["LICENSE.txt"]) = false) as Hlict.
    { unfold is_dir in *. by rewrite Heq by apply under_app. }
    destruct (build_swift_Done root s Hwfs Hraw Hress Hlic) as (s' & Hs & Hos).
    destruct (build_swift_Done root t Hwft Hrawt Hrest Hlict) as (t' & Ht & Hot).
    rewrite (matching_count_ext s t (raw_path root Swift ++ ["TSPL.docc"]) [".md"])
      in Ht.
    2:{ intros q Hq. apply Heq. eapply under_trans; [apply under_app|done]. }
    eexists s', t', _. split; [done|]. split; [done|].
    intros q Hq. apply (swift_output_unique root s s' t' q); [done| |done].
    by apply (swift_output_ext root s t t').
  - destruct Hready as (reader & c & m & pages & Hpy & Hpdf & Hparse & Hk & Hfuel).
    assert (t !! raw_path root Cpp = Some (File c m)) as Hpdft.
    { rewrite Heq; [done|apply under_refl]. }
    eexists _, _, _.
    split; [by apply (build_cpp_Done e root k fuel s reader c m pages)|].
    split; [by apply (build_cpp_Done e root k fuel t reader c m pages)|].
    intros q Hq. by apply write_batches_ext, reset_state_under.
Qed.

Lemma confined_elsewhere outs (t t' : fs) (q : path) :
  confined outs t t' → wf t →
  (∀ out, out ∈ outs → ¬ (q `prefix_of` out ∨ under out q)) →
  t' !! q = t !! q.
Proof.
  intros Hc Hwf Hq. destruct (Hc Hwf) as [_ Hc'].
  destruct (Hc' q) as [|(_ & _ & out & Hout & Hp)]; [|done|].
  - intros out Hout [Hu _]. apply (Hq out Hout). by right.
  - destruct (Hq out Hout). by left.
Qed.

Lemma confined_resettable outs (t t' : fs) (p : path) :
  confined outs t t' → wf t →
  (∀ out q, out ∈ outs → q `prefix_of` p → ¬ strictly_under out q) →
  resettable t p → resettable t' p.
Proof.
  intros Hc Hwf Hp Hres q Hq. destruct (Hc Hwf) as [_ Hc'].
  specialize (Hres q Hq). unfold is_file in *.
  destruct (Hc' q) as [->|(_ & -> & _)]; [|done..].
  intros out Hout. by apply Hp.
Qed.

Lemma confined_for_each e root k fuel ls :
  steps (confined (out_path root <$> ls)) (for_each ls (build e root k fuel)).
Proof.
  apply steps_for_each; [apply _|]. intros l Hl.
  apply confined_build. apply list_elem_of_fmap. by exists l.
Qed.

(** Running the builds of [ls] one after the other from a state that
    has the raw inputs of [s] gives, in each output directory, what the
    build of that language gives when run alone from [s]. *)
Lemma run_all e root k fuel (s : fs) (s_ : language → fs)
    (o_ : language → list string) :
  wf s →
  ∀ ls, NoDup ls →
    (∀ l, l ∈ ls →
       resettable s (out_path root l) ∧ ready e root k fuel l s
       ∧ build e root k fuel l s = Done tt (s_ l) (o_ l)) →
    ∀ t, wf t →
      (∀ l q, under (raw_path root l) q → t !! q = s !! q) →
      (∀ l, l ∈ ls → resettable t (out_path root l)) →
      ∃ t', for_each ls (build e root k fuel) t
              = Done tt t' (concat (o_ <$> ls))
            ∧ ∀ l q, l ∈ ls → under (out_path root l) q → t' !! q = s_ l !! q.
Proof.
  intros Hwf ls.
  induction ls as [|l ls IH]; intros Hnd Hin t Hwft Hraw Hrest.
  - exists t. split; [done|]. intros l q Hl. by apply elem_of_nil in Hl.
  - apply NoDup_cons in Hnd as [Hl Hnd].
    destruct (Hin l ltac:(left)) as (Hres & Hready & Halone).
    destruct (build_local e root k fuel l s t Hwf Hwft Hres
                (Hrest l ltac:(left)) Hready (Hraw l))
      as (s' & t1 & o & Hs & Ht & Hagree).
    rewrite Halone in Hs. injection Hs as <- <-.
    assert (confined [out_path root l] t t1) as Hc.
    { apply (confined_build [out_path root l] e root k fuel l ltac:(left) t t1).
      by rewrite Ht. }
    assert (wf t1) as Hwf1 by (by apply Hc).
    destruct (IH Hnd) with (t := t1) as (t' & Hrun & Hagree').
    { intros l' Hl'. apply Hin. by right. }
    { done. }
    { intros l' q Hq. rewrite <- (Hraw l' q Hq).
      apply (confined_elsewhere _ t t1 q Hc Hwft).
      intros out Hout. apply list_elem_of_singleton in Hout as ->.
      by apply (raw_apart_from_outs root l l' q). }
    { intros l' Hl'. apply (confined_resettable _ t t1 _ Hc Hwft).
      - intros out q Hout Hq [Hu _].
        apply list_elem_of_singleton in Hout as ->.
        apply (out_paths_apart root l' l q); [|done|by left].
        intros ->. done.
      - apply Hrest. by right. }
    exists t'. split.
    + unfold for_each in *. simpl.
      by apply (bind_Done _ _ t tt t1 (o_ l) tt t' _ Ht).
    + intros l' q Hl' Hq. apply elem_of_cons in Hl' as [->|Hl'];
        [|by apply Hagree'].
      rewrite <- (Hagree q Hq).
      apply (confined_elsewhere (out_path root <$> ls) t1 t' q); [|done|].
      * apply (confined_for_each e root k fuel ls t1 t'). by rewrite Hrun.
      * intros out Hout. apply list_elem_of_fmap in Hout as (l' & -> & Hl').
        apply (out_paths_apart root l' l q); [|done].
        intros ->. done.
Qed.

(** X18.  A build depends on its raw input only.  Take two well-formed
    file systems that hold the same tree at the raw input of a language,
    that input being in the shape the build expects, and in both of which
    the output directory can be reset.  Then the build completes from
    both, prints the same lines, and leaves the same tree in the output
    directory, whatever else the two file systems hold. *)
Theorem build_depends_on_raw_input_only e root k fuel l (s t : fs) :
  wf s → wf t →
  resettable s (out_path root l) → resettable t (out_path root l) →
  ready e root k fuel l s →
  (∀ q, under (raw_path root l) q → t !! q = s !! q) →
  ∃ s' t' o,
    build e root k fuel l s = Done tt s' o
    ∧ build e root k fuel l t = Done tt t' o
    ∧ ∀ q, under (out_path root l) q → t' !! q = s' !! q.
Proof. apply build_local. Qed.

(** [main] where all four raw inputs are in shape. *)
Lemma main_all e root k fuel (s : fs) :
  wf s → (∀ l, resettable s (out_path root l)) →
  (∀ l, ready e root k fuel l s) →
  ∃ (s_ : language → fs) (o_ : language → list string) (s' : fs),
    (∀ l, build e root k fuel l s = Done tt (s_ l) (o_ l))
    ∧ main e root k fuel s
        = Done tt s'
            (root_warning root ++ o_ Python ++ o_ Javascript ++ o_ Swift
               ++ o_ Cpp ++ ["[kb] done"])
    ∧ ∀ l q, under (out_path root l) q → s' !! q = s_ l !! q.
Proof.
  intros Hwf Hres Hready.
  assert (∀ l, ∃ s' o, build e root k fuel l s = Done tt s' o) as Halone.
  { intros l.
    destruct (build_local e root k fuel l s s Hwf Hwf (Hres l) (Hres l)
                (Hready l) ltac:(done)) as (s' & _ & o & Hs & _).
    by exists s', o. }
  destruct (Halone Python) as (s1 & o1 & H1).
  destruct (Halone Javascript) as (s2 & o2 & H2).
  destruct (Halone Swift) as (s3 & o3 & H3).
  destruct (Halone Cpp) as (s4 & o4 & H4).
  set (s_ := λ l, match l with
                  | Python => s1 | Javascript => s2 | Swift => s3 | Cpp => s4
                  end).
  set (o_ := λ l, match l with
                  | Python => o1 | Javascript => o2 | Swift => o3 | Cpp => o4
                  end).
  assert (∀ l, build e root k fuel l s = Done tt (s_ l) (o_ l)) as Hall
    by (by intros []).
  destruct (run_all e root k fuel s s_ o_ Hwf all_languages
              NoDup_all_languages ltac:(done) s Hwf ltac:(done) ltac:(done))
    as (s' & Hrun & Hagree).
  exists s_, o_, s'. split; [done|].
  rewrite main_unfold, Hrun. split.
  - simpl. by rewrite app_nil_r, <- !app_assoc.
  - intros l q. apply Hagree. destruct l; set_solver.
Qed.

(** X19.  [main] on a complete knowledge base.  When the raw inputs of
    all four languages are in shape and all four output directories can
    be reset, every build completes when run alone, and [main] completes
    with exit status 0: it prints the warning about the root (if any),
    the lines of the python, javascript, swift and cpp builds in that
    order, and [done]; and each output directory then holds exactly what
    the build of its language leaves there when run alone, so that no
    build disturbs the result of another. *)
Theorem main_runs_all_four e root k fuel (s : fs) :
  wf s → (∀ l, resettable s (out_path root l)) →
  (∀ l, ready e root k fuel l s) →
  ∃ (s_ : language → fs) (o_ : language → list string) (s' : fs),
    (∀ l, build e root k fuel l s = Done tt (s_ l) (o_ l))
    ∧ main e root k fuel s
        = Done tt s'
            (root_warning root ++ o_ Python ++ o_ Javascript ++ o_ Swift
               ++ o_ Cpp ++ ["[kb] done"])
    ∧ exit_status (main e root k fuel s) = Some 0
    ∧ ∀ l q, under (out_path root l) q → s' !! q = s_ l !! q.
Proof.
  intros Hwf Hres Hready.
  destruct (main_all e root k fuel s Hwf Hres Hready)
    as (s_ & o_ & s' & Halone & Hmain & Hagree).
  exists s_, o_, s'. split; [done|]. split; [done|]. split; [|done].
  by rewrite Hmain.
Qed.

Lemma elem_of_first_three (l : language) :
  l ∈ [Python; Javascript; Swift] ↔ l ≠ Cpp.
Proof.
  destruct l; (split; intros Hl);
    try done; try (by apply (bool_decide_unpack _)).
  exfalso. revert Hl. by apply (bool_decide_unpack _).
Qed.

(** X20.  [main] without [pypdf].  The import is attempted only when
    the cpp build starts: with the raw inputs of python, javascript and
    swift in shape, [main] builds these three, each output directory
    holding what its build leaves when run alone, and then fails with the
    missing-dependency message and exit status 1; the line [done] is not
    printed and the cpp output directory is left as it was. *)
Theorem main_without_pypdf e root k fuel (s : fs) :
  pypdf e = None → wf s →
  (∀ l, l ≠ Cpp → resettable s (out_path root l) ∧ ready e root k fuel l s) →
  ∃ (s_ : language → fs) (o_ : language → list string) (s' : fs),
    (∀ l, l ≠ Cpp → build e root k fuel l s = Done tt (s_ l) (o_ l))
    ∧ main e root k fuel s
        = Raised (SystemExit missing_dependency_msg) s'
            (root_warning root ++ o_ Python ++ o_ Javascript ++ o_ Swift)
    ∧ exit_status (main e root k fuel s) = Some 1
    ∧ (∀ l q, l ≠ Cpp → under (out_path root l) q → s' !! q = s_ l !! q)
    ∧ (∀ q, under (out_path root Cpp) q → s' !! q = s !! q).
Proof.
  intros Hpy Hwf Hin.
  assert (∀ l, l ≠ Cpp → ∃ s' o, build e root k fuel l s = Done tt s' o) as Halone.
  { intros l Hl. destruct (Hin l Hl) as [Hres Hready].
    destruct (build_local e root k fuel l s s Hwf Hwf Hres Hres
                Hready ltac:(done)) as (s' & _ & o & Hs & _).
    by exists s', o. }
  destruct (Halone Python) as (s1 & o1 & H1); [done|].
  destruct (Halone Javascript) as (s2 & o2 & H2); [done|].
  destruct (Halone Swift) as (s3 & o3 & H3); [done|].
  set (s_ := λ l, match l with
                  | Python => s1 | Javascript => s2 | Swift => s3 | Cpp => s
                  end).
  set (o_ := λ l, match l with
                  | Python => o1 | Javascript => o2 | Swift => o3 | Cpp => []
                  end).
  assert (∀ l, l ≠ Cpp → build e root k fuel l s = Done tt (s_ l) (o_ l)) as Hall
    by (by intros []).
  destruct (run_all e root k fuel s s_ o_ Hwf [Python; Javascript; Swift])
    with (t := s) as (s' & Hrun & Hagree); try done.
  { by apply (bool_decide_unpack _). }
  { intros l Hl%elem_of_first_three. destruct (Hin l Hl). auto. }
  { intros l Hl%elem_of_first_three. by apply Hin. }
  assert (for_each all_languages (build e root k fuel) s
          = Raised (SystemExit missing_dependency_msg) s'
              (o_ Python ++ o_ Javascript ++ o_ Swift)) as Hfail.
  { change all_languages with ([Python; Javascript; Swift] ++ [Cpp]).
    rewrite for_each_app.
    replace (o_ Python ++ o_ Javascript ++ o_ Swift)
      with (concat (o_ <$> [Python; Javascript; Swift]) ++ [])
      by (simpl; by rewrite !app_nil_r).
    eapply bind_Raised; [done|]. unfold for_each. simpl.
    apply bind_Raised_l. by apply Prerequisite.build_cpp_no_pypdf. }
  assert (main e root k fuel s
          = Raised (SystemExit missing_dependency_msg) s'
              (root_warning root ++ o_ Python ++ o_ Javascript ++ o_ Swift))
    as Hmain by (by rewrite main_unfold, Hfail).
  exists s_, o_, s'. split; [done|]. split; [done|].
  split; [by rewrite Hmain|]. split.
  - intros l q Hl. by apply Hagree, elem_of_first_three.
  - intros q Hq.
    apply (confined_elsewhere (out_path root <$> [Python; Javascript; Swift]) s s' q);
      [|done|].
    + apply (confined_for_each e root k fuel [Python; Javascript; Swift] s s').
      by rewrite Hrun.
    + intros out Hout. apply list_elem_of_fmap in Hout as (l & -> & Hl).
      apply (out_paths_apart root l Cpp q); [|done].
      by apply elem_of_first_three.
Qed.

End Together.

(* ===================================================================== *)
(** * Progress lines and blocked output directories *)
(* ===================================================================== *)

Module ProgressLines.
Import Fs Spec Text Build PathFacts MonadFacts FsFacts Frame BuildFrame.
Import Prerequisite Directories Driver.
Local Open Scope fs_scope.

Section says.
Context (P : string → Prop).

Lemma says_silent {A} (m : M A) : (∀ s, printed (m s) = []) → says P m.
Proof. intros H s. by rewrite H. Qed.

Lemma says_ret {A} (a : A) : says P (ret a).
Proof. by apply says_silent. Qed.

Lemma says_raise {A} e : says P (raise (A := A) e).
Proof. by apply says_silent. Qed.

Lemma says_gets {A} (f : fs → A) : says P (gets f).
Proof. by apply says_silent. Qed.

Lemma says_say msg : P ("[kb] " +:+ msg) → says P (say msg).
Proof. intros H s. by apply Forall_singleton. Qed.

Lemma says_bind {A B} (m : M A) (k : A → M B) :
  says P m → (∀ a, says P (k a)) → says P (bind m k).
Proof.
  intros Hm Hk s. specialize (Hm s). unfold bind.
  destruct (m s) as [a s1 o1|e s1 o1|]; simpl in *; [|done..].
  specialize (Hk a s1).
  destruct (k a s1) as [b s2 o2|e s2 o2|]; simpl in *; [..|done];
    by apply Forall_app.
Qed.

Lemma says_fold_each {A B} (l : list A) (acc : B) (body : A → B → M B) :
  (∀ x b, says P (body x b)) → says P (fold_each l acc body).
Proof.
  intros Hb. revert acc. induction l as [|x l IH]; intros acc; simpl.
  - apply says_ret.
  - apply says_bind; [apply Hb | intros b; apply IH].
Qed.

Lemma says_for_each {A} (l : list A) (body : A → M unit) :
  (∀ x, says P (body x)) → says P (for_each l body).
Proof. intros Hb. apply says_fold_each. intros x _. apply Hb. Qed.

Lemma says_ensure_dir p : says P (ensure_dir p).
Proof.
  apply says_silent. intros s. unfold ensure_dir.
  destruct (first_file_prefix s p); [by case_decide|done].
Qed.

Lemma says_rmtree p : says P (rmtree p).
Proof.
  apply says_silent. intros s. unfold rmtree.
  by destruct (s !! p) as [[|c m]|].
Qed.

Lemma says_reset_dir p : says P (reset_dir p).
Proof.
  unfold reset_dir. apply says_bind; [apply says_gets|]. intros ex.
  apply says_bind; [|intros _; apply says_ensure_dir].
  destruct ex; [apply says_rmtree | apply says_ret].
Qed.

Lemma says_copy2 src dst : says P (copy2 src dst).
Proof.
  apply says_silent. intros s. unfold copy2.
  destruct (s !! src) as [[|c m]|]; [done| |done].
  case_decide; [done|].
  destruct (s !! _) as [[|c' m']|]; [done|..];
    by destruct (s !! parent _) as [[|c'' m'']|].
Qed.

Lemma says_stat_size p : says P (stat_size p).
Proof.
  apply says_silent. intros s. unfold stat_size.
  by destruct (s !! p) as [[|c m]|].
Qed.

Lemma says_open_w now mode p : says P (open_w now mode p).
Proof.
  apply says_silent. intros s. unfold open_w.
  destruct (s !! p) as [[|c m]|]; [done|done|].
  by destruct (s !! parent p) as [[|c m]|].
Qed.

Lemma says_f_write now p data : says P (f_write now p data).
Proof.
  apply says_silent. intros s. unfold f_write.
  by destruct (s !! p) as [[|c m]|].
Qed.

Lemma says_pdf_reader parse pdf : says P (pdf_reader parse pdf).
Proof.
  apply says_silent. intros s. unfold pdf_reader.
  destruct (s !! pdf) as [[|c m]|]; [done| |done]. by destruct (parse c).
Qed.

Lemma says_copy_tree src dst : says P (copy_tree src dst).
Proof.
  unfold copy_tree. apply says_bind; [apply says_gets|]. intros entries.
  apply says_for_each. intros [root_path files].
  destruct (relative_to root_path src) as [rel|]; [|apply says_raise].
  apply says_bind; [apply says_ensure_dir|]. intros _.
  apply says_for_each. intros n. apply says_copy2.
Qed.

Lemma says_copy_matching_files src dst suffixes :
  says P (copy_matching_files src dst suffixes).
Proof.
  unfold copy_matching_files. apply says_bind; [apply says_gets|].
  intros paths. apply says_fold_each. intros p count.
  apply says_bind; [apply says_gets|]. intros isf.
  destruct (negb isf); [apply says_ret|].
  destruct (negb _); [apply says_ret|].
  destruct (relative_to p src) as [rel|]; [|apply says_raise].
  apply says_bind; [apply says_ensure_dir|]. intros _.
  apply says_bind; [apply says_copy2|]. intros _. apply says_ret.
Qed.

Lemma says_write_pages e pages out_file start end_ :
  says P (write_pages e pages out_file start end_).
Proof.
  unfold write_pages. apply says_for_each. intros i.
  destruct (py_index pages i); [|apply says_raise].
  apply says_bind; [apply says_f_write|]. intros _. apply says_f_write.
Qed.

Lemma says_cpp_loop e pages out_dir k fuel start :
  (∀ msg, P ("[kb] cpp: " +:+ msg)) →
  says P (cpp_loop e pages out_dir k fuel start).
Proof.
  intros HP. revert start. induction fuel as [|fuel IH]; intros start; simpl.
  - destruct (_ <? _); [by intros s | apply says_ret].
  - destruct (_ <? _); [|apply says_ret].
    apply says_bind; [apply says_say, (HP ("write " +:+ _))|]. intros _.
    apply says_bind; [apply says_open_w|]. intros _.
    apply says_bind; [apply says_write_pages|]. intros _. apply IH.
Qed.
End says.

Lemma tagged_by_intro l msg : tagged_by l ("[kb] " +:+ lang_name l +:+ ": " +:+ msg).
Proof. by exists msg. Qed.

(** Every line a build prints carries the tag and the name of its
    language. *)
Lemma says_build e root k fuel l : says (tagged_by l) (build e root k fuel l).
Proof.
  destruct l; simpl.
  - unfold build_python. apply says_bind; [apply says_gets|].
    intros ex. destruct (negb ex); [apply says_raise|].
    apply says_bind; [apply says_say, (tagged_by_intro Python)|]. intros _.
    apply says_bind; [apply says_reset_dir|]. intros _.
    apply says_bind; [apply says_copy_tree|]. intros _.
    apply says_bind; [apply says_gets|]. intros n.
    apply says_say, (tagged_by_intro Python).
  - unfold build_javascript. apply says_bind; [apply says_gets|].
    intros ex. destruct (negb ex); [apply says_raise|].
    apply says_bind; [apply says_say, (tagged_by_intro Javascript)|]. intros _.
    apply says_bind; [apply says_reset_dir|]. intros _.
    apply says_bind; [apply says_copy2|]. intros _.
    apply says_bind; [apply says_stat_size|]. intros n.
    apply says_say, (tagged_by_intro Javascript).
  - unfold build_swift. apply says_bind; [apply says_gets|].
    intros ex. destruct (negb ex); [apply says_raise|].
    apply says_bind; [apply says_say, (tagged_by_intro Swift)|]. intros _.
    apply says_bind; [apply says_reset_dir|]. intros _.
    apply says_bind; [apply says_copy_matching_files|]. intros copied.
    apply says_bind; [apply says_gets|]. intros lic.
    apply says_bind; [|intros _; apply says_say, (tagged_by_intro Swift)].
    destruct lic; [apply says_copy2 | apply says_ret].
  - unfold build_cpp. destruct (pypdf e) as [reader|]; [|apply says_raise].
    apply says_bind; [apply says_gets|].
    intros ex. destruct (negb ex); [apply says_raise|].
    apply says_bind; [apply says_say, (tagged_by_intro Cpp)|]. intros _.
    apply says_bind; [apply says_reset_dir|]. intros _.
    apply says_bind; [apply says_pdf_reader|]. intros pages.
    apply says_bind; [apply says_say, (tagged_by_intro Cpp)|]. intros _.
    apply says_cpp_loop. intros msg. apply (tagged_by_intro Cpp).
Qed.

Lemma done_not_tagged l : ¬ tagged_by l "[kb] done".
Proof. intros [msg H]. by destruct l. Qed.

Lemma done_not_warning root : "[kb] done" ∉ root_warning root.
Proof.
  unfold root_warning. case_decide; [|apply not_elem_of_nil].
  intros Hin. apply list_elem_of_singleton in Hin. done.
Qed.

(** X21.  What the progress lines tell.  Every line a build prints
    starts with [[kb] ], the name of its language and a colon, whatever
    the way the build ends; and the line [[kb] done] is among the lines
    [main] has printed exactly when [main] has completed, that is when
    all four builds have. *)
Theorem done_line_means_completed e root k fuel (s : fs) :
  (∀ l, Forall (tagged_by l) (printed (build e root k fuel l s)))
  ∧ ("[kb] done" ∈ printed (main e root k fuel s) ↔
     ∃ s' o, main e root k fuel s = Done tt s' o).
Proof.
  split; [intros l; apply says_build|].
  rewrite main_unfold.
  assert (Forall (λ line, ∃ l, tagged_by l line)
            (printed (for_each all_languages (build e root k fuel) s))) as Hlines.
  { apply (says_for_each (λ line, ∃ l, tagged_by l line)).
    intros l s0. eapply Forall_impl; [apply says_build|].
    intros line Hl. by exists l. }
  destruct (for_each all_languages (build e root k fuel) s)
    as [[] s' o|e' s' o|]; simpl in *.
  - split; [eauto|]. intros _. set_solver.
  - split; [|by intros (? & ? & ?)]. intros Hin.
    apply elem_of_app in Hin as [Hin|Hin].
    + by apply done_not_warning in Hin.
    + rewrite Forall_forall in Hlines. apply Hlines in Hin as [l Hl].
      by apply done_not_tagged in Hl.
  - split; [by intros ?%elem_of_nil|by intros (? & ? & ?)].
Qed.

(** X22.  A regular file in the way of the output directory.  When the
    raw input of a build exists (and [pypdf] is there for the cpp build)
    but the output path or one of its ancestors is a regular file, the
    build prints its opening progress line and fails with
    [NotADirectoryError]; nothing has been created, changed or removed. *)
Theorem build_blocked_output e root k fuel l (s : fs) (q : path) :
  wf s → exists_ s (raw_path root l) = true →
  (l = Cpp → is_Some (pypdf e)) →
  q `prefix_of` out_path root l → is_file s q = true →
  build e root k fuel l s
    = Raised (NotADirectoryError (out_path root l)) s ["[kb] " +:+ hello l].
Proof.
  intros Hwf Hraw Hpy Hq Hf.
  rewrite build_unfold by done. rewrite Hraw.
  unfold bind at 1. unfold say, print.
  unfold bind at 1. by rewrite (reset_dir_blocked s (out_path root l) q).
Qed.

End ProgressLines.

(* ===================================================================== *)
(** * Running [main] again *)
(* ===================================================================== *)

Module Repeat.
Import Fs Spec Text Build PathFacts MonadFacts FsFacts Frame BuildFrame.
Import CppBuild CopyClaims Sim Idempotence.
Import WellFormed Directories Confinement Together.
Local Open Scope fs_scope.

Lemma write_batches_contents e1 e2 pages out bs (s t : fs) (q : path) :
  content_of <$> t !! q = content_of <$> s !! q →
  content_of <$> write_batches e2 pages out bs t !! q
  = content_of <$> write_batches e1 pages out bs s !! q.
Proof.
  revert s t. induction bs as [|b bs IH]; intros s t Hq; [done|].
  simpl. apply IH. destruct (decide (batch_path out b = q)) as [->|Hne].
  - by rewrite !lookup_insert_eq.
  - by rewrite !lookup_insert_ne.
Qed.

(** As [build_local], for two runs that may differ in their clock and in
    the mode they give to new files: the contents agree. *)
Lemma build_local_contents e1 e2 root k fuel l (s t : fs) :
  pypdf e2 = pypdf e1 →
  wf s → wf t →
  resettable s (out_path root l) → resettable t (out_path root l) →
  ready e1 root k fuel l s →
  (∀ q, under (raw_path root l) q → t !! q = s !! q) →
  ∃ s' t' o,
    build e1 root k fuel l s = Done tt s' o
    ∧ build e2 root k fuel l t = Done tt t' o
    ∧ ∀ q, under (out_path root l) q →
           content_of <$> t' !! q = content_of <$> s' !! q.
Proof.
  intros Hpy Hwfs Hwft Hress Hrest Hready Heq.
  destruct (decide (l = Cpp)) as [->|Hl].
  - destruct Hready as (reader & c & m & pages & Hpy1 & Hpdf & Hparse & Hk & Hfuel).
    assert (t !! raw_path root Cpp = Some (File c m)) as Hpdft.
    { rewrite Heq; [done|apply under_refl]. }
    eexists _, _, _.
    split; [by apply (build_cpp_Done e1 root k fuel s reader c m pages)|].
    split.
    { apply (build_cpp_Done e2 root k fuel t reader c m pages); try done.
      by rewrite Hpy. }
    intros q Hq. apply write_batches_contents.
    by rewrite (reset_state_under _ s t q Hq).
  - destruct (build_local e1 root k fuel l s t Hwfs Hwft Hress Hrest Hready Heq)
      as (s' & t' & o & Hs & Ht & Hagree).
    exists s', t', o. split; [done|]. split.
    + by destruct l.
    + intros q Hq. by rewrite Hagree.
Qed.

Lemma ready_ext e1 e2 root k fuel l (s t : fs) :
  pypdf e2 = pypdf e1 →
  (∀ q, under (raw_path root l) q → t !! q = s !! q) →
  ready e1 root k fuel l s → ready e2 root k fuel l t.
Proof.
  intros Hpy Heq. destruct l; simpl.
  - by rewrite Heq by apply under_refl.
  - unfold is_file. by rewrite Heq by apply under_refl.
  - unfold exists_, is_dir.
    by rewrite Heq, Heq by (apply under_refl || apply under_app).
  - intros (reader & c & m & pages & ? & ? & ?).
    exists reader, c, m, pages. rewrite Hpy.
    by rewrite Heq by apply under_refl.
Qed.

(** A completed build leaves its output directory, and the directories
    above it, in place. *)
Lemma build_Done_out e root k fuel l (s s1 : fs) o1 (q : path) :
  wf s → build e root k fuel l s = Done tt s1 o1 →
  q `prefix_of` out_path root l → s1 !! q = Some Dir.
Proof.
  intros Hwf H Hq.
  apply build_Done_inv in H as (_ & _ & Hres & o & Hpop & _); [|done].
  rewrite (within_populate e root k fuel l (reset_state (out_path root l) s) s1).
  - by apply reset_state_prefix_dir.
  - by rewrite Hpop.
  - intros p Hp. by apply reset_state_prefixes.
  - intros [Hu Hne]. apply Hne. by apply (anti_symm prefix).
Qed.

Lemma prefix_not_below_out root l l' (q : path) :
  q `prefix_of` out_path root l → ¬ strictly_under (out_path root l') q.
Proof.
  intros Hq [Hu Hne]. destruct (decide (l = l')) as [->|Hl].
  - apply Hne. by apply (anti_symm prefix).
  - apply (out_paths_apart root l l' q); [done|done|by left].
Qed.

(** X23.  Running [main] twice.  On a complete knowledge base (raw
    inputs in shape, output directories resettable) [main] completes,
    and a second run from the file system the first one left (the clock
    may have moved on, [pypdf] is the same) completes too, prints the
    same lines and leaves every path with the same content: the same
    directories and the same regular files with the same bytes.  The raw
    inputs are as they were before the first run. *)
Theorem main_twice e1 e2 root k fuel (s : fs) :
  pypdf e2 = pypdf e1 →
  wf s → (∀ l, resettable s (out_path root l)) →
  (∀ l, ready e1 root k fuel l s) →
  ∃ s1 s2 o,
    main e1 root k fuel s = Done tt s1 o
    ∧ main e2 root k fuel s1 = Done tt s2 o
    ∧ contents s2 = contents s1
    ∧ ∀ l q, under (raw_path root l) q → s2 !! q = s !! q.
Proof.
  intros Hpy Hwf Hres Hready.
  destruct (main_all e1 root k fuel s Hwf Hres Hready)
    as (s_ & o_ & s1 & Halone & Hmain & Hagree).
  assert (confined (out_path root <$> all_languages) s s1) as Hc.
  { apply (confined_main e1 root k fuel s s1). by rewrite Hmain. }
  assert (wf s1) as Hwf1 by (by apply Hc).
  assert (∀ l q, under (raw_path root l) q → s1 !! q = s !! q) as Hraw1.
  { intros l q Hq. apply (confined_elsewhere _ s s1 q Hc Hwf).
    intros out Hout. apply list_elem_of_fmap in Hout as (l' & -> & _).
    by apply (raw_apart_from_outs root l' l q). }
  assert (∀ l q, q `prefix_of` out_path root l → s1 !! q = Some Dir) as Hout1.
  { intros l q Hq. apply (wf_prefix_dir_or_self s1 q (out_path root l)); [done| |done].
    rewrite (Hagree l) by apply under_refl.
    by apply (build_Done_out e1 root k fuel l s (s_ l) (o_ l)). }
  assert (∀ l, resettable s1 (out_path root l)) as Hres1.
  { intros l q Hq. unfold is_file. by rewrite (Hout1 l q Hq). }
  assert (∀ l, ready e2 root k fuel l s1) as Hready1.
  { intros l. apply (ready_ext e1 e2 root k fuel l s s1); [done| |done].
    apply Hraw1. }
  destruct (main_all e2 root k fuel s1 Hwf1 Hres1 Hready1)
    as (u_ & p_ & s2 & Halone2 & Hmain2 & Hagree2).
  assert (confined (out_path root <$> all_languages) s1 s2) as Hc2.
  { apply (confined_main e2 root k fuel s1 s2). by rewrite Hmain2. }
  assert (∀ l, p_ l = o_ l
               ∧ ∀ q, under (out_path root l) q →
                      content_of <$> u_ l !! q = content_of <$> s_ l !! q) as Hsame.
  { intros l.
    destruct (build_local_contents e1 e2 root k fuel l s s1 Hpy Hwf Hwf1
                (Hres l) (Hres1 l) (Hready l) (Hraw1 l))
      as (s' & t' & o & Hs & Ht & Hcont).
    rewrite Halone in Hs. rewrite Halone2 in Ht.
    injection Hs as <- <-. injection Ht as <- <-. done. }
  eexists s1, s2, _. split; [done|]. split.
  { rewrite Hmain2. by rewrite !(proj1 (Hsame _)). }
  split.
  - apply map_eq. intros q. unfold contents. rewrite !lookup_fmap.
    destruct (decide (Exists (λ l, under (out_path root l) q) all_languages))
      as [(l & _ & Hq)%Exists_exists|Hno].
    + rewrite (Hagree2 l), (Hagree l) by done. by apply Hsame.
    + destruct (Hc2 Hwf1) as [_ Hc2'].
      destruct (Hc2' q) as [->|(Hn & _ & out & Hout & Hp)]; [|done|].
      * intros out Hout [Hu _].
        apply list_elem_of_fmap in Hout as (l & -> & Hl).
        apply Hno, Exists_exists. eauto.
      * apply list_elem_of_fmap in Hout as (l & -> & _).
        rewrite (Hout1 l q Hp) in Hn. done.
  - intros l q Hq. rewrite <- (Hraw1 l q Hq).
    apply (confined_elsewhere _ s1 s2 q Hc2 Hwf1).
    intros out Hout. apply list_elem_of_fmap in Hout as (l' & -> & _).
    by apply (raw_apart_from_outs root l' l q).
Qed.

End Repeat.

(* ===================================================================== *)
(** * Missing raw inputs *)
(* ===================================================================== *)

Module MissingInput.
Import Fs Spec Text Build PathFacts MonadFacts FsFacts Frame BuildFrame.
Import CppBuild CppClaims CopyClaims SwiftClaims Prerequisite SwiftOutput.
Local Open Scope fs_scope.

(** The swift build where the raw directory exists but [TSPL.docc] does
    not: nothing is selected, and the build completes. *)
Lemma build_swift_without_docc root (s : fs) :
  wf s → exists_ s (raw_path root Swift) = true →
  exists_ s (raw_path root Swift ++ ["TSPL.docc"]) = false →
  is_dir s (raw_path root Swift ++ ["LICENSE.txt"]) = false →
  resettable s (out_path root Swift) →
  ∃ s',
    build_swift root s
      = Done tt s' ["[kb] " +:+ hello Swift; "[kb] swift: md_files=0"]
    ∧ s' !! out_path root Swift = Some Dir
    ∧ s' !! (out_path root Swift ++ ["LICENSE.txt"])
      = s !! (raw_path root Swift ++ ["LICENSE.txt"])
    ∧ ∀ q, strictly_under (out_path root Swift) q →
           q ≠ out_path root Swift ++ ["LICENSE.txt"] → s' !! q = None.
Proof.
  intros Hwf Hraw Hdocc Hlic Hres.
  assert (is_dir s (raw_path root Swift ++ ["TSPL.docc"]) = false) as Hnd.
  { apply exists_None in Hdocc. unfold is_dir. by rewrite Hdocc. }
  destruct (build_swift_Done root s Hwf Hraw Hres Hlic)
    as (s' & Hrun & Ho & Hl & Hf & Hd & Hn).
  exists s'. split; [|split; [done|split; [done|]]].
  - rewrite Hrun. by rewrite rglob_all_not_dir.
  - intros q Hq Hne.
    destruct (decide (under (out_path root Swift ++ ["TSPL.docc"]) q))
      as [[rel ->]|Hnu]; [|by apply Hn].
    destruct (s' !! ((out_path root Swift ++ ["TSPL.docc"]) ++ rel))
      as [[|c m]|] eqn:E; [| |done].
    + apply Hd in E as (rel' & c & m & _ & Hx & Hsuf). exfalso.
      apply (no_match_without_docc s (raw_path root Swift) (rel ++ rel') Hwf Hnd).
      apply matching_md. split; [|done]. apply is_file_Some. eauto.
    + apply Hf in E as [Hx Hsuf]. exfalso.
      apply (no_match_without_docc s (raw_path root Swift) rel Hwf Hnd).
      apply matching_md. split; [|done]. apply is_file_Some. eauto.
Qed.

(** C4, as amended.  Each build tests one path before it does anything:
    [raw/python-docs-text], [raw/ecma262/ecma262.txt], [raw/swift-book]
    and [downloads/cpp-draft.pdf].  If that path does not exist (and, for
    the cpp build, [pypdf] can be imported), the build fails with a
    [SystemExit] whose message ends with the fetch step to run, having
    printed and changed nothing.  When [pypdf] cannot be imported the cpp
    build fails before it looks at its input, with the missing-dependency
    message, again having changed nothing.  The swift build does not test
    the path its input is read from: when [raw/swift-book] exists and
    [raw/swift-book/TSPL.docc] does not, it is no failure at all; the
    build resets its output directory, so that what an earlier run left
    there is gone, copies the license if there is one, reports
    [md_files=0] and completes. *)
Theorem missing_prerequisite e root k fuel l (s : fs) :
  (exists_ s (raw_path root l) = false →
   (l = Cpp → is_Some (pypdf e)) →
   missing_prerequisite_failure e root k fuel l s
   ∧ build e root k fuel l s = Raised (SystemExit (missing_msg l)) s [])
  ∧ (l = Cpp → pypdf e = None →
     build e root k fuel l s = Raised (SystemExit missing_dependency_msg) s [])
  ∧ (l = Swift → wf s →
     exists_ s (raw_path root Swift) = true →
     exists_ s (raw_path root Swift ++ ["TSPL.docc"]) = false →
     is_dir s (raw_path root Swift ++ ["LICENSE.txt"]) = false →
     resettable s (out_path root Swift) →
     ¬ missing_prerequisite_failure e root k fuel l s
     ∧ ∃ s',
         build e root k fuel l s
           = Done tt s'
               ["[kb] swift: copy TSPL.docc markdown -> docs/swift-book-repo/";
                "[kb] swift: md_files=0"]
         ∧ s' !! out_path root Swift = Some Dir
         ∧ s' !! (out_path root Swift ++ ["LICENSE.txt"])
           = s !! (raw_path root Swift ++ ["LICENSE.txt"])
         ∧ ∀ q, strictly_under (out_path root Swift) q →
                q ≠ out_path root Swift ++ ["LICENSE.txt"] → s' !! q = None).
Proof.
  split; [|split].
  - intros Hraw Hpy.
    assert (build e root k fuel l s = Raised (SystemExit (missing_msg l)) s [])
      as Hb by (by apply missing_raw_path).
    split; [|done]. exists (missing_msg l). split; [done|].
    apply missing_msg_hint.
  - intros -> Hpy. by apply build_cpp_no_pypdf.
  - intros -> Hwf Hraw Hdocc Hlic Hres.
    destruct (build_swift_without_docc root s Hwf Hraw Hdocc Hlic Hres)
      as (s' & Hrun & Hrest).
    split.
    + intros (msg & Hfail & _). simpl in Hfail. rewrite Hrun in Hfail. done.
    + exists s'. split; [|done]. simpl. by rewrite Hrun.
Qed.

End MissingInput.

(* ===================================================================== *)
(** * Checking hypotheses on concrete states *)
(* ===================================================================== *)

Module Decide.
Import Fs Spec Text Build PathFacts MonadFacts FsFacts Frame.

Lemma wf_check (s : fs) :
  Forall (λ q, q = [] ∨ is_dir s (parent q) = true) (keys s) → wf s.
Proof.
  intros H p n x Hx. rewrite Forall_forall in H.
  destruct (H (p ++ [n])) as [Hnil|Hd].
  - apply elem_of_keys. by rewrite Hx.
  - by destruct p.
  - rewrite parent_snoc in Hd. by apply is_dir_Some.
Qed.

Lemma resettable_check (s : fs) (p : path) :
  Forall (λ q, is_file s q = false) (prefixes p) → resettable s p.
Proof.
  intros H q Hq. rewrite Forall_forall in H. by apply H, elem_of_prefixes.
Qed.

Lemma ancestors_check (s : fs) (dst : path) :
  Forall (λ q, q = dst ∨ is_dir s q = true) (prefixes dst) →
  ∀ q, q `prefix_of` dst → q ≠ dst → s !! q = Some Dir.
Proof.
  intros H q Hq Hne. rewrite Forall_forall in H.
  destruct (H q) as [|Hd]; [by apply elem_of_prefixes|done|].
  by apply is_dir_Some.
Qed.

Lemma empty_below_check (s : fs) (dst : path) :
  Forall (λ q, ¬ strictly_under dst q) (keys s) →
  ∀ q, strictly_under dst q → s !! q = None.
Proof.
  intros H q Hq. rewrite Forall_forall in H.
  destruct (s !! q) as [x|] eqn:E; [|done].
  destruct (H q); [|done]. apply elem_of_keys. by rewrite E.
Qed.

Lemma agree_outside_check (s0 s : fs) (out : path) :
  Forall (λ q, under out q ∨ s0 !! q = s !! q) (keys s0 ++ keys s) →
  ∀ q, ¬ under out q → s0 !! q = s !! q.
Proof.
  intros H q Hq. rewrite Forall_forall in H.
  destruct (s0 !! q) as [x|] eqn:E0.
  - destruct (H q) as [|Heq]; [|done|congruence].
    apply elem_of_app. left. apply elem_of_keys. by rewrite E0.
  - destruct (s !! q) as [y|] eqn:E; [|done].
    destruct (H q) as [|Heq]; [|done|congruence].
    apply elem_of_app. right. apply elem_of_keys. by rewrite E.
Qed.

End Decide.

Module DemoFacts.
Import Fs Spec Text Build Demo Decide.

Lemma wf_kb : wf kb.
Proof. apply wf_check. apply (bool_decide_unpack _). vm_compute. exact I. Qed.

End DemoFacts.

(* ===================================================================== *)
(** * The theorems at work on the small knowledge base *)
(* ===================================================================== *)

Module DemoRuns.
Import Fs Spec Text Build Demo Decide DemoFacts.
Import PathFacts MonadFacts FsFacts Frame BuildFrame Driver CppClaims.
Import Prerequisite Idempotence CopyClaims FilterClaims SwiftClaims.
Import MissingInput.

(** Closes [l = r] by evaluating both sides. *)
Ltac vm_refl :=
  lazymatch goal with |- ?l = ?r => vm_cast_no_check (@eq_refl _ r) end.

Lemma resettable_kb l : resettable kb (out_path root l).
Proof.
  apply resettable_check. apply (bool_decide_unpack _).
  destruct l; vm_compute; exact I.
Qed.

Lemma cpp_input_kb : cpp_input env_ok root kb pages.
Proof.
  split; [apply wf_kb|]. split; [apply resettable_kb|].
  eexists _, pdf_bytes, stamp. split; [reflexivity|]. split; reflexivity.
Qed.

Lemma cpp_input_blank : cpp_input env_blank root kb [].
Proof.
  split; [apply wf_kb|]. split; [apply resettable_kb|].
  eexists _, pdf_bytes, stamp. split; [reflexivity|]. split; reflexivity.
Qed.

Lemma paginate_pdf_batches_witness :
  cpp_input env_ok root kb pages
  ∧ ∃ s' o, build_cpp env_ok root 2 10 kb = Done tt s' o
            ∧ Z.of_nat (length (rglob_all s' (out_path root Cpp))) = 2
            ∧ page_partition 2 3 [(0, 1); (2, 2)].
Proof.
  split; [apply cpp_input_kb|].
  destruct (paginate_pdf_batches env_ok root 2 10 kb pages)
    as (s' & o & Hrun & _ & _ & Hn & Hpart & _).
  - apply cpp_input_kb.
  - lia.
  - vm_compute. lia.
  - exists s', o. split; [exact Hrun|]. split; [exact Hn | exact Hpart].
Defined.

Lemma paginate_pdf_content_witness :
  cpp_input env_ok root kb pages
  ∧ ∃ s' o, build_cpp env_ok root 2 10 kb = Done tt s' o
            ∧ s' !! (out_path root Cpp ++ ["cpp-draft.p0001-p0002.txt"])
              = Some (File
                  (String "010"%char (String "010"%char
                     ("===== PAGE 1 =====" +:+ String "010"%char
                        (String "010"%char
                           ("one" +:+ String "010"%char (String "010"%char
                              ("===== PAGE 2 =====" +:+ String "010"%char
                                 (String "010"%char ""))))))))
                  (Meta 1800000000 420)).
Proof.
  split; [apply cpp_input_kb|].
  destruct (paginate_pdf_content env_ok root 2 10 kb pages)
    as (s' & o & Hrun & Hfiles).
  - apply cpp_input_kb.
  - lia.
  - vm_compute. lia.
  - exists s', o. split; [exact Hrun|].
    destruct (Hfiles 0 1) as [Hfile _].
    + vm_compute. left.
    + exact Hfile.
Defined.

Lemma paginate_pdf_empty_witness :
  cpp_input env_blank root kb []
  ∧ ∃ s' o, build_cpp env_blank root 200 0 kb = Done tt s' o
            ∧ rglob_all s' (out_path root Cpp) = [].
Proof.
  split; [apply cpp_input_blank|].
  destruct (paginate_pdf_empty env_blank root 200 0 kb)
    as (s' & o & Hrun & _ & Hnone & _).
  - apply cpp_input_blank.
  - exists s', o. split; [exact Hrun | exact Hnone].
Defined.

Lemma paginate_pdf_diverges_witness :
  cpp_input env_ok root kb pages
  ∧ build_cpp env_ok root 0 5 kb = OutOfFuel
  ∧ build_cpp env_ok root (-3) 5 kb = OutOfFuel.
Proof.
  split; [apply cpp_input_kb|]. split.
  - apply (paginate_pdf_diverges env_ok root 0 5 kb pages);
      [apply cpp_input_kb | lia | simpl; lia].
  - apply (paginate_pdf_diverges env_ok root (-3) 5 kb pages);
      [apply cpp_input_kb | lia | simpl; lia].
Defined.

Lemma build_idempotent_witness :
  wf kb
  ∧ build env_ok root 2 10 Cpp kb = Done tt (state_of kb_cpp) (output_of kb_cpp)
  ∧ ∃ s2 o2,
      build env_later root 2 10 Cpp (state_of kb_cpp) = Done tt s2 o2
      ∧ dir_contents s2 (out_path root Cpp)
        = dir_contents (state_of kb_cpp) (out_path root Cpp).
Proof.
  assert (build env_ok root 2 10 Cpp kb = Done tt (state_of kb_cpp) (output_of kb_cpp))
    as Hrun by (vm_refl).
  split; [apply wf_kb|]. split; [exact Hrun|].
  destruct (build_idempotent env_ok env_later root 2 10 Cpp kb
              (state_of kb_cpp) (output_of kb_cpp))
    as [(s2 & o2 & Hrun2 & Hdir & _) _].
  - apply wf_kb.
  - reflexivity.
  - exact Hrun.
  - exists s2, o2. split; [exact Hrun2 | exact Hdir].
Defined.

Lemma md_fs_ready :
  wf md_fs ∧ md_fs !! md_src = Some Dir
  ∧ ¬ under md_src md_dst ∧ ¬ under md_dst md_src
  ∧ (∀ q, q `prefix_of` md_dst → q ≠ md_dst → md_fs !! q = Some Dir)
  ∧ is_file md_fs md_dst = false
  ∧ (∀ q, strictly_under md_dst q → md_fs !! q = None).
Proof.
  split; [apply wf_check, (bool_decide_unpack _); vm_compute; exact I|].
  split; [vm_refl|].
  split; [apply (bool_decide_unpack _); vm_compute; exact I|].
  split; [apply (bool_decide_unpack _); vm_compute; exact I|].
  split; [apply ancestors_check, (bool_decide_unpack _); vm_compute; exact I|].
  split; [vm_refl|].
  apply empty_below_check, (bool_decide_unpack _); vm_compute; exact I.
Qed.





Lemma wf_kb_no_docc : wf kb_no_docc.
Proof. apply wf_check. apply (bool_decide_unpack _). vm_compute. exact I. Qed.

(** The javascript input is missing; [pypdf] is missing; the swift book
    is there without its [TSPL.docc], and the chapter an earlier run left
    in the output is gone after a build that reports success. *)
Lemma missing_prerequisite_witness :
  (exists_ kb_no_js (raw_path root Javascript) = false
   ∧ missing_prerequisite_failure env_ok root 2 10 Javascript kb_no_js)
  ∧ build env_no_pypdf root 2 10 Cpp kb
    = Raised (SystemExit missing_dependency_msg) kb []
  ∧ (kb_no_docc !! (out_path root Swift ++ ["TSPL.docc"; "Old.md"])
     = Some (File "# old" stamp)
     ∧ ∃ s', build env_ok root 2 10 Swift kb_no_docc
             = Done tt s'
                 ["[kb] swift: copy TSPL.docc markdown -> docs/swift-book-repo/";
                  "[kb] swift: md_files=0"]
             ∧ s' !! (out_path root Swift ++ ["TSPL.docc"; "Old.md"]) = None
             ∧ s' !! (out_path root Swift ++ ["LICENSE.txt"])
               = Some (File "license" stamp)).
Proof.
  assert (exists_ kb_no_js (raw_path root Javascript) = false) as Hraw
    by (vm_refl).
  split; [|split].
  - split; [exact Hraw|].
    apply (missing_prerequisite env_ok root 2 10 Javascript kb_no_js);
      [exact Hraw | discriminate].
  - apply (missing_prerequisite env_no_pypdf root 2 10 Cpp kb); reflexivity.
  - split; [vm_refl|].
    destruct (missing_prerequisite env_ok root 2 10 Swift kb_no_docc)
      as (_ & _ & Hswift).
    destruct Hswift as (_ & s' & Hrun & _ & Hlic & Hgone).
    + reflexivity.
    + apply wf_kb_no_docc.
    + vm_refl.
    + vm_refl.
    + vm_refl.
    + apply resettable_check. apply (bool_decide_unpack _). vm_compute. exact I.
    + exists s'. split; [exact Hrun|]. split.
      * apply Hgone.
        -- apply (bool_decide_unpack _). vm_compute. exact I.
        -- discriminate.
      * rewrite Hlic. vm_refl.
Defined.

(** Without [pypdf] the cpp build does not report the missing draft: its
    message names the installation command, not the fetch step. *)
Lemma missing_prerequisite_pypdf_counterexample :
  exists_ kb_no_pdf (raw_path root Cpp) = false
  ∧ ¬ missing_prerequisite_failure env_no_pypdf root 200 0 Cpp kb_no_pdf.
Proof.
  split; [vm_refl|].
  intros (msg & Hrun & Hhint). simpl in Hrun.
  rewrite build_cpp_no_pypdf in Hrun by reflexivity.
  apply (f_equal (λ o : outcome unit,
                    match o with
                    | Raised (SystemExit m) _ _ => m
                    | _ => ""
                    end)) in Hrun.
  cbv beta iota in Hrun. subst msg. vm_compute in Hhint. discriminate Hhint.
Qed.

Lemma copy_tree_full_mirror_witness :
  (∃ s', copy_tree md_src md_dst md_fs = Done tt s' []
         ∧ s' !! (md_dst ++ ["README.MD"]) = Some (File "# readme" stamp)
         ∧ s' !! (md_dst ++ ["notes.txt"]) = Some (File "notes" stamp))
  ∧ (∃ s' o, build_python root kb = Done tt s' o
             ∧ s' !! (out_path root Python ++ ["sub"; "b.txt"])
               = Some (File "beta" (Meta 7 384))
             ∧ s' !! (out_path root Python ++ ["empty"]) = Some Dir).
Proof.
  destruct copy_tree_full_mirror as [Hcopy Hpython]. split.
  - destruct md_fs_ready as (Hwf & Hsrc & Ha1 & Ha2 & Hanc & Hnf & Hempty).
    destruct (Hcopy md_fs md_src md_dst Hwf Hsrc Ha1 Ha2 Hanc Hnf Hempty)
      as (s' & Hrun & Hfiles & _).
    exists s'. split; [exact Hrun|].
    split; apply Hfiles; vm_refl.
  - destruct (Hpython root kb) as (s' & o & Hrun & Hfiles & Hall).
    + apply wf_kb.
    + vm_refl.
    + apply resettable_kb.
    + exists s', o. split; [exact Hrun|]. split.
      * apply Hfiles. vm_refl.
      * rewrite Hall. vm_refl.
Defined.

Lemma main_halts_at_first_failure_witness :
  (main env_ok root 2 10 kb_no_js
     = Raised (SystemExit (missing_msg Javascript)) (state_of kb_no_js_python)
         (root_warning root ++ output_of kb_no_js_python ++ [])
   ∧ exit_status (main env_ok root 2 10 kb_no_js) = Some 1
   ∧ state_of kb_no_js_python !! (out_path root Cpp ++ ["stale.txt"])
     = Some (File "old" stamp))
  ∧ exit_status (main env_ok root 2 10 kb) = Some 0.
Proof.
  destruct (main_halts_at_first_failure env_ok root 2 10 kb_no_js) as [Hfail _].
  destruct (main_halts_at_first_failure env_ok root 2 10 kb) as [_ Hok].
  split.
  - destruct (Hfail [Python] Javascript [Swift; Cpp]
                (state_of kb_no_js_python) (output_of kb_no_js_python)
                (SystemExit (missing_msg Javascript))
                (state_of kb_no_js_python) [])
      as (Hmain & Hexit & Hkeep).
    + reflexivity.
    + vm_refl.
    + vm_refl.
    + split; [exact Hmain|]. split; [exact Hexit|].
      rewrite (Hkeep Cpp); [vm_refl| |apply under_app].
      right. left.
  - destruct (Hok (state_of kb_all) (output_of kb_all)) as [_ Hexit].
    + vm_refl.
    + exact Hexit.
Defined.

Lemma swift_license_witness :
  ∃ s', build_swift root kb
        = Done tt s' ["[kb] " +:+ hello Swift; "[kb] swift: md_files=1"]
        ∧ s' !! (out_path root Swift ++ ["LICENSE.txt"])
          = Some (File "license" stamp).
Proof.
  destruct (swift_license root kb) as (s' & n & Hrun & Hlic & _ & Hn & _).
  - apply wf_kb.
  - vm_refl.
  - apply resettable_kb.
  - vm_refl.
  - exists s'. split.
    + rewrite Hrun, Hn. vm_refl.
    + apply Hlic. vm_refl.
Defined.

End DemoRuns.

(* ===================================================================== *)
(** * Directories, frames and reports on the small knowledge base *)
(* ===================================================================== *)

Module DemoMore.
Import Fs Spec Text Build Demo Decide DemoFacts DemoRuns.
Import PathFacts MonadFacts FsFacts Frame BuildFrame Driver.
Import Directories Confinement SingleFile Filtered Names CppReport.
Import SwiftOutput Together ProgressLines Repeat.

Lemma agree_under_check (s t : fs) (p : path) :
  Forall (λ q, ¬ under p q ∨ t !! q = s !! q) (keys s ++ keys t) →
  ∀ q, under p q → t !! q = s !! q.
Proof.
  intros H q Hq. rewrite Forall_forall in H.
  destruct (s !! q) as [x|] eqn:Es.
  - destruct (H q) as [|Heq]; [|done|congruence].
    apply elem_of_app. left. apply elem_of_keys. by rewrite Es.
  - destruct (t !! q) as [y|] eqn:Et; [|done].
    destruct (H q) as [|Heq]; [|done|congruence].
    apply elem_of_app. right. apply elem_of_keys. by rewrite Et.
Qed.

Ltac decide_it := apply (bool_decide_unpack _); vm_compute; exact I.

Lemma ready_kb l : ready env_ok root 2 10 l kb.
Proof.
  destruct l; unfold ready.
  - vm_refl.
  - vm_refl.
  - split; vm_refl.
  - exists (λ c, if decide (c = pdf_bytes) then Some pages else None),
      pdf_bytes, stamp, pages.
    split; [reflexivity|]. split; [vm_refl|]. split; [reflexivity|].
    split; [lia|]. vm_compute. lia.
Qed.

Lemma ensure_dir_creates_chain_witness :
  (∃ s', ensure_dir (out_path root Python ++ ["api"]) kb = Done tt s' []
         ∧ s' !! (out_path root Python) = Some Dir
         ∧ s' !! (out_path root Python ++ ["api"]) = Some Dir)
  ∧ (∃ e, ensure_dir (raw_path root Javascript ++ ["notes"]) kb = Raised e kb []).
Proof.
  destruct (ensure_dir_creates_chain kb (out_path root Python ++ ["api"]))
    as [Hok _].
  destruct (ensure_dir_creates_chain kb (raw_path root Javascript ++ ["notes"]))
    as [_ Hfail].
  split.
  - destruct Hok as (s' & Hrun & Hdirs & _).
    + apply resettable_check. decide_it.
    + exists s'. split; [exact Hrun|]. split; apply Hdirs.
      * apply prefix_app_r. reflexivity.
      * reflexivity.
  - apply Hfail. intros Hres.
    specialize (Hres (raw_path root Javascript)
                  (prefix_app_r _ _ _ (reflexivity _))).
    vm_compute in Hres. discriminate Hres.
Defined.

Lemma reset_dir_leaves_empty_dir_witness :
  kb !! (out_path root Cpp ++ ["stale.txt"]) = Some (File "old" stamp)
  ∧ ∃ s', reset_dir (out_path root Cpp) kb = Done tt s' []
          ∧ s' !! (out_path root Cpp) = Some Dir
          ∧ s' !! (out_path root Cpp ++ ["stale.txt"]) = None
          ∧ s' !! raw_path root Cpp = Some (File pdf_bytes stamp).
Proof.
  split; [vm_refl|].
  destruct (reset_dir_leaves_empty_dir kb (out_path root Cpp))
    as (s' & Hrun & Hdir & Hempty & _ & Hkeep & _).
  - apply wf_kb.
  - apply resettable_kb.
  - exists s'. split; [exact Hrun|]. split; [exact Hdir|]. split.
    + apply Hempty, strictly_under_snoc.
    + apply Hkeep; [decide_it | vm_refl].
Defined.

Lemma reset_dir_blocked_by_file_witness :
  is_file kb (raw_path root Javascript) = true
  ∧ reset_dir (raw_path root Javascript ++ ["cache"]) kb
    = Raised (NotADirectoryError (raw_path root Javascript ++ ["cache"])) kb [].
Proof.
  split; [vm_refl|].
  apply (reset_dir_blocked_by_file kb _ (raw_path root Javascript)).
  - apply wf_kb.
  - apply prefix_app_r. reflexivity.
  - vm_refl.
Defined.

Lemma reset_dir_idempotent_witness :
  reset_dir (out_path root Cpp) kb
    = Done tt (reset_state (out_path root Cpp) kb) []
  ∧ reset_dir (out_path root Cpp) (reset_state (out_path root Cpp) kb)
    = Done tt (reset_state (out_path root Cpp) kb) [].
Proof.
  assert (reset_dir (out_path root Cpp) kb
          = Done tt (reset_state (out_path root Cpp) kb) []) as Hrun.
  { apply reset_dir_Done; [apply wf_kb | apply resettable_kb]. }
  split; [exact Hrun|].
  apply (reset_dir_idempotent kb _ _ [] wf_kb Hrun).
Defined.

Lemma build_confined_to_output_witness :
  final (build env_ok root 2 10 Cpp kb) = Some (state_of kb_cpp)
  ∧ wf (state_of kb_cpp)
  ∧ state_of kb_cpp !! (raw_path root Swift ++ ["LICENSE.txt"])
    = kb !! (raw_path root Swift ++ ["LICENSE.txt"]).
Proof.
  assert (final (build env_ok root 2 10 Cpp kb) = Some (state_of kb_cpp))
    as Hfin by vm_refl.
  split; [exact Hfin|].
  destruct (build_confined_to_output env_ok root 2 10 Cpp kb (state_of kb_cpp)
              wf_kb Hfin) as [Hwf Hc].
  split; [exact Hwf|].
  destruct (Hc (raw_path root Swift ++ ["LICENSE.txt"])) as [Heq|(Hn & _)].
  - decide_it.
  - exact Heq.
  - vm_compute in Hn. discriminate Hn.
Defined.

Lemma main_preserves_inputs_witness :
  final kb_main = Some (state_of kb_main)
  ∧ wf (state_of kb_main)
  ∧ state_of kb_main !! raw_path root Cpp = kb !! raw_path root Cpp.
Proof.
  assert (final (main env_ok root 2 10 kb) = Some (state_of kb_main))
    as Hfin by vm_refl.
  split; [exact Hfin|].
  destruct (main_preserves_inputs env_ok root 2 10 kb (state_of kb_main)
              wf_kb Hfin) as (Hwf & Hraw & _).
  split; [exact Hwf|]. apply (Hraw Cpp). reflexivity.
Defined.

Lemma build_javascript_copies_one_file_witness :
  ∃ s', build_javascript root kb
        = Done tt s' ["[kb] javascript: copy ecma262.txt -> docs/ecma-262/";
                      "[kb] javascript: bytes=4"]
        ∧ s' !! (out_path root Javascript ++ ["ecma262.txt"])
          = Some (File "ecma" stamp).
Proof.
  destruct (build_javascript_copies_one_file root kb "ecma" stamp)
    as (s' & Hrun & _ & Hfile & _).
  - apply wf_kb.
  - vm_refl.
  - apply resettable_kb.
  - exists s'. split; [exact Hrun | exact Hfile].
Defined.

Lemma wf_kb_js_dir : wf kb_js_dir.
Proof. apply wf_check. decide_it. Qed.

Lemma build_javascript_directory_input_witness :
  ∃ s', build_javascript root kb_js_dir
        = Raised (IsADirectoryError (raw_path root Javascript)) s'
            ["[kb] javascript: copy ecma262.txt -> docs/ecma-262/"]
        ∧ s' !! out_path root Javascript = Some Dir.
Proof.
  destruct (build_javascript_directory_input root kb_js_dir)
    as (s' & Hrun & Hdir & _).
  - apply wf_kb_js_dir.
  - vm_refl.
  - apply resettable_check. decide_it.
  - exists s'. split; [exact Hrun | exact Hdir].
Defined.

Lemma wf_kb_txt_dir : wf kb_txt_dir.
Proof. apply wf_check. decide_it. Qed.

(** Two regular files and one directory have names ending in [.txt]. *)
Lemma build_python_reports_txt_entries_witness :
  is_dir kb_txt_dir (raw_path root Python ++ ["old.txt"]) = true
  ∧ ∃ s', build_python root kb_txt_dir
          = Done tt s'
              ["[kb] python: copy raw text archive -> docs/python-docs-text/";
               "[kb] python: files=3"].
Proof.
  split; [vm_refl|].
  destruct (build_python_reports_txt_entries root kb_txt_dir) as (s' & Hrun).
  - apply wf_kb_txt_dir.
  - vm_refl.
  - apply resettable_check. decide_it.
  - exists s'. rewrite Hrun. vm_refl.
Defined.

Lemma wf_kb_py_file : wf kb_py_file.
Proof. apply wf_check. decide_it. Qed.

Lemma copy_tree_nothing_to_walk_witness :
  copy_tree ["nowhere"] md_dst md_fs = Done tt md_fs []
  ∧ ∃ s', build_python root kb_py_file
          = Done tt s'
              ["[kb] python: copy raw text archive -> docs/python-docs-text/";
               "[kb] python: files=0"]
          ∧ s' !! out_path root Python = Some Dir.
Proof.
  destruct copy_tree_nothing_to_walk as [Hcopy Hpython]. split.
  - apply Hcopy. vm_refl.
  - destruct (Hpython root kb_py_file "not a directory" stamp)
      as (s' & Hrun & Hdir & _).
    + apply wf_kb_py_file.
    + vm_refl.
    + apply resettable_check. decide_it.
    + exists s'. split; [exact Hrun | exact Hdir].
Defined.

Lemma tree_fs_ready :
  wf tree_fs ∧ tree_fs !! tree_src = Some Dir
  ∧ ¬ under tree_src tree_dst ∧ ¬ under tree_dst tree_src
  ∧ (∀ q, q `prefix_of` tree_dst → q ≠ tree_dst → tree_fs !! q = Some Dir)
  ∧ is_file tree_fs tree_dst = false
  ∧ (∀ q, strictly_under tree_dst q → tree_fs !! q = None).
Proof.
  split; [apply wf_check; decide_it|].
  split; [vm_refl|].
  split; [decide_it|].
  split; [decide_it|].
  split; [apply ancestors_check; decide_it|].
  split; [vm_refl|].
  apply empty_below_check; decide_it.
Qed.

(** The directory with the markdown file is created, the one with the
    picture is not. *)
Lemma copy_filtered_no_empty_directory_witness :
  ∃ n s', copy_matching_files tree_src tree_dst [".md"] tree_fs = Done n s' []
          ∧ s' !! (tree_dst ++ ["guide"]) = Some Dir
          ∧ s' !! (tree_dst ++ ["img"]) ≠ Some Dir.
Proof.
  destruct tree_fs_ready as (Hwf & Hsrc & Ha1 & Ha2 & Hanc & Hnf & Hempty).
  destruct (copy_filtered_no_empty_directory tree_fs tree_src tree_dst [".md"]
              Hwf Hsrc Ha1 Ha2 Hanc Hnf Hempty)
    as (n & s' & Hrun & Hdirs & _).
  exists n, s'. split; [exact Hrun|]. split.
  - apply Hdirs; [discriminate|]. exists ["Intro.md"].
    split; [discriminate|]. decide_it.
  - intros Hd. apply Hdirs in Hd as (rel' & Hrel' & Hm); [|discriminate].
    pose proof Hm as [Hf _]. apply is_file_Some in Hf as (c & m & Hf).
    assert (Forall (λ q, ¬ strictly_under (tree_src ++ ["img"]) q
                         ∨ name q = "logo.png") (keys tree_fs)) as Hall
      by decide_it.
    assert (Forall (λ q, name q = "logo.png" → ¬ matching tree_fs [".md"] q)
              (keys tree_fs)) as Hnone by decide_it.
    rewrite Forall_forall in Hall, Hnone.
    assert (tree_src ++ ["img"] ++ rel' ∈ keys tree_fs) as Hin.
    { apply elem_of_keys. rewrite Hf. eexists. reflexivity. }
    destruct (Hall _ Hin) as [Hnot|Hname].
    + apply Hnot. rewrite app_assoc. apply strictly_under_app.
      exists rel'. split; [exact Hrel'|reflexivity].
    + apply (Hnone _ Hin Hname Hm).
Defined.

Lemma md_extension_witness :
  lower (suffix_of "Guide.MD") = ".md" ∧ lower (suffix_of ".md") ≠ ".md".
Proof.
  split.
  - apply (proj2 (md_extension "Guide.MD")).
    exists "Guide", "M"%char, "D"%char. repeat split. discriminate.
  - discriminate.
Defined.

Lemma out_name_determines_range_witness :
  (∃ x y, out_name 0 199 = "cpp-draft.p" +:+ x +:+ "-p" +:+ y +:+ ".txt"
          ∧ parse_N x = Some 1%N ∧ parse_N y = Some 200%N)
  ∧ out_name 0 199 ≠ out_name 0 198.
Proof.
  destruct (out_name_determines_range 0 199) as [Hshape Hinj]; [lia..|].
  split.
  - destruct Hshape as (x & y & Hname & _ & _ & _ & _ & Hx & Hy).
    exists x, y. split; [exact Hname|]. split; [exact Hx | exact Hy].
  - intros Heq. destruct (Hinj 0 198) as [_ Hb]; [lia | lia | exact Heq |].
    discriminate Hb.
Defined.

Lemma paginate_pdf_progress_lines_witness :
  ∃ s', build_cpp env_ok root 2 10 kb
        = Done tt s'
            ["[kb] cpp: extract pdf -> docs/cpp-working-draft-pdf/ (split by pages)";
             "[kb] cpp: pages=3, pages_per_file=2";
             "[kb] cpp: write cpp-draft.p0001-p0002.txt";
             "[kb] cpp: write cpp-draft.p0003-p0003.txt"].
Proof.
  destruct (paginate_pdf_progress_lines env_ok root 2 10 kb pages)
    as (s' & o & Hrun & Ho & _).
  - apply cpp_input_kb.
  - lia.
  - vm_compute. lia.
  - exists s'. rewrite Hrun, Ho. vm_refl.
Defined.

Lemma wf_kb_bad_pdf : wf kb_bad_pdf.
Proof. apply wf_check. decide_it. Qed.

Lemma paginate_pdf_unreadable_witness :
  kb_bad_pdf !! (out_path root Cpp ++ ["stale.txt"]) = Some (File "old" stamp)
  ∧ ∃ s', build_cpp env_ok root 2 10 kb_bad_pdf
          = Raised PdfReadError s'
              ["[kb] cpp: extract pdf -> docs/cpp-working-draft-pdf/ (split by pages)"]
          ∧ s' !! (out_path root Cpp ++ ["stale.txt"]) = None.
Proof.
  split; [vm_refl|].
  destruct (paginate_pdf_unreadable env_ok root 2 10 kb_bad_pdf
              (λ c, if decide (c = pdf_bytes) then Some pages else None)
              "<html>" stamp)
    as (s' & Hrun & _ & Hempty & _).
  - apply wf_kb_bad_pdf.
  - apply resettable_check. decide_it.
  - reflexivity.
  - vm_refl.
  - reflexivity.
  - exists s'. split; [exact Hrun|]. apply Hempty, strictly_under_snoc.
Defined.

(** [Guide.MD] is copied, the picture beside it is not, and the top
    level holds nothing but [TSPL.docc] and the license. *)
Lemma build_swift_whole_output_witness :
  ∃ s' o, build_swift root kb = Done tt s' o
          ∧ s' !! (out_path root Swift ++ ["TSPL.docc"; "ch"; "Guide.MD"])
            = Some (File "# guide" stamp)
          ∧ s' !! (out_path root Swift ++ ["TSPL.docc"; "ch"]) = Some Dir
          ∧ s' !! (out_path root Swift ++ ["TSPL.docc"; "ch"; "pic.png"]) = None
          ∧ s' !! (out_path root Swift ++ ["README.md"]) = None.
Proof.
  destruct (build_swift_whole_output root kb)
    as (s' & o & Hrun & _ & _ & Hfiles & Hdirs & Htop).
  - apply wf_kb.
  - vm_refl.
  - apply resettable_kb.
  - vm_refl.
  - exists s', o. split; [exact Hrun|]. split; [|split; [|split]].
    + apply (Hfiles ["ch"; "Guide.MD"]). split; vm_refl.
    + apply (Hdirs ["ch"]). exists ["Guide.MD"], "# guide", stamp.
      split; [discriminate|]. split; vm_refl.
    + destruct (s' !! (out_path root Swift ++ ["TSPL.docc"; "ch"; "pic.png"]))
        as [[|c m]|] eqn:E; [| |reflexivity].
      * apply (Hdirs ["ch"; "pic.png"]) in E as (rel' & c & m & Hrel' & Hf & _).
        assert (Forall (λ q, ¬ strictly_under
                               (raw_path root Swift ++ ["TSPL.docc"; "ch"; "pic.png"]) q)
                  (keys kb)) as Hall by decide_it.
        rewrite Forall_forall in Hall. exfalso.
        apply (Hall ((raw_path root Swift ++ ["TSPL.docc"]) ++ ["ch"; "pic.png"] ++ rel')).
        -- apply elem_of_keys. rewrite Hf. eexists. reflexivity.
        -- apply strictly_under_app. exists rel'. split; [exact Hrel'|].
           rewrite <- !app_assoc. reflexivity.
      * apply (Hfiles ["ch"; "pic.png"]) in E as [_ Hsuf].
        vm_compute in Hsuf. discriminate Hsuf.
    + destruct (s' !! (out_path root Swift ++ ["README.md"])) as [x|] eqn:E;
        [|reflexivity].
      destruct (Htop "README.md" [] x E) as [Hn|[Hn _]]; discriminate Hn.
Defined.

Lemma wf_kb_no_pdf : wf kb_no_pdf.
Proof. apply wf_check. decide_it. Qed.

(** With or without the C++ draft in the knowledge base, the swift build
    gives the same result. *)
Lemma build_depends_on_raw_input_only_witness :
  kb_no_pdf !! raw_path root Cpp ≠ kb !! raw_path root Cpp
  ∧ ∃ s' t' o,
      build env_ok root 2 10 Swift kb = Done tt s' o
      ∧ build env_ok root 2 10 Swift kb_no_pdf = Done tt t' o
      ∧ t' !! (out_path root Swift ++ ["LICENSE.txt"])
        = s' !! (out_path root Swift ++ ["LICENSE.txt"]).
Proof.
  split; [vm_compute; discriminate|].
  destruct (build_depends_on_raw_input_only env_ok root 2 10 Swift kb kb_no_pdf)
    as (s' & t' & o & Hs & Ht & Hsame).
  - apply wf_kb.
  - apply wf_kb_no_pdf.
  - apply resettable_kb.
  - apply resettable_check. decide_it.
  - apply ready_kb.
  - apply agree_under_check. decide_it.
  - exists s', t', o. split; [exact Hs|]. split; [exact Ht|].
    apply Hsame, under_app.
Defined.

Lemma main_runs_all_four_witness :
  ∃ s', exit_status (main env_ok root 2 10 kb) = Some 0
        ∧ final (main env_ok root 2 10 kb) = Some s'
        ∧ ∃ s_js o_js,
            build_javascript root kb = Done tt s_js o_js
            ∧ s' !! (out_path root Javascript ++ ["ecma262.txt"])
              = s_js !! (out_path root Javascript ++ ["ecma262.txt"]).
Proof.
  destruct (main_runs_all_four env_ok root 2 10 kb)
    as (s_ & o_ & s' & Halone & Hmain & Hexit & Hsame).
  - apply wf_kb.
  - apply resettable_kb.
  - apply ready_kb.
  - exists s'. split; [exact Hexit|]. split; [rewrite Hmain; reflexivity|].
    exists (s_ Javascript), (o_ Javascript). split; [apply (Halone Javascript)|].
    apply (Hsame Javascript), under_app.
Defined.

Lemma done_line_means_completed_witness :
  ("[kb] done" ∉ printed (main env_ok root 2 10 kb_no_js))
  ∧ "[kb] done" ∈ printed (main env_ok root 2 10 kb).
Proof.
  destruct (done_line_means_completed env_ok root 2 10 kb_no_js) as [_ Hno].
  destruct (done_line_means_completed env_ok root 2 10 kb) as [_ Hyes].
  split.
  - intros Hin. apply Hno in Hin as (s' & o & Hrun).
    assert (exit_status (main env_ok root 2 10 kb_no_js) = Some 1) as Hexit
      by vm_refl.
    rewrite Hrun in Hexit. discriminate Hexit.
  - apply Hyes. exists (state_of kb_main), (output_of kb_main). vm_refl.
Defined.

Lemma wf_kb_out_file : wf kb_out_file.
Proof. apply wf_check. decide_it. Qed.

Lemma build_blocked_output_witness :
  build env_ok root 2 10 Javascript kb_out_file
  = Raised (NotADirectoryError (out_path root Javascript)) kb_out_file
      ["[kb] javascript: copy ecma262.txt -> docs/ecma-262/"].
Proof.
  apply (build_blocked_output env_ok root 2 10 Javascript kb_out_file
           (out_path root Javascript)).
  - apply wf_kb_out_file.
  - vm_refl.
  - discriminate.
  - reflexivity.
  - vm_refl.
Defined.

Lemma main_twice_witness :
  ∃ s1 s2 o,
    main env_ok root 2 10 kb = Done tt s1 o
    ∧ main env_later root 2 10 s1 = Done tt s2 o
    ∧ contents s2 = contents s1.
Proof.
  destruct (main_twice env_ok env_later root 2 10 kb)
    as (s1 & s2 & o & H1 & H2 & Hsame & _).
  - reflexivity.
  - apply wf_kb.
  - apply resettable_kb.
  - apply ready_kb.
  - exists s1, s2, o. split; [exact H1|]. split; [exact H2 | exact Hsame].
Defined.

Lemma main_without_pypdf_witness :
  ∃ s' o,
    main env_no_pypdf root 2 10 kb = Raised (SystemExit missing_dependency_msg) s' o
    ∧ exit_status (main env_no_pypdf root 2 10 kb) = Some 1
    ∧ s' !! (out_path root Cpp ++ ["stale.txt"]) = Some (File "old" stamp).
Proof.
  destruct (main_without_pypdf env_no_pypdf root 2 10 kb)
    as (s_ & o_ & s' & _ & Hmain & Hexit & _ & Hcpp).
  - reflexivity.
  - apply wf_kb.
  - intros l Hl. split; [apply resettable_kb|].
    destruct l; [apply (ready_kb Python) | apply (ready_kb Javascript)
                | apply (ready_kb Swift) | destruct Hl; reflexivity].
  - eexists s', _. split; [exact Hmain|]. split; [exact Hexit|].
    rewrite Hcpp by apply under_app. vm_refl.
Defined.

Lemma out_names_sort_in_page_order_witness :
  str_ltb "cpp-draft.p0001-p0200.txt" "cpp-draft.p0201-p0400.txt" = true.
Proof.
  destruct (out_names_sort_in_page_order 0 199 200 399) as [Hlt _]; [lia..|].
  exact Hlt.
Defined.

End DemoMore.

(* ===================================================================== *)
(** * Formatting at work *)
(* ===================================================================== *)

Example str_of_int_1234 : Text.str_of_int 1234 = "1234".
Proof. reflexivity. Qed.

Example format_04d_small : Text.format_04d 1 = "0001".
Proof. reflexivity. Qed.

Example format_04d_wide : Text.format_04d 12345 = "12345".
Proof. reflexivity. Qed.

Example format_04d_negative : Text.format_04d (-1) = "-001".
Proof. reflexivity. Qed.

Example suffix_of_md : Text.suffix_of "Guide.MD" = ".MD".
Proof. reflexivity. Qed.

Example suffix_of_hidden : Text.suffix_of ".gitignore" = "".
Proof. reflexivity. Qed.

Example suffix_of_trailing_dot : Text.suffix_of "notes." = "".
Proof. reflexivity. Qed.

Example lower_md : Text.lower ".MD" = ".md".
Proof. reflexivity. Qed.

Example out_name_first_batch : Build.out_name 0 199 = "cpp-draft.p0001-p0200.txt".
Proof. reflexivity. Qed.
